(** * SesameConverse: the two-level audio-token generator of [models.py]

    A shallow embedding of [src/models.py].  Tensors are modelled the way
    torch stores them, as a shape together with row-major data, and every
    torch operation the source calls is a function that either returns a
    tensor or raises the Python exception torch raises on a shape or index
    error.  Floating-point values are real numbers extended with the IEEE
    special values: rounding is not modelled, and a quotient beyond the
    range of single precision overflows to an infinity. *)

From Stdlib Require Import String Ascii DecimalString.
From Stdlib Require Import List ZArith Lia Bool Arith PeanoNat.
From Stdlib Require Import Reals Lra Permutation Sorted.
Import ListNotations.

Set Implicit Arguments.

(** ** Python exceptions and results *)

Inductive exn_class : Type :=
  | AssertionError
  | AttributeError
  | IndexError
  | RuntimeError
  | TypeError
  | ValueError.

(** Every class above derives from Python's [Exception]. *)
Record exn : Type := Exn { exn_kind : exn_class; exn_msg : string }.

Inductive Result (A : Type) : Type :=
  | Ok (a : A)
  | Raise (e : exn).
Arguments Ok {A} a.
Arguments Raise {A} e.

Definition rbind {A B} (r : Result A) (k : A -> Result B) : Result B :=
  match r with
  | Ok a => k a
  | Raise e => Raise e
  end.

Fixpoint rmap {A B} (f : A -> Result B) (l : list A) : Result (list B) :=
  match l with
  | [] => Ok []
  | x :: l' => rbind (f x) (fun y => rbind (rmap f l') (fun ys => Ok (y :: ys)))
  end.

Declare Scope result_scope.
Delimit Scope result_scope with result.
Notation "x <- r ;; k" := (rbind r (fun x => k))
  (at level 61, r at next level, right associativity) : result_scope.
Notation "'check' b 'else' e ;; k" := (if b then k else Raise e)
  (at level 61, b at next level, e at next level, right associativity) : result_scope.

(** ** Idealised floating-point values *)

Inductive float : Type :=
  | Fin (r : R)
  | PInf
  | NInf
  | NaN.

Module Float.

Definition zero : float := Fin 0.
Definition one : float := Fin 1.

Definition Rltb (x y : R) : bool := if Rlt_dec x y then true else false.
Definition Reqb (x y : R) : bool := if Req_dec_T x y then true else false.

(** [sgn_inf positive] is the infinity of that sign. *)
Definition sgn_inf (positive : bool) : float := if positive then PInf else NInf.

Definition add (x y : float) : float :=
  match x, y with
  | NaN, _ | _, NaN => NaN
  | Fin a, Fin b => Fin (a + b)
  | PInf, NInf | NInf, PInf => NaN
  | PInf, _ | _, PInf => PInf
  | NInf, _ | _, NInf => NInf
  end.

Definition neg (x : float) : float :=
  match x with
  | Fin a => Fin (- a)
  | PInf => NInf
  | NInf => PInf
  | NaN => NaN
  end.

Definition sub (x y : float) : float := add x (neg y).

(** An infinity times a finite value: the sign rule, and NaN at zero. *)
Definition scale_inf (positive : bool) (a : R) : float :=
  if Rltb 0 a then sgn_inf positive
  else if Rltb a 0 then sgn_inf (negb positive)
  else NaN.

Definition mul (x y : float) : float :=
  match x, y with
  | NaN, _ | _, NaN => NaN
  | Fin a, Fin b => Fin (a * b)
  | PInf, Fin a | Fin a, PInf => scale_inf true a
  | NInf, Fin a | Fin a, NInf => scale_inf false a
  | PInf, PInf | NInf, NInf => PInf
  | PInf, NInf | NInf, PInf => NaN
  end.

(** The least magnitude that rounds to an infinity in single precision,
    the dtype the modules of [Model] are created with: [2^128 - 2^103]. *)
Definition huge : R := 340282356779733661637539395458142568448%R.

(** A real quotient as a float: beyond the range it is the infinity of
    its sign. *)
Definition of_real (r : R) : float :=
  if Rltb r huge then (if Rltb (- huge) r then Fin r else NInf) else PInf.

(** Division; a zero divisor is the positive zero, and a quotient of
    finite values may overflow. *)
Definition div (x y : float) : float :=
  match x, y with
  | NaN, _ | _, NaN => NaN
  | Fin a, Fin b => if Reqb b 0 then scale_inf true a else of_real (a / b)
  | Fin _, PInf | Fin _, NInf => Fin 0
  | PInf, Fin b => if Rltb b 0 then NInf else PInf
  | NInf, Fin b => if Rltb b 0 then PInf else NInf
  | _, _ => NaN
  end.

(** [x < y]; every comparison with NaN is false. *)
Definition ltb (x y : float) : bool :=
  match x, y with
  | NaN, _ | _, NaN => false
  | Fin a, Fin b => Rltb a b
  | NInf, NInf => false
  | NInf, _ => true
  | _, PInf => match x with PInf => false | _ => true end
  | _, _ => false
  end.

Definition exp (x : float) : float :=
  match x with
  | Fin a => Fin (Rtrigo_def.exp a)
  | PInf => PInf
  | NInf => Fin 0
  | NaN => NaN
  end.

Definition log (x : float) : float :=
  match x with
  | Fin a => if Rltb 0 a then Fin (ln a) else if Rltb a 0 then NaN else NInf
  | PInf => PInf
  | NInf => NaN
  | NaN => NaN
  end.

Definition of_bool (b : bool) : float := if b then one else zero.

Definition is_nan (x : float) : bool :=
  match x with NaN => true | _ => false end.

Definition sum (l : list float) : float := fold_left add l zero.

End Float.

(** ** Tensors: a shape and row-major data *)

Record tensor (A : Type) : Type := Tensor { shape : list nat; data : list A }.

Definition numel (s : list nat) : nat := fold_right Nat.mul 1 s.

Definition rank {A} (t : tensor A) : nat := length (shape t).

(** The storage holds exactly the elements the shape announces. *)
Definition wf {A} (t : tensor A) : Prop := length (data t) = numel (shape t).

(** [chunks size count l]: the first [count] consecutive blocks of [size]
    elements of [l]. *)
Fixpoint chunks {A} (size count : nat) (l : list A) : list (list A) :=
  match count with
  | 0 => []
  | S c => firstn size l :: chunks size c (skipn size l)
  end.

(** Python's reading of a possibly negative index into [n] positions. *)
Definition wrap_index (n : nat) (i : Z) : option nat :=
  if ((0 <=? i) && (i <? Z.of_nat n))%Z then Some (Z.to_nat i)
  else if ((- Z.of_nat n <=? i) && (i <? 0))%Z then Some (Z.to_nat (i + Z.of_nat n))
  else None.

(** Python's adjustment of one bound of a slice over [n] positions. *)
Definition clamp_slice (n : nat) (i : Z) : nat :=
  let j := if (i <? 0)%Z then (i + Z.of_nat n)%Z else i in
  Z.to_nat (Z.max 0 (Z.min j (Z.of_nat n))).

(** Start and length of the slice [start:stop] (step 1). *)
Definition slice_bounds (n : nat) (start stop : option Z) : nat * nat :=
  let a := match start with Some i => clamp_slice n i | None => 0 end in
  let b := match stop with Some i => clamp_slice n i | None => n end in
  (a, b - a).

(** A tensor seen from dimension [d]: [outer] blocks, each of [size_at]
    sub-blocks of [inner] elements. *)
Definition outer (d : nat) (s : list nat) : nat := numel (firstn d s).
Definition inner (d : nat) (s : list nat) : nat := numel (skipn (S d) s).
Definition size_at (d : nat) (s : list nat) : nat := nth d s 0.

Definition last_dim (s : list nat) : nat := last s 1.

Fixpoint broadcast_rev (s1 s2 : list nat) : option (list nat) :=
  match s1, s2 with
  | [], s | s, [] => Some s
  | a :: s1', b :: s2' =>
      match broadcast_rev s1' s2' with
      | Some s =>
          if a =? b then Some (a :: s)
          else if a =? 1 then Some (b :: s)
          else if b =? 1 then Some (a :: s)
          else None
      | None => None
      end
  end.

(** torch's broadcasting rule: shapes are aligned on their last dimension. *)
Definition broadcast_shapes (s1 s2 : list nat) : option (list nat) :=
  option_map (@rev nat) (broadcast_rev (rev s1) (rev s2)).

Definition pad_shape (r : nat) (s : list nat) : list nat :=
  repeat 1 (r - length s) ++ s.

Fixpoint shape_eqb (s1 s2 : list nat) : bool :=
  match s1, s2 with
  | [], [] => true
  | a :: s1', b :: s2' => (a =? b) && shape_eqb s1' s2'
  | _, _ => false
  end.

(** The error of indexing a tensor with more indices than it has
    dimensions. *)
Definition too_many_indices (dims : nat) : exn :=
  Exn IndexError
    ("too many indices for tensor of dimension " ++ NilZero.string_of_uint (Nat.to_uint dims)).

Module Torch.
Section Generic.
Context {A : Type}.

Definition tmap {B} (f : A -> B) (t : tensor A) : tensor B :=
  Tensor (shape t) (map f (data t)).

(** [t.clone()] and [t.to(dtype=...)] keep shape and values. *)
Definition clone (t : tensor A) : tensor A := t.

(** [t.select(d, i)], the indexing [t[:, ..., i]] with [d] leading colons. *)
Definition select (d : nat) (i : Z) (t : tensor A) : Result (tensor A) :=
  if d <? rank t then
    let n := size_at d (shape t) in
    let w := inner d (shape t) in
    match wrap_index n i with
    | Some k =>
        Ok (Tensor (firstn d (shape t) ++ skipn (S d) (shape t))
              (concat (map (fun blk => firstn w (skipn (k * w) blk))
                         (chunks (n * w) (outer d (shape t)) (data t)))))
    | None => Raise (Exn IndexError "index is out of bounds for dimension")
    end
  else Raise (too_many_indices (rank t)).

(** [t[:, ..., start:stop]] with [d] leading colons. *)
Definition slice (d : nat) (start stop : option Z) (t : tensor A)
  : Result (tensor A) :=
  if d <? rank t then
    let n := size_at d (shape t) in
    let w := inner d (shape t) in
    let '(a, len) := slice_bounds n start stop in
    Ok (Tensor (firstn d (shape t) ++ len :: skipn (S d) (shape t))
          (concat (map (fun blk => firstn (len * w) (skipn (a * w) blk))
                     (chunks (n * w) (outer d (shape t)) (data t)))))
  else Raise (too_many_indices (rank t)).

(** [t[:, ..., [i]]]: indexing by a one-element list keeps the dimension. *)
Definition select_keep (d : nat) (i : Z) (t : tensor A) : Result (tensor A) :=
  rbind (select d i t) (fun r =>
    Ok (Tensor (firstn d (shape t) ++ 1 :: skipn (S d) (shape t)) (data r))).

Definition unsqueeze (dim : Z) (t : tensor A) : Result (tensor A) :=
  match wrap_index (S (rank t)) dim with
  | Some d => Ok (Tensor (firstn d (shape t) ++ 1 :: skipn d (shape t)) (data t))
  | None => Raise (Exn IndexError "Dimension out of range")
  end.

(** [t.view(-1)] of a contiguous tensor. *)
Definition flatten (t : tensor A) : tensor A :=
  Tensor [numel (shape t)] (data t).

(** [t.reshape(sizes)], [None] standing for the inferred size [-1]. *)
Definition reshape (sizes : list (option nat)) (t : tensor A)
  : Result (tensor A) :=
  let known := numel (map (fun o => match o with Some k => k | None => 1 end) sizes) in
  let n := numel (shape t) in
  match length (filter (fun o => match o with None => true | Some _ => false end) sizes) with
  | 0 =>
      if n =? known
      then Ok (Tensor (map (fun o => match o with Some k => k | None => 1 end) sizes) (data t))
      else Raise (Exn RuntimeError "shape is invalid for input size")
  | 1 =>
      if (0 <? known) && (n mod known =? 0)
      then Ok (Tensor (map (fun o => match o with Some k => k | None => n / known end) sizes)
                 (data t))
      else Raise (Exn RuntimeError "shape is invalid for input size")
  | _ => Raise (Exn RuntimeError "only one dimension can be inferred")
  end.

(** Two shapes that [torch.cat] accepts along [d]. *)
Definition cat_compatible (d : nat) (s0 s : list nat) : bool :=
  (length s0 =? length s)
  && shape_eqb (firstn d s0) (firstn d s)
  && shape_eqb (skipn (S d) s0) (skipn (S d) s).

(** [torch.cat(ts, dim)]; tensors of shape [(0,)] are skipped, as torch
    does for its legacy empty tensors. *)
Definition cat (ts : list (tensor A)) (dim : Z) : Result (tensor A) :=
  match ts with
  | [] => Raise (Exn RuntimeError "torch.cat(): expected a non-empty list of Tensors")
  | _ :: _ =>
      match filter (fun t => negb (shape_eqb (shape t) [0])) ts with
      | [] => Ok (Tensor [0] [])
      | t0 :: rest =>
          match wrap_index (rank t0) dim with
          | None =>
              if rank t0 =? 0
              then Raise (Exn RuntimeError "zero-dimensional tensor cannot be concatenated")
              else Raise (Exn IndexError "Dimension out of range")
          | Some d =>
              if forallb (fun t => cat_compatible d (shape t0) (shape t)) rest then
                let w := inner d (shape t0) in
                let o := outer d (shape t0) in
                let total := list_sum (map (fun t => size_at d (shape t)) (t0 :: rest)) in
                Ok (Tensor (firstn d (shape t0) ++ total :: skipn (S d) (shape t0))
                      (concat (map (fun k =>
                         concat (map (fun t =>
                           nth k (chunks (size_at d (shape t) * w) o (data t)) [])
                           (t0 :: rest)))
                         (seq 0 o))))
              else Raise (Exn RuntimeError "Sizes of tensors must match except in the cat dimension")
          end
      end
  end.

(** Data of a tensor of shape [src] expanded to the shape [tgt] of the
    same rank, each dimension of [src] being that of [tgt] or 1. *)
Fixpoint expand_data (src tgt : list nat) (l : list A) : list A :=
  match src, tgt with
  | n :: src', m :: tgt' =>
      let blocks := map (expand_data src' tgt') (chunks (numel src') n l) in
      if n =? m then concat blocks else concat (repeat (concat blocks) m)
  | _, _ => l
  end.

Definition expand (tgt : list nat) (t : tensor A) : tensor A :=
  Tensor tgt (expand_data (pad_shape (length tgt) (shape t)) tgt (data t)).

(** [t[idx, :]]: rows of [t] gathered along dimension 0 by an integer
    tensor; the result has the shape of [idx] followed by a row's. *)
Definition index_rows (t : tensor A) (idx : tensor Z) : Result (tensor A) :=
  match shape t with
  | n :: (_ :: _) as row_shape =>
      let w := numel row_shape in
      rbind (rmap (fun p =>
               match wrap_index n p with
               | Some k => Ok (firstn w (skipn (k * w) (data t)))
               | None => Raise (Exn IndexError "index out of range")
               end) (data idx))
        (fun rows => Ok (Tensor (shape idx ++ row_shape) (concat rows)))
  | _ => Raise (too_many_indices (rank t))
  end.

(** [t.repeat(b, 1)]. *)
Definition repeat_rows (b : nat) (t : tensor A) : Result (tensor A) :=
  match pad_shape 2 (shape t) with
  | [r; c] => Ok (Tensor [b * r; c] (concat (repeat (data t) b)))
  | _ => Raise (Exn RuntimeError
           "Number of dimensions of repeat dims can not be smaller than number of dimensions of tensor")
  end.

(** [torch.tril]: in every matrix of the last two dimensions, the entries
    above the diagonal are replaced by [zero]. *)
Definition tril_row (zero : A) (i : nat) (row : list A) : list A :=
  map (fun jx => if fst jx <=? i then snd jx else zero)
    (combine (seq 0 (length row)) row).

Definition tril_matrix (zero : A) (rows cols : nat) (m : list A) : list A :=
  concat (map (fun ir => tril_row zero (fst ir) (snd ir))
            (combine (seq 0 rows) (chunks cols rows m))).

Definition tril (zero : A) (t : tensor A) : Result (tensor A) :=
  match rev (shape t) with
  | cols :: rows :: batch =>
      Ok (Tensor (shape t)
            (concat (map (tril_matrix zero rows cols)
                       (chunks (rows * cols) (numel batch) (data t)))))
  | _ => Raise (Exn RuntimeError "tril: input tensor must have at least 2 dimensions")
  end.

(** [t[i, j, ...].item()]. *)
Fixpoint flat_index (s : list nat) (idx : list nat) : option nat :=
  match s, idx with
  | [], [] => Some 0
  | n :: s', i :: idx' =>
      if i <? n
      then option_map (fun r => i * numel s' + r) (flat_index s' idx')
      else None
  | _, _ => None
  end.

Definition item (idx : list nat) (t : tensor A) : option A :=
  match flat_index (shape t) idx with
  | Some k => nth_error (data t) k
  | None => None
  end.

End Generic.

(** Element-wise binary operation under broadcasting. *)
Definition broadcast2 {A B C} (f : A -> B -> C) (x : tensor A) (y : tensor B)
  : Result (tensor C) :=
  match broadcast_shapes (shape x) (shape y) with
  | Some s =>
      Ok (Tensor s (map (fun ab => f (fst ab) (snd ab))
                      (combine (data (expand s x)) (data (expand s y)))))
  | None => Raise (Exn RuntimeError "The size of tensor a must match the size of tensor b")
  end.

Definition ones (s : list nat) : tensor bool := Tensor s (repeat true (numel s)).
Definition zeros_long (s : list nat) : tensor Z := Tensor s (repeat 0%Z (numel s)).
Definition zeros_bool (s : list nat) : tensor bool := Tensor s (repeat false (numel s)).

(** [torch.arange(n)]. *)
Definition arange (n : nat) : tensor Z := Tensor [n] (map Z.of_nat (seq 0 n)).

(** [torch.all(t == 0)]. *)
Definition all_zero (t : tensor Z) : bool := forallb (Z.eqb 0) (data t).


(** *** Operations on float tensors *)

(** The rows of a tensor along its last dimension (a 0-d tensor is one
    row of one element). *)
Definition rows_of {A} (t : tensor A) : list (list A) :=
  chunks (last_dim (shape t)) (numel (removelast (shape t))) (data t).

Definition rowwise {A B} (f : list A -> list B) (t : tensor A) : tensor B :=
  Tensor (shape t) (concat (map f (rows_of t))).

Definition require_dims {A} (n : nat) (t : tensor A) : Result unit :=
  if n <=? rank t then Ok tt
  else Raise (too_many_indices (rank t)).

(** [t.size(d)]. *)
Definition size {A} (d : nat) (t : tensor A) : Result nat :=
  if d <? rank t then Ok (size_at d (shape t))
  else Raise (Exn IndexError "Dimension out of range").

(** [b, s, _ = t.size()]. *)
Definition size3 {A} (t : tensor A) : Result (nat * nat * nat) :=
  match shape t with
  | [b; s; c] => Ok (b, s, c)
  | _ => Raise (Exn ValueError "wrong number of values to unpack")
  end.

(** [t.sum(dim=d)]. *)
Definition sum_dim (d : nat) (t : tensor float) : Result (tensor float) :=
  if d <? rank t then
    let n := size_at d (shape t) in
    let w := inner d (shape t) in
    Ok (Tensor (firstn d (shape t) ++ skipn (S d) (shape t))
          (concat (map (fun blk =>
             fold_left (fun acc row =>
                          map (fun xy => Float.add (fst xy) (snd xy)) (combine acc row))
               (chunks w n blk) (repeat Float.zero w))
             (chunks (n * w) (outer d (shape t)) (data t)))))
  else Raise (Exn IndexError "Dimension out of range").

(** [nn.Embedding]: a table of [num] rows of width [dim]. *)
Definition embedding (weight : tensor float) (idx : tensor Z)
  : Result (tensor float) :=
  match shape weight with
  | [num; dim] =>
      rbind (rmap (fun p =>
               if ((0 <=? p) && (p <? Z.of_nat num))%Z
               then Ok (firstn dim (skipn (Z.to_nat p * dim) (data weight)))
               else Raise (Exn IndexError "index out of range in self"))
               (data idx))
        (fun rows => Ok (Tensor (shape idx ++ [dim]) (concat rows)))
  | _ => Raise (Exn RuntimeError "'weight' must be 2-D")
  end.

Definition dot (u v : list float) : float :=
  Float.sum (map (fun ab => Float.mul (fst ab) (snd ab)) (combine u v)).

(** [nn.Linear(in, out, bias=False)] with weight of shape [(out, in)]. *)
Definition linear (weight : tensor float) (x : tensor float)
  : Result (tensor float) :=
  match shape weight, rev (shape x) with
  | [n_out; n_in], k :: lead =>
      if k =? n_in then
        let wrows := chunks n_in n_out (data weight) in
        Ok (Tensor (rev lead ++ [n_out])
              (concat (map (fun xr => map (dot xr) wrows)
                         (chunks n_in (numel lead) (data x)))))
      else Raise (Exn RuntimeError "mat1 and mat2 shapes cannot be multiplied")
  | _, _ => Raise (Exn RuntimeError "linear: both arguments need at least one dimension")
  end.

(** [torch.mm(a, b)]. *)
Definition mm (a b : tensor float) : Result (tensor float) :=
  match shape a, shape b with
  | [n; k], [k'; m] =>
      if k =? k' then
        let brows := chunks m k (data b) in
        let bcols := map (fun j => map (fun r => nth j r Float.zero) brows) (seq 0 m) in
        Ok (Tensor [n; m]
              (concat (map (fun ar => map (dot ar) bcols) (chunks k n (data a)))))
      else Raise (Exn RuntimeError "mat1 and mat2 shapes cannot be multiplied")
  | _, _ => Raise (Exn RuntimeError "self must be a matrix")
  end.

(** torch orders NaN above every other value when it sorts or takes a
    maximum: [above x y] is [x > y] in that order. *)
Definition above (x y : float) : bool :=
  match x, y with
  | _, NaN => false
  | NaN, _ => true
  | _, _ => Float.ltb y x
  end.

Fixpoint insert_desc (x : float) (l : list float) : list float :=
  match l with
  | [] => [x]
  | y :: l' => if above y x then y :: insert_desc x l' else x :: y :: l'
  end.

Definition sort_desc (l : list float) : list float :=
  fold_right insert_desc [] l.

(** The values of [torch.topk(t, k)]: per row, the [k] largest in
    decreasing order. *)
Definition topk_values (k : Z) (t : tensor float) : Result (tensor float) :=
  if ((0 <=? k) && (k <=? Z.of_nat (last_dim (shape t))))%Z then
    Ok (Tensor (match shape t with
                | [] => []
                | _ :: _ => removelast (shape t) ++ [Z.to_nat k]
                end)
          (concat (map (fun row => firstn (Z.to_nat k) (sort_desc row)) (rows_of t))))
  else Raise (Exn RuntimeError "selected index k out of range").

(** [t.masked_fill(mask, value)]. *)
Definition masked_fill {A} (t : tensor A) (mask : tensor bool) (value : A)
  : Result (tensor A) :=
  rbind (broadcast2 (fun x (m : bool) => if m then value else x) t mask) (fun r =>
    if shape_eqb (shape r) (shape t) then Ok r
    else Raise (Exn RuntimeError "mask is not broadcastable to the tensor")).

Definition log_softmax_row (row : list float) : list float :=
  let lse := Float.log (Float.sum (map Float.exp row)) in
  map (fun x => Float.sub x lse) row.

Definition softmax_row (row : list float) : list float :=
  let z := Float.sum (map Float.exp row) in
  map (fun x => Float.div (Float.exp x) z) row.

(** Both along [dim=-1]. *)
Definition log_softmax (t : tensor float) : tensor float := rowwise log_softmax_row t.
Definition softmax (t : tensor float) : tensor float := rowwise softmax_row t.

(** Index of the first maximum of a row. *)
Fixpoint argmax_from (best_i : nat) (best : float) (i : nat) (l : list float) : nat :=
  match l with
  | [] => best_i
  | x :: l' =>
      if above x best then argmax_from i x (S i) l'
      else argmax_from best_i best (S i) l'
  end.

Definition argmax_row (row : list float) : nat :=
  match row with
  | [] => 0
  | x :: l => argmax_from 0 x 1 l
  end.

(** [torch.argmax(t, dim=-1, keepdim=True)]. *)
Definition argmax (t : tensor float) : Result (tensor Z) :=
  if last_dim (shape t) =? 0
  then Raise (Exn IndexError "argmax(): Expected reduction dim to have non-zero size")
  else Ok (Tensor (match shape t with
                   | [] => []
                   | _ :: _ => removelast (shape t) ++ [1]
                   end)
             (map (fun row => Z.of_nat (argmax_row row)) (rows_of t))).

End Torch.

(** ** Section 3 of [models.py]: shared utilities *)

(** [torch.tril(torch.ones(seq_len, seq_len, dtype=torch.bool))]. *)
Definition _create_causal_mask (seq_len : nat) : Result (tensor bool) :=
  Torch.tril false (Torch.ones [seq_len; seq_len]).

(** [mask[input_pos, :]]. *)
Definition _index_causal_mask (mask : tensor bool) (input_pos : tensor Z)
  : Result (tensor bool) :=
  Torch.index_rows mask input_pos.

(** ** The state a call can see and change *)

(** A tensor object held in memory. *)
Inductive tobj : Type :=
  | TLong (t : tensor Z)
  | TBool (t : tensor bool)
  | TFloat (t : tensor float).

(** Calls into the two transformer stacks and lines printed, in order. *)
Inductive event : Type :=
  | BackboneSetup
  | DecoderSetup
  | BackboneForward
  | DecoderForward
  | BackboneReset
  | DecoderReset
  | Print (line : string).

Record ModelArgs : Type := {
  text_vocab_size : nat;
  audio_vocab_size : nat;
  audio_num_codebooks : nat
}.

(** The parameters [Model.__init__] registers, as weight tensors:
    [text_embeddings] of shape [(text_vocab_size, dim)], [audio_embeddings]
    of shape [(audio_vocab_size * audio_num_codebooks, dim)], [projection]
    of shape [(decoder_dim, dim)], [codebook0_head] of shape
    [(audio_vocab_size, dim)] and [audio_head] of shape
    [(audio_num_codebooks - 1, decoder_dim, audio_vocab_size)]. *)
Record Model : Type := {
  args : ModelArgs;
  text_embeddings : tensor float;
  audio_embeddings : tensor float;
  projection : tensor float;
  codebook0_head : tensor float;
  audio_head : tensor float
}.

Section Generation.

Set Default Proof Using "Type".

(** The transformer stacks are external: a stack is known by its key/value
    cache, by what [forward] returns and leaves in the cache, and by the
    cleared cache that [setup_caches] and [reset_caches] install. *)
Variable Cache : Type.
Variable empty_cache : Cache.
Variable backbone_forward decoder_forward :
  Cache -> tensor float -> tensor Z -> tensor bool -> Result (tensor float) * Cache.
Variable backbone_max_seq_len : nat.

(** The random draws: the [i]-th value of [exponential_(1)] and the
    [i]-th index drawn by [torch.multinomial]. *)
Variable exp_noise : nat -> R.
Variable multinomial_pick : nat -> Z.

Record transformer : Type := {
  caches_enabled : bool;
  cache : Cache
}.

Record world : Type := {
  backbone : transformer;
  decoder : transformer;
  backbone_causal_mask : option (tensor bool);
  decoder_causal_mask : option (tensor bool);
  heap : list tobj;
  rng : nat;
  trace : list event
}.

Definition set_backbone (x : transformer) (w : world) : world :=
  {| backbone := x; decoder := decoder w;
     backbone_causal_mask := backbone_causal_mask w;
     decoder_causal_mask := decoder_causal_mask w;
     heap := heap w; rng := rng w; trace := trace w |}.

Definition set_decoder (x : transformer) (w : world) : world :=
  {| backbone := backbone w; decoder := x;
     backbone_causal_mask := backbone_causal_mask w;
     decoder_causal_mask := decoder_causal_mask w;
     heap := heap w; rng := rng w; trace := trace w |}.

Definition set_masks (bm dm : option (tensor bool)) (w : world) : world :=
  {| backbone := backbone w; decoder := decoder w;
     backbone_causal_mask := bm;
     decoder_causal_mask := dm;
     heap := heap w; rng := rng w; trace := trace w |}.

Definition set_heap (h : list tobj) (w : world) : world :=
  {| backbone := backbone w; decoder := decoder w;
     backbone_causal_mask := backbone_causal_mask w;
     decoder_causal_mask := decoder_causal_mask w;
     heap := h; rng := rng w; trace := trace w |}.

Definition set_rng (n : nat) (w : world) : world :=
  {| backbone := backbone w; decoder := decoder w;
     backbone_causal_mask := backbone_causal_mask w;
     decoder_causal_mask := decoder_causal_mask w;
     heap := heap w; rng := n; trace := trace w |}.

Definition emit (e : event) (w : world) : world :=
  {| backbone := backbone w; decoder := decoder w;
     backbone_causal_mask := backbone_causal_mask w;
     decoder_causal_mask := decoder_causal_mask w;
     heap := heap w; rng := rng w; trace := trace w ++ [e] |}.

(** *** Computations: a result or an exception, and the state left behind *)

Definition M (A : Type) : Type := world -> Result A * world.

Definition ret {A} (a : A) : M A := fun w => (Ok a, w).

Definition raise {A} (e : exn) : M A := fun w => (Raise e, w).

Definition bind {A B} (m : M A) (k : A -> M B) : M B :=
  fun w =>
    match m w with
    | (Ok a, w') => k a w'
    | (Raise e, w') => (Raise e, w')
    end.

Definition lift {A} (r : Result A) : M A := fun w => (r, w).

(** [try: body except Exception as e: handler(e)]. *)
Definition try_except {A} (body : M A) (handler : exn -> M A) : M A :=
  fun w =>
    match body w with
    | (Ok a, w') => (Ok a, w')
    | (Raise e, w') => handler e w'
    end.

Notation "x <- m ;; k" := (bind m (fun x => k))
  (at level 61, m at next level, right associativity).
Notation "m ;; k" := (bind m (fun _ => k))
  (at level 61, right associativity).

(** [for x in xs: s = body(x, s)]. *)
Fixpoint for_each {X S} (xs : list X) (body : X -> S -> M S) (s : S) : M S :=
  match xs with
  | [] => ret s
  | x :: xs' => s' <- body x s ;; for_each xs' body s'
  end.

(** A loop body that may leave the loop with [break]. *)
Inductive step (S : Type) : Type :=
  | Next (s : S)
  | Break (s : S).
Arguments Next {S} s.
Arguments Break {S} s.

Fixpoint for_break {X S} (xs : list X) (body : X -> S -> M (step S)) (s : S) : M S :=
  match xs with
  | [] => ret s
  | x :: xs' =>
      r <- body x s ;;
      match r with
      | Next s' => for_break xs' body s'
      | Break s' => ret s'
      end
  end.

(** [assert cond, msg]. *)
Definition py_assert (cond : bool) (msg : string) : M unit :=
  if cond then ret tt else raise (Exn AssertionError msg).

Definition print (line : string) : M unit := fun w => (Ok tt, emit (Print line) w).

(** *** The stacks' interface *)

Definition backbone_caches_are_enabled : M bool :=
  fun w => (Ok (caches_enabled (backbone w)), w).

Definition backbone_setup_caches : M unit :=
  fun w => (Ok tt, emit BackboneSetup
                     (set_backbone {| caches_enabled := true; cache := empty_cache |} w)).

Definition decoder_setup_caches : M unit :=
  fun w => (Ok tt, emit DecoderSetup
                     (set_decoder {| caches_enabled := true; cache := empty_cache |} w)).

Definition backbone_reset_caches : M unit :=
  fun w => (Ok tt, emit BackboneReset
                     (set_backbone {| caches_enabled := caches_enabled (backbone w);
                                      cache := empty_cache |} w)).

Definition decoder_reset_caches : M unit :=
  fun w => (Ok tt, emit DecoderReset
                     (set_decoder {| caches_enabled := caches_enabled (decoder w);
                                     cache := empty_cache |} w)).

(** [self.backbone(h, input_pos=..., mask=...)]. *)
Definition backbone_call (h : tensor float) (input_pos : tensor Z) (mask : tensor bool)
  : M (tensor float) :=
  fun w =>
    let '(r, c) := backbone_forward (cache (backbone w)) h input_pos mask in
    (r, emit BackboneForward
          (set_backbone {| caches_enabled := caches_enabled (backbone w); cache := c |} w)).

Definition decoder_call (h : tensor float) (input_pos : tensor Z) (mask : tensor bool)
  : M (tensor float) :=
  fun w =>
    let '(r, c) := decoder_forward (cache (decoder w)) h input_pos mask in
    (r, emit DecoderForward
          (set_decoder {| caches_enabled := caches_enabled (decoder w); cache := c |} w)).

(** [assert self.backbone.caches_are_enabled(), "backbone caches are not enabled"]. *)
Definition assert_caches_enabled : M unit :=
  enabled <- backbone_caches_are_enabled ;;
  py_assert enabled "backbone caches are not enabled".

(** Reading a buffer that [setup_caches] registers. *)
Definition get_buffer (name : string) (b : option (tensor bool)) : M (tensor bool) :=
  match b with
  | Some m => ret m
  | None => raise (Exn AttributeError ("'Model' object has no attribute '" ++ name ++ "'"))
  end.

Definition get_backbone_causal_mask : M (tensor bool) :=
  fun w => get_buffer "backbone_causal_mask" (backbone_causal_mask w) w.

Definition get_decoder_causal_mask : M (tensor bool) :=
  fun w => get_buffer "decoder_causal_mask" (decoder_causal_mask w) w.

(** *** Tensor objects *)

Definition new_tensor (o : tobj) : M nat :=
  fun w => (Ok (length (heap w)), set_heap (heap w ++ [o]) w).

Definition load_long (l : nat) : M (tensor Z) :=
  fun w =>
    match nth_error (heap w) l with
    | Some (TLong t) => (Ok t, w)
    | _ => (Raise (Exn TypeError "expected a tensor of integers"), w)
    end.

Definition load_bool (l : nat) : M (tensor bool) :=
  fun w =>
    match nth_error (heap w) l with
    | Some (TBool t) => (Ok t, w)
    | _ => (Raise (Exn TypeError "expected a tensor of booleans"), w)
    end.

Definition load_float (l : nat) : M (tensor float) :=
  fun w =>
    match nth_error (heap w) l with
    | Some (TFloat t) => (Ok t, w)
    | _ => (Raise (Exn TypeError "expected a tensor of floats"), w)
    end.

Fixpoint replace_nth {X} (n : nat) (x : X) (l : list X) : list X :=
  match l, n with
  | [], _ => []
  | _ :: l', 0 => x :: l'
  | y :: l', S n' => y :: replace_nth n' x l'
  end.

(** Writing into the storage of an existing object. *)
Definition write_float (l : nat) (t : tensor float) : M unit :=
  fun w => (Ok tt, set_heap (replace_nth l (TFloat t) (heap w)) w).

(** *** Random draws *)

(** [torch.empty_like(t).exponential_(1)]. *)
Definition exponential_like (t : tensor float) : M (tensor float) :=
  fun w =>
    let n := length (data t) in
    (Ok (Tensor (shape t) (map (fun i => Fin (exp_noise i)) (seq (rng w) n))),
     set_rng (rng w + n) w).

(** A row that [torch.multinomial] accepts: finite non-negative entries
    and a positive sum. *)
Definition valid_probs (row : list float) : bool :=
  forallb (fun p => match p with Fin r => negb (Float.Rltb r 0) | _ => false end) row
  && Float.ltb Float.zero (Float.sum row).

(** [torch.multinomial(probs, num_samples=1)]. *)
Definition multinomial (probs : tensor float) : M (tensor Z) :=
  fun w =>
    match shape probs with
    | [_] | [_; _] =>
        if (last_dim (shape probs) =? 0) then
          (Raise (Exn RuntimeError "cannot sample from an empty distribution"), w)
        else if forallb valid_probs (Torch.rows_of probs) then
          let b := numel (removelast (shape probs)) in
          (Ok (Tensor (removelast (shape probs) ++ [1])
                 (map multinomial_pick (seq (rng w) b))),
           set_rng (rng w + b) w)
        else (Raise (Exn RuntimeError
                "probability tensor contains either inf, nan or element < 0"), w)
    | _ => (Raise (Exn RuntimeError "prob_dist must be 1 or 2 dim"), w)
    end.

(** *** Sampling *)

(** [torch.argmax(probs / q, dim=-1, keepdim=True)] with [q] drawn from
    the exponential distribution. *)
Definition _multinomial_sample_one_no_sync (probs : tensor float) : M (tensor Z) :=
  q <- exponential_like probs ;;
  r <- lift (Torch.broadcast2 Float.div probs q) ;;
  lift (Torch.argmax r).

Definition sample_topk (logits : tensor float) (topk : Z) (temperature : float)
  : M (tensor Z) :=
  let logits := Torch.tmap (fun x => Float.div x temperature) logits in
  let filter_value := NInf in
  (* torch.topk(logits, topk)[0][..., -1, None] *)
  v <- lift (Torch.topk_values topk logits) ;;
  kth <- lift (Torch.select (rank v - 1) (-1) v) ;;
  kth <- lift (Torch.unsqueeze (-1) kth) ;;
  indices_to_remove <- lift (Torch.broadcast2 Float.ltb logits kth) ;;
  scores_processed <- lift (Torch.masked_fill logits indices_to_remove filter_value) ;;
  let scores_processed := Torch.log_softmax scores_processed in
  let probs := Torch.softmax scores_processed in
  _multinomial_sample_one_no_sync probs.

(** *** The methods of [Model] *)

Variable self : Model.

Definition setup_caches (max_batch_size : nat) : M unit :=
  backbone_setup_caches ;;
  decoder_setup_caches ;;
  bm <- lift (_create_causal_mask backbone_max_seq_len) ;;
  (fun w => (Ok tt, set_masks (Some bm) (decoder_causal_mask w) w)) ;;
  dm <- lift (_create_causal_mask (audio_num_codebooks (args self))) ;;
  (fun w => (Ok tt, set_masks (backbone_causal_mask w) (Some dm) w)).

Definition reset_caches : M unit :=
  backbone_reset_caches ;;
  decoder_reset_caches.

Definition _embed_audio (codebook : nat) (tokens : tensor Z) : Result (tensor float) :=
  Torch.embedding (audio_embeddings self)
    (Torch.tmap (fun t => (t + Z.of_nat codebook * Z.of_nat (audio_vocab_size (args self)))%Z)
       tokens).

Definition _embed_tokens (tokens : tensor Z) : Result (tensor float) :=
  (text_ids <- Torch.select 2 (-1) tokens ;;
   text_rows <- Torch.embedding (text_embeddings self) text_ids ;;
   text_embeds <- Torch.unsqueeze (-2) text_rows ;;
   audio_slots <- Torch.slice 2 None (Some (-1)%Z) tokens ;;
   let offsets :=
     Torch.tmap (fun k => (Z.of_nat (audio_vocab_size (args self)) * k)%Z)
       (Torch.arange (audio_num_codebooks (args self))) in
   audio_tokens <- Torch.broadcast2 Z.add audio_slots offsets ;;
   audio_rows <- Torch.embedding (audio_embeddings self) (Torch.flatten audio_tokens) ;;
   size0 <- Torch.size 0 tokens ;;
   size1 <- Torch.size 1 tokens ;;
   audio_embeds <-
     Torch.reshape [Some size0; Some size1; Some (audio_num_codebooks (args self)); None]
       audio_rows ;;
   Torch.cat [audio_embeds; text_embeds] (-2))%result.

(** [embeds * tokens_mask.unsqueeze(-1)] followed by [.sum(dim=2)]. *)
Definition masked_sum (embeds : tensor float) (tokens_mask : tensor bool)
  : Result (tensor float) :=
  (m <- Torch.unsqueeze (-1) tokens_mask ;;
   masked_embeds <-
     Torch.broadcast2 (fun x (b : bool) => Float.mul x (Float.of_bool b)) embeds m ;;
   Torch.sum_dim 2 masked_embeds)%result.

(** [h[:, -1, :]]. *)
Definition last_step (h : tensor float) : Result (tensor float) :=
  (_ <- Torch.require_dims 3 h ;; Torch.select 1 (-1) h)%result.

Definition forward (tokens : tensor Z) (tokens_mask : tensor bool) (input_pos : tensor Z)
  : M (tensor float) :=
  assert_caches_enabled ;;
  mask <- get_backbone_causal_mask ;;
  curr_backbone_mask <- lift (_index_causal_mask mask input_pos) ;;
  embeds <- lift (_embed_tokens tokens) ;;
  h <- lift (masked_sum embeds tokens_mask) ;;
  h <- backbone_call h input_pos curr_backbone_mask ;;
  last_h <- lift (last_step h) ;;
  lift (Torch.linear (codebook0_head self) last_h).

(** One turn of the loop [for i in range(1, audio_num_codebooks)] of
    [generate_frame], on [(curr_h, curr_sample, curr_pos)]. *)
Definition decoder_step (topk : Z) (temperature : float) (i : nat)
    (st : tensor float * tensor Z * tensor Z)
  : M (tensor float * tensor Z * tensor Z) :=
  let '(curr_h, curr_sample, curr_pos) := st in
  mask <- get_decoder_causal_mask ;;
  curr_decoder_mask <- lift (_index_causal_mask mask curr_pos) ;;
  projected <- lift (Torch.linear (projection self) curr_h) ;;
  decoder_h <- decoder_call projected curr_pos curr_decoder_mask ;;
  last_d <- lift (last_step decoder_h) ;;
  head_i <- lift (Torch.select 0 (Z.of_nat i - 1) (audio_head self)) ;;
  ci_logits <- lift (Torch.mm last_d head_i) ;;
  ci_sample <- sample_topk ci_logits topk temperature ;;
  ci_embed <- lift (_embed_audio i ci_sample) ;;
  next_sample <- lift (Torch.cat [curr_sample; ci_sample] 1) ;;
  last_pos <- lift (Torch.slice 1 (Some (-1)%Z) None curr_pos) ;;
  ret (ci_embed, next_sample, Torch.tmap (fun p => (p + 1)%Z) last_pos).

Definition generate_frame (tokens : tensor Z) (tokens_mask : tensor bool)
    (input_pos : tensor Z) (temperature : float) (topk : Z)
  : M (tensor Z) :=
  _ <- lift (Torch.size3 tokens) ;;
  assert_caches_enabled ;;
  mask <- get_backbone_causal_mask ;;
  curr_backbone_mask <- lift (_index_causal_mask mask input_pos) ;;
  embeds <- lift (_embed_tokens tokens) ;;
  h <- lift (masked_sum embeds tokens_mask) ;;
  h <- backbone_call h input_pos curr_backbone_mask ;;
  last_h <- lift (last_step h) ;;
  c0_logits <- lift (Torch.linear (codebook0_head self) last_h) ;;
  c0_sample <- sample_topk c0_logits topk temperature ;;
  c0_embed <- lift (_embed_audio 0 c0_sample) ;;
  seed <- lift (Torch.unsqueeze 1 last_h) ;;
  curr_h <- lift (Torch.cat [seed; c0_embed] 1) ;;
  let curr_sample := Torch.clone c0_sample in
  steps <- lift (Torch.size 1 curr_h) ;;
  row <- lift (Torch.unsqueeze 0 (Torch.arange steps)) ;;
  rows <- lift (Torch.size 0 curr_h) ;;
  curr_pos <- lift (Torch.repeat_rows rows row) ;;
  decoder_reset_caches ;;
  st <- for_each (seq 1 (audio_num_codebooks (args self) - 1))
          (decoder_step topk temperature) (curr_h, curr_sample, curr_pos) ;;
  ret (snd (fst st)).

(** One turn of the loop of [generate_frames_batch], on
    [(batch_samples, curr_tokens, curr_tokens_mask, curr_pos)]; the last
    three are tensor objects. *)
Definition batch_step (temperature : float) (topk : Z) (i : nat)
    (st : list (tensor Z) * nat * nat * nat)
  : M (step (list (tensor Z) * nat * nat * nat)) :=
  let '(batch_samples, curr_tokens, curr_tokens_mask, curr_pos) := st in
  tk <- load_long curr_tokens ;;
  mk <- load_bool curr_tokens_mask ;;
  ps <- load_long curr_pos ;;
  out <- forward tk mk ps ;;
  logits <- new_tensor (TFloat out) ;;
  logits <- (if Float.ltb Float.zero temperature
             then x <- load_float logits ;;
                  new_tensor (TFloat (Torch.tmap (fun y => Float.div y temperature) x))
             else ret logits) ;;
  (if (0 <? topk)%Z
   then x <- load_float logits ;;
        v <- lift (Torch.topk_values topk x) ;;
        kth <- lift (Torch.select_keep 1 (-1) v) ;;
        below <- lift (Torch.broadcast2 Float.ltb x kth) ;;
        (* logits[below] = -inf, in place *)
        (if shape_eqb (shape below) (shape x)
         then write_float logits
                (Tensor (shape x)
                   (map (fun xb : float * bool => if snd xb then NInf else fst xb)
                      (combine (data x) (data below))))
         else raise (Exn IndexError "the shape of the mask does not match the indexed tensor"))
   else ret tt) ;;
  x <- load_float logits ;;
  let probs := Torch.softmax x in
  sample <- multinomial probs ;;
  if Torch.all_zero sample then ret (Break st)
  else
    next_tokens <- lift (Torch.cat [sample; Torch.zeros_long [1; 1]] 1) ;;
    curr_tokens <- new_tensor (TLong next_tokens) ;;
    next_mask <- lift (Torch.cat [Torch.tmap (fun _ => true) sample; Torch.zeros_bool [1; 1]] 1) ;;
    curr_tokens_mask <- new_tensor (TBool next_mask) ;;
    last_pos <- lift (Torch.slice 1 (Some (-1)%Z) None ps) ;;
    curr_pos <- new_tensor (TLong (Torch.tmap (fun p => (p + 1)%Z) last_pos)) ;;
    ret (Next (batch_samples ++ [sample], curr_tokens, curr_tokens_mask, curr_pos)).

(** The body of the [try] block of [generate_frames_batch]. *)
Definition generate_frames_batch_body (tokens tokens_mask pos : nat)
    (temperature : float) (topk : Z) (num_frames : Z)
  : M (option (tensor Z)) :=
  t0 <- load_long tokens ;;
  curr_tokens <- new_tensor (TLong (Torch.clone t0)) ;;
  m0 <- load_bool tokens_mask ;;
  curr_tokens_mask <- new_tensor (TBool (Torch.clone m0)) ;;
  p0 <- load_long pos ;;
  curr_pos <- new_tensor (TLong (Torch.clone p0)) ;;
  st <- for_break (seq 0 (Z.to_nat num_frames)) (batch_step temperature topk)
          ([], curr_tokens, curr_tokens_mask, curr_pos) ;;
  match fst (fst (fst st)) with
  | [] => ret None
  | batch_samples => r <- lift (Torch.cat batch_samples 0) ;; ret (Some r)
  end.

Definition generate_frames_batch (tokens tokens_mask pos : nat)
    (temperature : float) (topk : Z) (num_frames : Z)
  : M (option (tensor Z)) :=
  try_except
    (generate_frames_batch_body tokens tokens_mask pos temperature topk num_frames)
    (fun e => print ("Error in generate_frames_batch: " ++ exn_msg e) ;; ret None).


(** * Facts about lists cut into blocks *)

Section Blocks.
Context {A : Type}.
Implicit Types (l : list A) (rows : list (list A)).

Lemma chunks_length size count l : length (chunks size count l) = count.
Proof.
  revert l; induction count as [|c IH]; intros l; simpl; [reflexivity|].
  now rewrite IH.
Qed.

Lemma chunks_cons size count row l :
  length row = size ->
  chunks size (S count) (row ++ l) = row :: chunks size count l.
Proof.
  intros H; simpl.
  rewrite firstn_app, skipn_app, H, Nat.sub_diag; simpl.
  rewrite firstn_all2, skipn_all2, app_nil_r by lia.
  reflexivity.
Qed.

Lemma chunks_concat size rows :
  Forall (fun r => length r = size) rows ->
  chunks size (length rows) (concat rows) = rows.
Proof.
  induction 1 as [|r rows Hr _ IH]; [reflexivity|].
  cbn [length concat]; rewrite chunks_cons by assumption.
  now rewrite IH.
Qed.

Lemma chunks_rows_length size count l :
  length l = count * size ->
  Forall (fun r => length r = size) (chunks size count l).
Proof.
  revert l; induction count as [|c IH]; intros l H; simpl; constructor.
  - rewrite length_firstn; simpl in H; lia.
  - apply IH; rewrite length_skipn; simpl in H; lia.
Qed.

Lemma concat_chunks size count l :
  length l = count * size -> concat (chunks size count l) = l.
Proof.
  revert l; induction count as [|c IH]; intros l H; simpl in *.
  - destruct l; [reflexivity|discriminate].
  - rewrite IH by (rewrite length_skipn; lia).
    apply firstn_skipn.
Qed.

Lemma nth_chunks size count i l :
  i < count ->
  nth i (chunks size count l) [] = firstn size (skipn (i * size) l).
Proof.
  revert i l; induction count as [|c IH]; intros i l H; [lia|].
  destruct i as [|i]; simpl; [reflexivity|].
  rewrite IH by lia.
  now rewrite skipn_skipn, (Nat.add_comm (i * size) size).
Qed.

Lemma chunks_repeat size count (x : A) :
  chunks size count (repeat x (count * size)) = repeat (repeat x size) count.
Proof.
  induction count as [|c IH]; [reflexivity|].
  cbn [Nat.mul]; rewrite repeat_app, chunks_cons by apply repeat_length.
  now rewrite IH.
Qed.

Lemma chunks_one size l : length l = size -> chunks size 1 l = [l].
Proof.
  intros H; simpl; now rewrite firstn_all2 by lia.
Qed.

Lemma length_concat_uniform size rows :
  Forall (fun r => length r = size) rows ->
  length (concat rows) = length rows * size.
Proof.
  induction 1 as [|r rows Hr _ IH]; [reflexivity|].
  cbn [concat length]; rewrite length_app, IH, Hr; reflexivity.
Qed.

Lemma nth_error_block size i j l :
  j < size ->
  nth_error l (i * size + j) = nth_error (firstn size (skipn (i * size) l)) j.
Proof.
  intros H.
  rewrite nth_error_firstn.
  destruct (Nat.ltb_spec j size); [|lia].
  now rewrite nth_error_skipn.
Qed.

End Blocks.

(** * The causal mask *)

Lemma tril_row_ones (i n : nat) :
  Torch.tril_row false i (repeat true n) = map (fun j => j <=? i) (seq 0 n).
Proof.
  unfold Torch.tril_row; rewrite repeat_length.
  generalize 0 as start.
  induction n as [|n IH]; intros start; simpl; [reflexivity|].
  rewrite IH; f_equal.
  now destruct (start <=? i).
Qed.

Lemma map_combine_seq_repeat {A B} (f : nat * A -> B) (x : A) (n start : nat) :
  map f (combine (seq start n) (repeat x n)) = map (fun i => f (i, x)) (seq start n).
Proof.
  revert start; induction n as [|n IH]; intros start; simpl; [reflexivity|].
  now rewrite IH.
Qed.

(** The mask as a table of its entries. *)
Definition causal_rows (n : nat) : list (list bool) :=
  map (fun i => map (fun j => j <=? i) (seq 0 n)) (seq 0 n).

Lemma causal_rows_length n : length (causal_rows n) = n.
Proof. unfold causal_rows; now rewrite length_map, length_seq. Qed.

Lemma causal_rows_width n : Forall (fun r => length r = n) (causal_rows n).
Proof.
  unfold causal_rows; apply Forall_forall; intros r Hr.
  apply in_map_iff in Hr; destruct Hr as (i & <- & _).
  now rewrite length_map, length_seq.
Qed.

Lemma create_causal_mask_rows (n : nat) :
  _create_causal_mask n = Ok (Tensor [n; n] (concat (causal_rows n))).
Proof.
  unfold _create_causal_mask, Torch.tril, Torch.ones; cbn [shape data rev app numel fold_right].
  rewrite Nat.mul_1_r, chunks_one by apply repeat_length.
  cbn [map concat]; rewrite app_nil_r.
  unfold Torch.tril_matrix; rewrite chunks_repeat, map_combine_seq_repeat.
  do 3 f_equal; unfold causal_rows.
  apply map_ext; intros i; cbn [fst snd]; apply tril_row_ones.
Qed.

Lemma count_true_prefix (i n start : nat) :
  count_occ bool_dec (map (fun j => j <=? i) (seq start n)) true
  = Nat.min n (S i - start).
Proof.
  revert start; induction n as [|n IH]; intros start; [reflexivity|].
  cbn [seq map count_occ]; rewrite IH.
  destruct (start <=? i) eqn:E.
  - apply Nat.leb_le in E; destruct (bool_dec true true); [lia|congruence].
  - apply Nat.leb_gt in E; destruct (bool_dec false true); [discriminate|lia].
Qed.

(** C7: for every sequence length the causal-mask builder returns a square
    boolean matrix of that size whose entry (i, j) is true exactly when
    j <= i, so that row i holds exactly i+1 true entries. *)
Theorem create_causal_mask_lower_triangular (seq_len : nat) :
  exists m,
    _create_causal_mask seq_len = Ok m /\
    shape m = [seq_len; seq_len] /\
    wf m /\
    (forall i j, i < seq_len -> j < seq_len ->
       Torch.item [i; j] m = Some (j <=? i)) /\
    (forall i, i < seq_len ->
       count_occ bool_dec (nth i (Torch.rows_of m) []) true = S i).
Proof.
  exists (Tensor [seq_len; seq_len] (concat (causal_rows seq_len))).
  pose proof (causal_rows_width seq_len) as Hw.
  pose proof (causal_rows_length seq_len) as Hl.
  assert (Hrow : forall i, i < seq_len ->
            firstn seq_len (skipn (i * seq_len) (concat (causal_rows seq_len)))
            = map (fun j => j <=? i) (seq 0 seq_len)).
  { intros i Hi.
    rewrite <- (nth_chunks seq_len (count := seq_len)) by assumption.
    rewrite <- Hl at 2; rewrite chunks_concat by assumption.
    unfold causal_rows.
    rewrite (nth_indep _ [] (map (fun j => j <=? 0) (seq 0 seq_len)))
      by (now rewrite length_map, length_seq).
    rewrite (map_nth (fun i => map (fun j => j <=? i) (seq 0 seq_len))).
    now rewrite seq_nth. }
  split; [apply create_causal_mask_rows|].
  split; [reflexivity|].
  split.
  { unfold wf; cbn [data shape numel fold_right].
    rewrite (length_concat_uniform Hw), Hl; lia. }
  split.
  - intros i j Hi Hj.
    unfold Torch.item; cbn [shape data Torch.flat_index numel fold_right].
    destruct (Nat.ltb_spec i seq_len); [|lia].
    destruct (Nat.ltb_spec j seq_len); [|lia].
    cbn [option_map].
    rewrite !Nat.mul_1_r, Nat.add_0_r.
    rewrite nth_error_block, Hrow by assumption.
    rewrite nth_error_map, nth_error_seq.
    destruct (Nat.ltb_spec j seq_len); [reflexivity|lia].
  - intros i Hi.
    unfold Torch.rows_of; cbn [shape data last_dim last removelast numel fold_right].
    rewrite Nat.mul_1_r, nth_chunks, Hrow by assumption.
    rewrite count_true_prefix; lia.
Qed.

(** * Indexing the mask *)

Lemma rmap_ok {A B} (f : A -> Result B) (g : A -> B) (l : list A) :
  (forall x, In x l -> f x = Ok (g x)) -> rmap f l = Ok (map g l).
Proof.
  induction l as [|x l IH]; intros H; [reflexivity|].
  cbn [rmap map]; rewrite (H x) by now left.
  cbn [rbind]; rewrite IH by (intros y Hy; apply H; now right).
  reflexivity.
Qed.

Lemma wrap_index_of_nat (n i : nat) :
  i < n -> wrap_index n (Z.of_nat i) = Some i.
Proof.
  intros H; unfold wrap_index.
  destruct (Z.leb_spec 0 (Z.of_nat i)); [|lia].
  destruct (Z.ltb_spec (Z.of_nat i) (Z.of_nat n)); [|lia].
  cbn [andb]; now rewrite Nat2Z.id.
Qed.

Lemma chunks_as_map {A} (size count : nat) (l : list A) :
  chunks size count l = map (fun k => firstn size (skipn (k * size) l)) (seq 0 count).
Proof.
  revert l; induction count as [|c IH]; intros l; [reflexivity|].
  cbn [chunks seq map]; rewrite IH, <- seq_shift, map_map.
  f_equal; apply map_ext; intros k.
  rewrite skipn_skipn; f_equal; f_equal; simpl; lia.
Qed.

Lemma gather_all_rows {A} (w n : nat) (l : list A) :
  length l = n * w ->
  concat (map (fun k => firstn w (skipn (k * w) l)) (seq 0 n)) = l.
Proof.
  intros H; rewrite <- chunks_as_map; now apply concat_chunks.
Qed.

Lemma concat_map_concat_repeat {A B} (g : A -> list B) (l : list A) (b : nat) :
  concat (map g (concat (repeat l b))) = concat (repeat (concat (map g l)) b).
Proof.
  induction b as [|b IH]; [reflexivity|].
  cbn [repeat concat]; now rewrite map_app, concat_app, IH.
Qed.

(** C8: for every square mask of size seq_len x seq_len, indexing it with
    the in-order position vector [0, ..., seq_len-1] gathers the rows in
    order and returns the mask itself; with the positions repeated for b
    batch rows, every batch row of the result is the mask. *)
Theorem index_causal_mask_round_trip (mask : tensor bool) (seq_len : nat) :
  shape mask = [seq_len; seq_len] ->
  wf mask ->
  _index_causal_mask mask (Torch.arange seq_len) = Ok mask /\
  (forall b,
     _index_causal_mask mask
       (Tensor [b; seq_len] (concat (repeat (data (Torch.arange seq_len)) b)))
     = Ok (Tensor [b; seq_len; seq_len] (concat (repeat (data mask) b)))).
Proof.
  destruct mask as [s d]; cbn [shape]; intros -> Hwf.
  unfold wf in Hwf; cbn [shape data numel fold_right] in Hwf.
  set (g := fun p : Z => firstn (seq_len * 1) (skipn (Z.to_nat p * (seq_len * 1)) d)).
  assert (Hg : forall l, (forall p, In p l -> exists k, k < seq_len /\ p = Z.of_nat k) ->
            rmap (fun p => match wrap_index seq_len p with
                           | Some k => Ok (firstn (seq_len * 1) (skipn (k * (seq_len * 1)) d))
                           | None => Raise (Exn IndexError "index out of range")
                           end) l = Ok (map g l)).
  { intros l Hl; apply rmap_ok; intros p Hp.
    destruct (Hl p Hp) as (k & Hk & ->).
    rewrite wrap_index_of_nat by assumption.
    unfold g; now rewrite Nat2Z.id. }
  assert (Hin : forall p, In p (map Z.of_nat (seq 0 seq_len)) ->
            exists k, k < seq_len /\ p = Z.of_nat k).
  { intros p Hp; apply in_map_iff in Hp; destruct Hp as (k & <- & Hk).
    apply in_seq in Hk; exists k; split; [lia|reflexivity]. }
  assert (Hall : concat (map g (map Z.of_nat (seq 0 seq_len))) = d).
  { rewrite map_map.
    rewrite (map_ext _ (fun k => firstn (seq_len * 1) (skipn (k * (seq_len * 1)) d)))
      by (intros k; unfold g; now rewrite Nat2Z.id).
    apply gather_all_rows; lia. }
  split.
  - unfold _index_causal_mask, Torch.index_rows, Torch.arange; cbn [shape data numel fold_right].
    rewrite Hg by assumption; cbn [rbind app].
    now rewrite Hall.
  - intros b.
    unfold _index_causal_mask, Torch.index_rows, Torch.arange; cbn [shape data numel fold_right].
    rewrite Hg.
    + cbn [rbind app]; now rewrite concat_map_concat_repeat, Hall.
    + intros p Hp; apply in_concat in Hp; destruct Hp as (l & Hl & Hp).
      apply repeat_spec in Hl; subst l; now apply Hin.
Qed.

Lemma index_causal_mask_round_trip_witness :
  _index_causal_mask (Tensor [2; 2] [true; false; true; true]) (Torch.arange 2)
  = Ok (Tensor [2; 2] [true; false; true; true]) /\
  (forall b,
     _index_causal_mask (Tensor [2; 2] [true; false; true; true])
       (Tensor [b; 2] (concat (repeat (data (Torch.arange 2)) b)))
     = Ok (Tensor [b; 2; 2] (concat (repeat [true; false; true; true] b)))).
Proof.
  apply (@index_causal_mask_round_trip (Tensor [2; 2] [true; false; true; true]) 2);
    reflexivity.
Defined.

(** * Reasoning about computations *)

Lemma bind_ok {A B} (m : M A) (k : A -> M B) (w w' : world) (a : A) :
  m w = (Ok a, w') -> bind m k w = k a w'.
Proof. unfold bind; now intros ->. Qed.

Lemma bind_raise {A B} (m : M A) (k : A -> M B) (w w' : world) (e : exn) :
  m w = (Raise e, w') -> bind m k w = (Raise e, w').
Proof. unfold bind; now intros ->. Qed.

Lemma bind_lift_ok {A B} (r : Result A) (k : A -> M B) (w : world) (a : A) :
  r = Ok a -> bind (lift r) k w = k a w.
Proof. intros ->; reflexivity. Qed.

Lemma bind_lift_raise {A B} (r : Result A) (k : A -> M B) (w : world) (e : exn) :
  r = Raise e -> bind (lift r) k w = (Raise e, w).
Proof. intros ->; reflexivity. Qed.

Lemma size3_rank {A} (t : tensor A) :
  rank t = 3 -> exists b s c, Torch.size3 t = Ok (b, s, c).
Proof.
  unfold rank, Torch.size3; destruct (shape t) as [|b [|s [|c [|]]]]; try discriminate.
  intros _; now exists b, s, c.
Qed.

Lemma size3_not_rank {A} (t : tensor A) :
  rank t <> 3 -> Torch.size3 t = Raise (Exn ValueError "wrong number of values to unpack").
Proof.
  unfold rank, Torch.size3; destruct (shape t) as [|b [|s [|c [|]]]]; try reflexivity.
  intros H; now elim H.
Qed.

(** * The cache precondition *)

Definition caches_not_enabled : exn :=
  Exn AssertionError "backbone caches are not enabled".

Lemma assert_caches_enabled_spec (w : world) :
  assert_caches_enabled w =
    (if caches_enabled (backbone w) then Ok tt else Raise caches_not_enabled, w).
Proof.
  unfold assert_caches_enabled, bind, backbone_caches_are_enabled, py_assert.
  now destruct (caches_enabled (backbone w)).
Qed.

Lemma setup_caches_enables (max_batch_size : nat) (w : world) :
  fst (setup_caches max_batch_size w) = Ok tt /\
  caches_enabled (backbone (snd (setup_caches max_batch_size w))) = true.
Proof.
  unfold setup_caches, bind, backbone_setup_caches, decoder_setup_caches, lift.
  rewrite !create_causal_mask_rows; cbn; split; reflexivity.
Qed.

(** C4: while the backbone caches have not been set up, [forward] and
    [generate_frame] (on a token tensor of the documented three dimensions)
    fail at once with the assertion error "backbone caches are not enabled",
    and on any input [generate_frame] fails leaving the state as it was, no
    sample drawn; once [setup_caches] has run, the assertion passes. *)
Theorem caches_not_enabled_is_a_precondition_error
    (tokens : tensor Z) (tokens_mask : tensor bool) (input_pos : tensor Z)
    (temperature : float) (topk : Z) (w : world) :
  caches_enabled (backbone w) = false ->
  forward tokens tokens_mask input_pos w = (Raise caches_not_enabled, w) /\
  (rank tokens = 3 ->
   generate_frame tokens tokens_mask input_pos temperature topk w
   = (Raise caches_not_enabled, w)) /\
  (exists e,
     generate_frame tokens tokens_mask input_pos temperature topk w = (Raise e, w)) /\
  (forall max_batch_size w0,
     let ready := snd (setup_caches max_batch_size w0) in
     fst (setup_caches max_batch_size w0) = Ok tt /\
     assert_caches_enabled ready = (Ok tt, ready)).
Proof.
  intros Hoff.
  assert (Hfwd : forward tokens tokens_mask input_pos w = (Raise caches_not_enabled, w)).
  { unfold forward; apply bind_raise.
    now rewrite assert_caches_enabled_spec, Hoff. }
  assert (Hgen : rank tokens = 3 ->
            generate_frame tokens tokens_mask input_pos temperature topk w
            = (Raise caches_not_enabled, w)).
  { intros Hr; destruct (size3_rank tokens Hr) as (b & s & c & Hs).
    unfold generate_frame; rewrite (@bind_lift_ok _ _ _ _ _ _ Hs).
    apply bind_raise.
    now rewrite assert_caches_enabled_spec, Hoff. }
  split; [exact Hfwd|]; split; [exact Hgen|]; split.
  - destruct (Nat.eq_dec (rank tokens) 3) as [Hr|Hr].
    + eexists; now apply Hgen.
    + eexists; unfold generate_frame.
      apply bind_lift_raise, size3_not_rank, Hr.
  - intros max_batch_size w0 ready; split.
    + apply setup_caches_enables.
    + rewrite assert_caches_enabled_spec; subst ready.
      now rewrite (proj2 (setup_caches_enables max_batch_size w0)).
Qed.

(** * The decoder cache is scoped to one frame *)

(** The same state with another decoder key/value cache. *)
Definition set_decoder_cache (c : Cache) (w : world) : world :=
  set_decoder {| caches_enabled := caches_enabled (decoder w); cache := c |} w.

(** A computation that neither reads nor writes the decoder cache. *)
Definition blind {A} (m : M A) : Prop :=
  forall c w, m (set_decoder_cache c w) = (fst (m w), set_decoder_cache c (snd (m w))).

(** A computation whose outcome does not depend on the decoder cache it
    starts from, unless it raises before reaching that cache. *)
Definition forgets {A} (m : M A) : Prop :=
  forall c w,
    m (set_decoder_cache c w) = m w \/
    exists e, m w = (Raise e, snd (m w)) /\
              m (set_decoder_cache c w) = (Raise e, set_decoder_cache c (snd (m w))).

Lemma blind_ret {A} (a : A) : blind (ret a).
Proof. intros c w; reflexivity. Qed.

Lemma blind_raise {A} (e : exn) : blind (@raise A e).
Proof. intros c w; reflexivity. Qed.

Lemma blind_lift {A} (r : Result A) : blind (lift r).
Proof. intros c w; reflexivity. Qed.

Lemma blind_bind {A B} (m : M A) (k : A -> M B) :
  blind m -> (forall a, blind (k a)) -> blind (bind m k).
Proof.
  intros Hm Hk c w; unfold bind; rewrite Hm.
  destruct (m w) as [[a|e] w1]; cbn [fst snd]; [apply Hk|reflexivity].
Qed.

Lemma blind_assert_caches_enabled : blind assert_caches_enabled.
Proof. intros c w; rewrite !assert_caches_enabled_spec; reflexivity. Qed.

Lemma blind_get_backbone_causal_mask : blind get_backbone_causal_mask.
Proof.
  intros c w; unfold get_backbone_causal_mask; cbn.
  destruct (backbone_causal_mask w); reflexivity.
Qed.

Lemma blind_backbone_call h pos mask : blind (backbone_call h pos mask).
Proof.
  intros c w; unfold backbone_call; cbn.
  destruct (backbone_forward _ _ _ _); reflexivity.
Qed.

Lemma blind_exponential_like t : blind (exponential_like t).
Proof. intros c w; reflexivity. Qed.

Create HintDb blind.
Create HintDb quiet.
Create HintDb anyev.

#[local] Hint Resolve blind_ret blind_raise blind_lift blind_assert_caches_enabled
  blind_get_backbone_causal_mask blind_backbone_call blind_exponential_like : blind.

Ltac blind_tac :=
  repeat first
    [ progress auto with blind
    | apply blind_bind; [|intros ?]
    | progress cbv zeta ].

Lemma blind_sample_topk logits topk temperature :
  blind (sample_topk logits topk temperature).
Proof. unfold sample_topk, _multinomial_sample_one_no_sync; blind_tac. Qed.

#[local] Hint Resolve blind_sample_topk : blind.

Lemma forgets_bind_blind {A B} (m : M A) (k : A -> M B) :
  blind m -> (forall a, forgets (k a)) -> forgets (bind m k).
Proof.
  intros Hm Hk c w; pose proof (Hm c w) as E.
  destruct (m w) as [[a|e] w1] eqn:Ew; cbn [fst snd] in E.
  - rewrite (@bind_ok _ _ _ k _ _ _ Ew), (@bind_ok _ _ _ k _ _ _ E); apply Hk.
  - rewrite (@bind_raise _ _ _ k _ _ _ Ew), (@bind_raise _ _ _ k _ _ _ E).
    right; exists e; split; reflexivity.
Qed.

Lemma forgets_after_reset {B} (k : unit -> M B) :
  forgets (bind decoder_reset_caches k).
Proof. intros c w; left; reflexivity. Qed.

Lemma forgets_generate_frame tokens tokens_mask input_pos temperature topk :
  forgets (generate_frame tokens tokens_mask input_pos temperature topk).
Proof.
  unfold generate_frame.
  repeat first
    [ apply forgets_after_reset
    | apply forgets_bind_blind; [solve [blind_tac]|intros ?]
    | progress cbv zeta ].
Qed.

(** Every state change appends to the trace. *)
Definition logs {A} (ok : list event -> Prop) (m : M A) : Prop :=
  forall w, exists evs, trace (snd (m w)) = trace w ++ evs /\ ok evs.

Definition no_decoder_forward (evs : list event) : Prop := ~ In DecoderForward evs.

(** The decoder stack is not stepped before its cache has been reset. *)
Definition reset_first (evs : list event) : Prop :=
  exists before after,
    evs = before ++ after /\
    no_decoder_forward before /\
    (after = [] \/ exists rest, after = DecoderReset :: rest).

Lemma logs_weaken {A} (P Q : list event -> Prop) (m : M A) :
  (forall evs, P evs -> Q evs) -> logs P m -> logs Q m.
Proof.
  intros H Hm w; destruct (Hm w) as (evs & E & HP); exists evs; auto.
Qed.

Lemma logs_silent {A} (P : list event -> Prop) (m : M A) :
  P [] -> (forall w, trace (snd (m w)) = trace w) -> logs P m.
Proof.
  intros HP H w; exists []; rewrite app_nil_r; auto.
Qed.

Lemma logs_bind {A B} (P Q R : list event -> Prop) (m : M A) (k : A -> M B) :
  (forall e1 e2, P e1 -> Q e2 -> R (e1 ++ e2)) ->
  (forall e1, P e1 -> R e1) ->
  logs P m -> (forall a, logs Q (k a)) -> logs R (bind m k).
Proof.
  intros HPQ HP Hm Hk w; unfold bind.
  destruct (Hm w) as (e1 & E1 & H1).
  destruct (m w) as [[a|e] w1]; cbn [snd] in *.
  - destruct (Hk a w1) as (e2 & E2 & H2).
    exists (e1 ++ e2); rewrite E2, E1, app_assoc; auto.
  - exists e1; auto.
Qed.

Lemma no_decoder_forward_app e1 e2 :
  no_decoder_forward e1 -> no_decoder_forward e2 -> no_decoder_forward (e1 ++ e2).
Proof.
  unfold no_decoder_forward; intros H1 H2 H; apply in_app_or in H.
  destruct H; [now apply H1|now apply H2].
Qed.

Lemma quiet_bind {A B} (m : M A) (k : A -> M B) :
  logs no_decoder_forward m -> (forall a, logs no_decoder_forward (k a)) ->
  logs no_decoder_forward (bind m k).
Proof.
  apply logs_bind; auto using no_decoder_forward_app.
Qed.

Lemma quiet_silent {A} (m : M A) :
  (forall w, trace (snd (m w)) = trace w) -> logs no_decoder_forward m.
Proof. apply logs_silent; intros []. Qed.

Lemma quiet_lift {A} (r : Result A) : logs no_decoder_forward (lift r).
Proof. now apply quiet_silent. Qed.

Lemma quiet_ret {A} (a : A) : logs no_decoder_forward (ret a).
Proof. now apply quiet_silent. Qed.

Lemma quiet_assert_caches_enabled : logs no_decoder_forward assert_caches_enabled.
Proof. apply quiet_silent; intros w; now rewrite assert_caches_enabled_spec. Qed.

Lemma quiet_get_backbone_causal_mask : logs no_decoder_forward get_backbone_causal_mask.
Proof.
  apply quiet_silent; intros w; unfold get_backbone_causal_mask.
  now destruct (backbone_causal_mask w).
Qed.

Lemma quiet_backbone_call h pos mask : logs no_decoder_forward (backbone_call h pos mask).
Proof.
  intros w; exists [BackboneForward]; unfold backbone_call.
  destruct (backbone_forward _ _ _ _); cbn; split; [reflexivity|].
  intros [H|[]]; discriminate.
Qed.

Lemma quiet_exponential_like t : logs no_decoder_forward (exponential_like t).
Proof. now apply quiet_silent. Qed.

#[local] Hint Resolve quiet_lift quiet_ret quiet_assert_caches_enabled
  quiet_get_backbone_causal_mask quiet_backbone_call quiet_exponential_like : quiet.

Ltac quiet_tac :=
  repeat first
    [ progress auto with quiet
    | apply quiet_bind; [|intros ?]
    | progress cbv zeta ].

Lemma quiet_sample_topk logits topk temperature :
  logs no_decoder_forward (sample_topk logits topk temperature).
Proof. unfold sample_topk, _multinomial_sample_one_no_sync; quiet_tac. Qed.

#[local] Hint Resolve quiet_sample_topk : quiet.

Definition any_events (evs : list event) : Prop := True.

Lemma any_bind {A B} (m : M A) (k : A -> M B) :
  logs any_events m -> (forall a, logs any_events (k a)) -> logs any_events (bind m k).
Proof. apply logs_bind; unfold any_events; auto. Qed.

Lemma any_of_quiet {A} (m : M A) : logs no_decoder_forward m -> logs any_events m.
Proof. apply logs_weaken; unfold any_events; auto. Qed.

Lemma any_get_decoder_causal_mask : logs any_events get_decoder_causal_mask.
Proof.
  apply logs_silent; [exact I|]; intros w; unfold get_decoder_causal_mask.
  now destruct (decoder_causal_mask w).
Qed.

Lemma any_decoder_call h pos mask : logs any_events (decoder_call h pos mask).
Proof.
  intros w; exists [DecoderForward]; unfold decoder_call.
  destruct (decoder_forward _ _ _ _); cbn; split; [reflexivity|exact I].
Qed.

#[local] Hint Resolve any_get_decoder_causal_mask any_decoder_call : anyev.

Ltac any_tac :=
  repeat first
    [ progress auto with anyev
    | solve [apply any_of_quiet; auto with quiet]
    | apply any_bind; [|intros ?]
    | progress cbv zeta ].

Lemma any_decoder_step topk temperature i st :
  logs any_events (decoder_step topk temperature i st).
Proof.
  destruct st as [[curr_h curr_sample] curr_pos]; unfold decoder_step; any_tac.
Qed.

Lemma any_for_each {X S} (xs : list X) (body : X -> S -> M S) (s : S) :
  (forall x s, logs any_events (body x s)) -> logs any_events (for_each xs body s).
Proof.
  intros Hb; revert s; induction xs as [|x xs IH]; intros s; cbn [for_each].
  - apply any_of_quiet, quiet_ret.
  - apply any_bind; [apply Hb|apply IH].
Qed.

Lemma reset_first_bind {A B} (m : M A) (k : A -> M B) :
  logs no_decoder_forward m -> (forall a, logs reset_first (k a)) ->
  logs reset_first (bind m k).
Proof.
  apply logs_bind.
  - intros e1 e2 H1 (before & after & -> & Hb & Ha).
    exists (e1 ++ before), after; rewrite app_assoc.
    auto using no_decoder_forward_app.
  - intros e1 H1; exists e1, []; rewrite app_nil_r; auto.
Qed.

Lemma reset_first_after_reset {B} (k : unit -> M B) :
  (forall a, logs any_events (k a)) -> logs reset_first (bind decoder_reset_caches k).
Proof.
  intros Hk w; unfold bind, decoder_reset_caches.
  destruct (Hk tt (emit DecoderReset
              (set_decoder {| caches_enabled := caches_enabled (decoder w);
                              cache := empty_cache |} w))) as (evs & E & _).
  exists (DecoderReset :: evs); split.
  - rewrite E; cbn; now rewrite <- app_assoc.
  - exists [], (DecoderReset :: evs); repeat split; eauto.
    intros [].
Qed.

Lemma reset_first_generate_frame tokens tokens_mask input_pos temperature topk :
  logs reset_first (generate_frame tokens tokens_mask input_pos temperature topk).
Proof.
  unfold generate_frame.
  repeat first
    [ apply reset_first_after_reset; intros _;
      apply any_bind; [apply any_for_each; apply any_decoder_step|intros ?; any_tac]
    | apply reset_first_bind; [solve [quiet_tac]|intros ?]
    | progress cbv zeta ].
Qed.

(** C1: in every call of [generate_frame] the decoder cache is reset before
    the decoder stack is stepped: in the trace of the call nothing steps
    the decoder before [DecoderReset]; hence the frame that is returned,
    and the state it leaves, do not depend on the decoder key/value cache
    the call started from, which is what earlier frames left there. *)
Theorem decoder_cache_is_reset_every_frame
    (tokens : tensor Z) (tokens_mask : tensor bool) (input_pos : tensor Z)
    (temperature : float) (topk : Z) (w : world) (stale : Cache) :
  let run := generate_frame tokens tokens_mask input_pos temperature topk in
  (exists evs, trace (snd (run w)) = trace w ++ evs /\ reset_first evs) /\
  fst (run (set_decoder_cache stale w)) = fst (run w) /\
  (forall frame w', run w = (Ok frame, w') ->
     run (set_decoder_cache stale w) = (Ok frame, w')).
Proof.
  cbv zeta; split; [apply reset_first_generate_frame|].
  destruct (forgets_generate_frame tokens tokens_mask input_pos temperature topk stale w)
    as [E|(e & E1 & E2)].
  - rewrite E; split; [reflexivity|auto].
  - rewrite E2, E1; split; [reflexivity|].
    intros frame w' H; rewrite E1 in H; discriminate.
Qed.

(** * A frame of a single codebook *)

Lemma bind_inv_ok {A B} (m : M A) (k : A -> M B) (w w' : world) (b : B) :
  bind m k w = (Ok b, w') ->
  exists a w1, m w = (Ok a, w1) /\ k a w1 = (Ok b, w').
Proof.
  unfold bind; destruct (m w) as [[a|e] w1]; [|discriminate].
  intros H; now exists a, w1.
Qed.

Lemma lift_inv {A} (r x : Result A) (w w' : world) :
  lift r w = (x, w') -> r = x /\ w' = w.
Proof. unfold lift; intros [= -> ->]; split; reflexivity. Qed.

Lemma ret_inv {A} (a : A) (x : Result A) (w w' : world) :
  ret a w = (x, w') -> x = Ok a /\ w' = w.
Proof. unfold ret; intros [= <- <-]; split; reflexivity. Qed.

Ltac inv_bind H :=
  let a := fresh "x" in
  let w1 := fresh "w" in
  let E := fresh "E" in
  apply bind_inv_ok in H; destruct H as (a & w1 & E & H);
  try (apply lift_inv in E; destruct E as [E ->]).

Lemma rbind_inv_ok {A B} (r : Result A) (k : A -> Result B) (b : B) :
  rbind r k = Ok b -> exists a, r = Ok a /\ k a = Ok b.
Proof. destruct r as [a|e]; [|discriminate]; intros H; now exists a. Qed.

Ltac inv_rbind H :=
  let a := fresh "y" in
  let E := fresh "E" in
  apply rbind_inv_ok in H; destruct H as (a & E & H).

Lemma shape_eqb_eq (s1 s2 : list nat) : shape_eqb s1 s2 = true <-> s1 = s2.
Proof.
  revert s2; induction s1 as [|a s1 IH]; intros [|b s2]; cbn [shape_eqb];
    try (split; [discriminate|discriminate]); [split; reflexivity|].
  rewrite andb_true_iff, Nat.eqb_eq, IH.
  split; [intros [-> ->]; reflexivity|intros [= -> ->]; auto].
Qed.

Lemma broadcast_rev_same (s : list nat) : broadcast_rev s s = Some s.
Proof.
  induction s as [|a s IH]; [reflexivity|].
  cbn [broadcast_rev]; now rewrite IH, Nat.eqb_refl.
Qed.

Lemma broadcast_shapes_same (s : list nat) : broadcast_shapes s s = Some s.
Proof.
  unfold broadcast_shapes; rewrite broadcast_rev_same; cbn [option_map].
  now rewrite rev_involutive.
Qed.

Lemma broadcast2_shape {A B C} (f : A -> B -> C) (x : tensor A) (y : tensor B) (r : tensor C) :
  Torch.broadcast2 f x y = Ok r -> broadcast_shapes (shape x) (shape y) = Some (shape r).
Proof.
  unfold Torch.broadcast2; destruct (broadcast_shapes _ _); [|discriminate].
  now intros [= <-].
Qed.

Lemma argmax_shape (t : tensor float) (r : tensor Z) :
  Torch.argmax t = Ok r -> shape t <> [] -> shape r = removelast (shape t) ++ [1].
Proof.
  unfold Torch.argmax; destruct (last_dim (shape t) =? 0); [discriminate|].
  intros [= <-] Hs; cbn [shape]; destruct (shape t); [now elim Hs|reflexivity].
Qed.

(** What [sample_topk] leaves behind: a column of indices, drawn with one
    noise value per logit, and nothing else changed. *)
Lemma sample_topk_ok logits topk temperature (w w' : world) (sample : tensor Z) :
  sample_topk logits topk temperature w = (Ok sample, w') ->
  shape sample = removelast (shape logits) ++ [1] /\
  w' = set_rng (rng w') w.
Proof.
  unfold sample_topk, _multinomial_sample_one_no_sync; cbv zeta; intros H.
  repeat inv_bind H.
  apply lift_inv in H; destruct H as [H ->].
  injection E4 as <-.
  cbn [shape data] in *.
  unfold Torch.masked_fill in E3; inv_rbind E3.
  destruct (shape_eqb (shape y) _) eqn:Hs; [|discriminate].
  injection E3 as ->; apply shape_eqb_eq in Hs; cbn [shape] in Hs.
  apply broadcast2_shape in E5; cbn [shape] in E5.
  unfold Torch.softmax, Torch.log_softmax, Torch.rowwise in E5; cbn [shape] in E5.
  rewrite Hs, broadcast_shapes_same in E5; injection E5 as E5.
  assert (Hne : shape logits <> []).
  { intros Hnil.
    unfold Torch.topk_values, Torch.tmap in E; cbn [shape] in E; rewrite Hnil in E.
    destruct (_ && _)%bool; [|discriminate]; injection E as <-.
    discriminate E0. }
  split.
  - apply argmax_shape in H; rewrite <- E5 in *; auto.
  - reflexivity.
Qed.

Lemma backbone_call_trace h pos mask (w w' : world) (r : Result (tensor float)) :
  backbone_call h pos mask w = (r, w') -> trace w' = trace w ++ [BackboneForward].
Proof.
  unfold backbone_call; destruct (backbone_forward _ _ _ _); intros [= _ <-]; reflexivity.
Qed.

Lemma assert_caches_enabled_ok (w w' : world) (u : unit) :
  assert_caches_enabled w = (Ok u, w') -> w' = w.
Proof.
  rewrite assert_caches_enabled_spec; now intros [= _ <-].
Qed.

Lemma get_backbone_causal_mask_ok (w w' : world) (m : tensor bool) :
  get_backbone_causal_mask w = (Ok m, w') -> w' = w.
Proof.
  unfold get_backbone_causal_mask; destruct (backbone_causal_mask w); cbn; now intros [= _ <-].
Qed.

(** C5: with [audio_num_codebooks = 1], every frame that [generate_frame]
    returns is exactly the sample drawn by [sample_topk] from the
    codebook-0 head's logits (the logits [forward] computes), one column
    per row of logits, and the only stack calls of the frame are the
    backbone step and the decoder cache reset: the decoder stack is never
    stepped. *)
Theorem single_codebook_frame_is_codebook0_sample
    (tokens : tensor Z) (tokens_mask : tensor bool) (input_pos : tensor Z)
    (temperature : float) (topk : Z) (w w' : world) (frame : tensor Z) :
  audio_num_codebooks (args self) = 1 ->
  generate_frame tokens tokens_mask input_pos temperature topk w = (Ok frame, w') ->
  exists c0_logits w0 w1,
    forward tokens tokens_mask input_pos w = (Ok c0_logits, w0) /\
    sample_topk c0_logits topk temperature w0 = (Ok frame, w1) /\
    shape frame = removelast (shape c0_logits) ++ [1] /\
    trace w' = trace w ++ [BackboneForward; DecoderReset].
Proof.
  intros Hc H; unfold generate_frame in H; rewrite Hc in H.
  cbn [Nat.sub seq for_each] in H; cbv zeta in H.
  repeat inv_bind H.
  apply ret_inv in H; destruct H as [[= ->] ->].
  injection E17 as <-; cbn [fst snd Torch.clone] in *.
  pose proof (@assert_caches_enabled_ok _ _ _ E0) as ->.
  pose proof (@get_backbone_causal_mask_ok _ _ _ E1) as ->.
  exists x7, w2, w3; split; [|split; [|split]].
  - unfold forward.
    rewrite (@bind_ok _ _ _ _ _ _ _ E0), (@bind_ok _ _ _ _ _ _ _ E1).
    rewrite (@bind_lift_ok _ _ _ _ _ _ E2), (@bind_lift_ok _ _ _ _ _ _ E3).
    rewrite (@bind_lift_ok _ _ _ _ _ _ E4), (@bind_ok _ _ _ _ _ _ _ E5).
    rewrite (@bind_lift_ok _ _ _ _ _ _ E6).
    unfold lift; now rewrite E7.
  - exact E8.
  - apply (@sample_topk_ok _ _ _ _ _ _ E8).
  - destruct (@sample_topk_ok _ _ _ _ _ _ E8) as [_ ->].
    apply backbone_call_trace in E5; cbn [trace emit set_decoder set_rng].
    rewrite E5, <- app_assoc; reflexivity.
Qed.

(** * The batch driver: what the loop can and cannot do *)

Lemma select_too_many_indices {A} (d : nat) (i : Z) (t : tensor A) :
  rank t <= d -> Torch.select d i t = Raise (too_many_indices (rank t)).
Proof.
  intros H; unfold Torch.select.
  destruct (Nat.ltb_spec d (rank t)); [lia|reflexivity].
Qed.

Lemma embed_tokens_needs_three_dims (tokens : tensor Z) :
  rank tokens < 3 ->
  _embed_tokens tokens = Raise (too_many_indices (rank tokens)).
Proof.
  intros H; unfold _embed_tokens.
  rewrite select_too_many_indices by lia; reflexivity.
Qed.

(** A computation that raises whatever the state. *)
Definition fails {A} (m : M A) : Prop :=
  forall w, exists e w', m w = (Raise e, w').

Lemma fails_bind_left {A B} (m : M A) (k : A -> M B) : fails m -> fails (bind m k).
Proof.
  intros H w; destruct (H w) as (e & w' & E); exists e, w'.
  now apply bind_raise.
Qed.

Lemma fails_bind_right {A B} (m : M A) (k : A -> M B) :
  (forall a, fails (k a)) -> fails (bind m k).
Proof.
  intros H w; unfold bind; destruct (m w) as [[a|e] w1]; [apply H|].
  now exists e, w1.
Qed.

Lemma fails_lift {A} (e : exn) : fails (lift (@Raise A e)).
Proof. intros w; now exists e, w. Qed.

Lemma forward_needs_three_dims tokens tokens_mask input_pos :
  rank tokens < 3 -> fails (forward tokens tokens_mask input_pos).
Proof.
  intros H; unfold forward.
  do 3 (apply fails_bind_right; intros ?).
  apply fails_bind_left.
  rewrite embed_tokens_needs_three_dims by assumption.
  apply fails_lift.
Qed.

Lemma length_splice {A} (d : nat) (x : A) (s : list A) :
  d < length s -> length (firstn d s ++ x :: skipn (S d) s) = length s.
Proof.
  intros H; rewrite length_app, length_firstn.
  change (length (x :: skipn (S d) s)) with (S (length (skipn (S d) s))).
  rewrite length_skipn; lia.
Qed.

Lemma wrap_index_lt (n : nat) (i : Z) (d : nat) : wrap_index n i = Some d -> d < n.
Proof.
  unfold wrap_index.
  destruct (Z.leb_spec 0 i), (Z.ltb_spec i (Z.of_nat n)),
    (Z.leb_spec (- Z.of_nat n) i), (Z.ltb_spec i 0);
    cbn [andb]; try discriminate; intros [= <-]; lia.
Qed.

Lemma cat_pair_rank {A} (x y r : tensor A) (dim : Z) :
  Torch.cat [x; y] dim = Ok r -> shape y <> [0] -> rank r = rank y.
Proof.
  intros H Hy; unfold Torch.cat in H; cbn [filter] in H.
  assert (Ey : shape_eqb (shape y) [0] = false).
  { destruct (shape_eqb (shape y) [0]) eqn:E; [|reflexivity].
    apply shape_eqb_eq in E; contradiction. }
  rewrite Ey in H; cbn [negb] in H.
  destruct (shape_eqb (shape x) [0]); cbn [negb] in H.
  - destruct (wrap_index (rank y) dim) as [d|] eqn:Ed.
    + apply wrap_index_lt in Ed; unfold rank in Ed.
      assert (Hr : exists n, shape r = firstn d (shape y) ++ n :: skipn (S d) (shape y))
        by (eexists; now injection H as <-).
      destruct Hr as (n & Hr); unfold rank; rewrite Hr.
      now apply length_splice.
    + destruct (rank y =? 0); discriminate.
  - destruct (wrap_index (rank x) dim) as [d|] eqn:Ed.
    + cbn [forallb] in H.
      destruct (Torch.cat_compatible d (shape x) (shape y)) eqn:Ec; [|discriminate].
      apply wrap_index_lt in Ed; unfold rank in Ed.
      assert (Hr : exists n, shape r = firstn d (shape x) ++ n :: skipn (S d) (shape x))
        by (eexists; now injection H as <-).
      destruct Hr as (n & Hr); unfold rank; rewrite Hr.
      unfold Torch.cat_compatible in Ec.
      apply andb_true_iff in Ec; destruct Ec as [Ec _].
      apply andb_true_iff in Ec; destruct Ec as [Ec _].
      apply Nat.eqb_eq in Ec.
      rewrite length_splice; lia.
    + destruct (rank x =? 0); discriminate.
Qed.

(** ** Objects that exist before a call are left as they are *)

(** The first [n] objects are the same in [w'] as in [w]. *)
Definition untouched (n : nat) (w w' : world) : Prop :=
  n <= length (heap w') /\ firstn n (heap w') = firstn n (heap w).

(** [m] leaves the first [n] objects alone and returns a value in [Q]. *)
Definition keeps {A} (n : nat) (Q : A -> Prop) (m : M A) : Prop :=
  forall w, n <= length (heap w) ->
    untouched n w (snd (m w)) /\ (forall a, fst (m w) = Ok a -> Q a).

(** [m] does not change the heap at all. *)
Definition heap_stable {A} (m : M A) : Prop :=
  forall w, heap (snd (m w)) = heap w.

Definition anything {A} (a : A) : Prop := True.

Lemma untouched_refl n w : n <= length (heap w) -> untouched n w w.
Proof. intros H; split; [exact H|reflexivity]. Qed.

Lemma untouched_trans n w1 w2 w3 :
  untouched n w1 w2 -> untouched n w2 w3 -> untouched n w1 w3.
Proof. intros [H1 E1] [H2 E2]; split; [exact H2|now rewrite E2]. Qed.

Lemma keeps_bind {A B} n (Q : A -> Prop) (R : B -> Prop) (m : M A) (k : A -> M B) :
  keeps n Q m -> (forall a, Q a -> keeps n R (k a)) -> keeps n R (bind m k).
Proof.
  intros Hm Hk w Hw; destruct (Hm w Hw) as [Hu Hq]; unfold bind.
  destruct (m w) as [[a|e] w1]; cbn [fst snd] in *.
  - destruct (Hk a (Hq a eq_refl) w1 (proj1 Hu)) as [Hu' Hr].
    split; [eapply untouched_trans; eassumption|exact Hr].
  - split; [exact Hu|discriminate].
Qed.

Lemma keeps_weaken {A} n (Q R : A -> Prop) (m : M A) :
  (forall a, Q a -> R a) -> keeps n Q m -> keeps n R m.
Proof.
  intros H Hm w Hw; destruct (Hm w Hw) as [Hu Hq]; split; auto.
Qed.

Lemma keeps_stable {A} n (m : M A) : heap_stable m -> keeps n anything m.
Proof.
  intros H w Hw; split; [|intros; exact I].
  split; rewrite H; [exact Hw|reflexivity].
Qed.

Lemma keeps_ret {A} n (Q : A -> Prop) (a : A) : Q a -> keeps n Q (ret a).
Proof.
  intros H w Hw; split; [now apply untouched_refl|].
  cbn; now intros ? [= <-].
Qed.

Lemma keeps_new_tensor n (o : tobj) : keeps n (fun l => n <= l) (new_tensor o).
Proof.
  intros w Hw; unfold new_tensor, untouched; cbn; split.
  - split.
    + rewrite length_app; lia.
    + rewrite firstn_app; replace (n - length (heap w)) with 0 by lia.
      cbn [firstn]; apply app_nil_r.
  - now intros ? [= <-].
Qed.

Lemma replace_nth_length {X} (l : nat) (x : X) (h : list X) :
  length (replace_nth l x h) = length h.
Proof.
  revert l; induction h as [|y h IH]; intros [|l]; cbn; auto.
Qed.

Lemma firstn_replace_nth {X} (n l : nat) (x : X) (h : list X) :
  n <= l -> firstn n (replace_nth l x h) = firstn n h.
Proof.
  revert n l; induction h as [|y h IH]; intros [|n] [|l] H; cbn; auto; try lia.
  f_equal; apply IH; lia.
Qed.

Lemma keeps_write_float n (l : nat) (t : tensor float) :
  n <= l -> keeps n anything (write_float l t).
Proof.
  intros Hl w Hw; unfold write_float, untouched; cbn; split; [|intros; exact I].
  split; [now rewrite replace_nth_length|now apply firstn_replace_nth].
Qed.

Lemma stable_bind {A B} (m : M A) (k : A -> M B) :
  heap_stable m -> (forall a, heap_stable (k a)) -> heap_stable (bind m k).
Proof.
  intros Hm Hk w; unfold bind; specialize (Hm w).
  destruct (m w) as [[a|e] w1]; cbn [snd] in *; [now rewrite Hk|exact Hm].
Qed.

Lemma stable_lift {A} (r : Result A) : heap_stable (lift r).
Proof. intros w; reflexivity. Qed.

Lemma stable_ret {A} (a : A) : heap_stable (ret a).
Proof. intros w; reflexivity. Qed.

Lemma stable_raise {A} (e : exn) : heap_stable (@raise A e).
Proof. intros w; reflexivity. Qed.

Lemma stable_assert_caches_enabled : heap_stable assert_caches_enabled.
Proof. intros w; now rewrite assert_caches_enabled_spec. Qed.

Lemma stable_get_backbone_causal_mask : heap_stable get_backbone_causal_mask.
Proof.
  intros w; unfold get_backbone_causal_mask; now destruct (backbone_causal_mask w).
Qed.

Lemma stable_backbone_call h pos mask : heap_stable (backbone_call h pos mask).
Proof.
  intros w; unfold backbone_call; now destruct (backbone_forward _ _ _ _).
Qed.

Lemma stable_load_long l : heap_stable (load_long l).
Proof. intros w; unfold load_long; now destruct (nth_error _ _) as [[]|]. Qed.

Lemma stable_load_bool l : heap_stable (load_bool l).
Proof. intros w; unfold load_bool; now destruct (nth_error _ _) as [[]|]. Qed.

Lemma stable_load_float l : heap_stable (load_float l).
Proof. intros w; unfold load_float; now destruct (nth_error _ _) as [[]|]. Qed.

Lemma stable_multinomial probs : heap_stable (multinomial probs).
Proof.
  intros w; unfold multinomial.
  destruct (shape probs) as [|? [|? [|]]]; try reflexivity;
    destruct (_ =? 0); try reflexivity; destruct (forallb _ _); reflexivity.
Qed.

Lemma stable_print line : heap_stable (print line).
Proof. intros w; reflexivity. Qed.

Create HintDb stable.
#[local] Hint Resolve stable_lift stable_ret stable_raise stable_assert_caches_enabled
  stable_get_backbone_causal_mask stable_backbone_call stable_load_long stable_load_bool
  stable_load_float stable_multinomial stable_print : stable.

Ltac stable_tac :=
  repeat first
    [ progress auto with stable
    | apply stable_bind; [|intros ?]
    | progress cbv zeta ].

Lemma stable_forward tokens tokens_mask input_pos :
  heap_stable (forward tokens tokens_mask input_pos).
Proof. unfold forward; stable_tac. Qed.

#[local] Hint Resolve stable_forward : stable.

Ltac keeps_tac :=
  repeat first
    [ apply keeps_new_tensor
    | solve [apply keeps_stable; stable_tac]
    | solve [apply keeps_ret; auto; exact I]
    | eapply keeps_bind; [|intros ? ?]
    | progress cbv zeta ].

Lemma keeps_batch_step n temperature topk i st :
  keeps n anything (batch_step temperature topk i st).
Proof.
  destruct st as [[[batch_samples curr_tokens] curr_tokens_mask] curr_pos].
  unfold batch_step.
  do 4 (eapply keeps_bind; [solve [apply keeps_stable; stable_tac]|intros ? _]).
  eapply keeps_bind; [apply keeps_new_tensor|intros logits0 H0].
  eapply keeps_bind with (Q := fun l => n <= l).
  { destruct (Float.ltb _ _).
    - eapply keeps_bind; [solve [apply keeps_stable; stable_tac]|intros ? _].
      apply keeps_new_tensor.
    - now apply keeps_ret. }
  intros logits Hl.
  eapply keeps_bind with (Q := anything).
  { destruct (0 <? topk)%Z; [|now apply keeps_ret].
    do 4 (eapply keeps_bind; [solve [apply keeps_stable; stable_tac]|intros ? _]).
    destruct (shape_eqb _ _).
    - now apply keeps_write_float.
    - apply keeps_stable; stable_tac. }
  intros _ _.
  do 2 (eapply keeps_bind; [solve [apply keeps_stable; stable_tac]|intros ? _]).
  destruct (Torch.all_zero _); [now apply keeps_ret|].
  eapply keeps_bind; [solve [apply keeps_stable; stable_tac]|intros ? _].
  eapply keeps_bind; [apply keeps_new_tensor|intros ? _].
  eapply keeps_bind; [solve [apply keeps_stable; stable_tac]|intros ? _].
  eapply keeps_bind; [apply keeps_new_tensor|intros ? _].
  eapply keeps_bind; [solve [apply keeps_stable; stable_tac]|intros ? _].
  eapply keeps_bind; [apply keeps_new_tensor|intros ? _].
  now apply keeps_ret.
Qed.

Lemma keeps_for_break {X S} n (xs : list X) (body : X -> S -> M (step S)) (s : S) :
  (forall x s, keeps n anything (body x s)) -> keeps n anything (for_break xs body s).
Proof.
  intros Hb; revert s; induction xs as [|x xs IH]; intros s; cbn [for_break].
  - now apply keeps_ret.
  - eapply keeps_bind; [apply Hb|intros [s'|s'] _]; [apply IH|now apply keeps_ret].
Qed.

Lemma keeps_try_except {A} n (body : M A) (handler : exn -> M A) :
  keeps n anything body -> (forall e, keeps n anything (handler e)) ->
  keeps n anything (try_except body handler).
Proof.
  intros Hb Hh w Hw; destruct (Hb w Hw) as [Hu _]; unfold try_except.
  destruct (body w) as [[a|e] w1]; cbn [fst snd] in *.
  - split; [exact Hu|intros; exact I].
  - destruct (Hh e w1 (proj1 Hu)) as [Hu' _].
    split; [eapply untouched_trans; eassumption|intros; exact I].
Qed.

Lemma keeps_generate_frames_batch n tokens tokens_mask pos temperature topk num_frames :
  keeps n anything (generate_frames_batch tokens tokens_mask pos temperature topk num_frames).
Proof.
  unfold generate_frames_batch; apply keeps_try_except.
  - unfold generate_frames_batch_body.
    eapply keeps_bind; [solve [apply keeps_stable; stable_tac]|intros ? _].
    eapply keeps_bind; [apply keeps_new_tensor|intros ? _].
    eapply keeps_bind; [solve [apply keeps_stable; stable_tac]|intros ? _].
    eapply keeps_bind; [apply keeps_new_tensor|intros ? _].
    eapply keeps_bind; [solve [apply keeps_stable; stable_tac]|intros ? _].
    eapply keeps_bind; [apply keeps_new_tensor|intros ? _].
    eapply keeps_bind; [apply keeps_for_break; intros; apply keeps_batch_step|intros st _].
    destruct (fst (fst (fst st))); [now apply keeps_ret|].
    eapply keeps_bind; [solve [apply keeps_stable; stable_tac]|intros ? _].
    now apply keeps_ret.
  - intros e; apply keeps_stable; stable_tac.
Qed.

(** C10: whatever [generate_frames_batch] is called with, every tensor
    object that exists when the call starts (the caller's [tokens],
    [tokens_mask] and [pos] among them) holds the same value when it
    returns; the call only creates new objects, and its one in-place write
    goes to the [logits] object it has just created. *)
Theorem generate_frames_batch_leaves_inputs_unchanged
    (tokens tokens_mask pos : nat) (temperature : float) (topk num_frames : Z)
    (w : world) :
  let w' := snd (generate_frames_batch tokens tokens_mask pos temperature topk num_frames w) in
  (exists fresh, heap w' = heap w ++ fresh) /\
  (forall l o, nth_error (heap w) l = Some o -> nth_error (heap w') l = Some o).
Proof.
  cbv zeta.
  destruct (@keeps_generate_frames_batch (length (heap w)) tokens tokens_mask pos
              temperature topk num_frames w (Nat.le_refl _)) as [[Hlen Hpre] _].
  rewrite (firstn_all (heap w)) in Hpre.
  set (w' := snd _) in *.
  assert (E : heap w' = heap w ++ skipn (length (heap w)) (heap w')).
  { rewrite <- Hpre at 1; symmetry; apply firstn_skipn. }
  split; [eexists; exact E|].
  intros l o Hl; rewrite E.
  rewrite nth_error_app1; [exact Hl|].
  apply nth_error_Some; congruence.
Qed.

(** ** What one turn of the batch loop hands to the next *)

(** Partial correctness: from a state in [P], a value returned by [m]
    comes with a state in [Q]. *)
Definition triple {A} (P : world -> Prop) (m : M A) (Q : A -> world -> Prop) : Prop :=
  forall w a w', P w -> m w = (Ok a, w') -> Q a w'.

Lemma triple_bind {A B} (P : world -> Prop) (R : A -> world -> Prop)
    (Q : B -> world -> Prop) (m : M A) (k : A -> M B) :
  triple P m R -> (forall a, triple (R a) (k a) Q) -> triple P (bind m k) Q.
Proof.
  intros Hm Hk w b w' HP H; apply bind_inv_ok in H; destruct H as (a & w1 & E1 & E2).
  eapply Hk; [|exact E2]; eapply Hm; eassumption.
Qed.

Lemma triple_skip {A B} (P : world -> Prop) (Q : B -> world -> Prop)
    (m : M A) (k : A -> M B) :
  (forall a, triple (fun _ => True) (k a) Q) -> triple P (bind m k) Q.
Proof.
  intros Hk; apply triple_bind with (R := fun _ _ => True); [|exact Hk].
  intros w a w' _ _; exact I.
Qed.

Lemma triple_lift {A B} (P : world -> Prop) (Q : B -> world -> Prop)
    (r : Result A) (k : A -> M B) :
  (forall a, r = Ok a -> triple P (k a) Q) -> triple P (bind (lift r) k) Q.
Proof.
  intros Hk w b w' HP H; apply bind_inv_ok in H; destruct H as (a & w1 & E1 & E2).
  apply lift_inv in E1; destruct E1 as [-> ->].
  eapply Hk; eauto.
Qed.

Lemma triple_ret {A} (P : world -> Prop) (Q : A -> world -> Prop) (a : A) :
  (forall w, P w -> Q a w) -> triple P (ret a) Q.
Proof. intros H w x w' HP [= <- <-]; auto. Qed.

(** The object at [l] is [o]. *)
Definition holds (l : nat) (o : tobj) (w : world) : Prop :=
  nth_error (heap w) l = Some o.

Lemma triple_new_first {A} (P : world -> Prop) (Q : A -> world -> Prop)
    (o : tobj) (k : nat -> M A) :
  (forall l, triple (holds l o) (k l) Q) -> triple P (bind (new_tensor o) k) Q.
Proof.
  intros Hk; apply triple_bind with (R := fun l => holds l o); [|exact Hk].
  intros w l w' _ [= <- <-]; unfold holds; cbn.
  rewrite nth_error_app2, Nat.sub_diag by lia; reflexivity.
Qed.

Lemma triple_new_keep {A} (l0 : nat) (o0 : tobj) (Q : A -> world -> Prop)
    (o : tobj) (k : nat -> M A) :
  (forall l, triple (holds l0 o0) (k l) Q) ->
  triple (holds l0 o0) (bind (new_tensor o) k) Q.
Proof.
  intros Hk; apply triple_bind with (R := fun _ => holds l0 o0); [|exact Hk].
  intros w l w' H [= <- <-]; unfold holds in *; cbn.
  rewrite nth_error_app1; [exact H|].
  apply nth_error_Some; congruence.
Qed.

(** The state a turn of [batch_step] passes on: after [break] the one it
    was given; otherwise one whose [curr_tokens] is a matrix (two
    dimensions), not a batch of token frames. *)
Definition handed_over (st : list (tensor Z) * nat * nat * nat)
    (r : step (list (tensor Z) * nat * nat * nat)) (w : world) : Prop :=
  match r with
  | Break st' => st' = st
  | Next (_, curr_tokens, _, _) =>
      exists t, holds curr_tokens (TLong t) w /\ rank t = 2
  end.

Lemma batch_step_hands_over temperature topk i st :
  triple (fun _ => True) (batch_step temperature topk i st) (handed_over st).
Proof.
  destruct st as [[[batch_samples curr_tokens] curr_tokens_mask] curr_pos].
  unfold batch_step.
  do 9 (apply triple_skip; intros ?).
  destruct (Torch.all_zero _).
  - apply triple_ret; intros; reflexivity.
  - apply triple_lift; intros next_tokens Hcat.
    apply cat_pair_rank in Hcat; [|discriminate].
    apply triple_new_first; intros l.
    apply triple_lift; intros next_mask _.
    apply triple_new_keep; intros l1.
    apply triple_lift; intros last_pos _.
    apply triple_new_keep; intros l2.
    apply triple_ret; intros w H; cbn.
    exists next_tokens; split; [exact H|exact Hcat].
Qed.

Lemma load_long_holds l t w : holds l (TLong t) w -> load_long l w = (Ok t, w).
Proof. unfold holds, load_long; now intros ->. Qed.

Lemma batch_step_fails_on_matrix temperature topk i batch_samples
    curr_tokens curr_tokens_mask curr_pos t w :
  holds curr_tokens (TLong t) w ->
  rank t < 3 ->
  exists e w',
    batch_step temperature topk i (batch_samples, curr_tokens, curr_tokens_mask, curr_pos) w
    = (Raise e, w').
Proof.
  intros Hh Hr; unfold batch_step.
  rewrite (@bind_ok _ _ _ _ _ _ _ (load_long_holds Hh)).
  apply fails_bind_right; intros mk.
  apply fails_bind_right; intros ps.
  apply fails_bind_left.
  now apply forward_needs_three_dims.
Qed.

Lemma for_break_two_turns temperature topk (x0 x1 : nat) (xs : list nat)
    curr_tokens curr_tokens_mask curr_pos (w : world) :
  (exists e w',
     for_break (x0 :: x1 :: xs) (batch_step temperature topk)
       ([], curr_tokens, curr_tokens_mask, curr_pos) w = (Raise e, w')) \/
  (exists st w',
     for_break (x0 :: x1 :: xs) (batch_step temperature topk)
       ([], curr_tokens, curr_tokens_mask, curr_pos) w = (Ok st, w') /\
     fst (fst (fst st)) = []).
Proof.
  cbn [for_break].
  destruct (batch_step temperature topk x0 ([], curr_tokens, curr_tokens_mask, curr_pos) w)
    as [[r|e] w1] eqn:E1.
  - pose proof (@batch_step_hands_over temperature topk x0 _ w r w1 I E1) as H.
    rewrite (@bind_ok _ _ _ _ _ _ _ E1).
    destruct r as [[[[bs ct] cm] cp]|st']; cbn [handed_over] in H.
    + destruct H as (t & Hh & Hr).
      destruct (@batch_step_fails_on_matrix temperature topk x1 bs ct cm cp t w1 Hh)
        as (e & w2 & E2); [lia|].
      left; exists e, w2; now apply bind_raise.
    + subst st'; right; eexists; eexists; split; reflexivity.
  - left; exists e, w1; now apply bind_raise.
Qed.

(** With two frames or more asked for, [generate_frames_batch] returns
    [None]: the input it builds for the second turn of its loop is a
    matrix, which [forward] cannot index as a batch of token frames. *)
Lemma generate_frames_batch_none_beyond_one_frame
    (tokens tokens_mask pos : nat) (temperature : float) (topk num_frames : Z)
    (w : world) :
  (2 <= num_frames)%Z ->
  exists w',
    generate_frames_batch tokens tokens_mask pos temperature topk num_frames w
    = (Ok None, w').
Proof.
  intros Hn.
  assert (Hseq : exists xs, seq 0 (Z.to_nat num_frames) = 0 :: 1 :: xs).
  { destruct (Z.to_nat num_frames) as [|[|n]] eqn:E; try lia.
    now exists (seq 2 n). }
  destruct Hseq as (xs & Hseq).
  assert (Hbody : forall w0,
            (exists e w', generate_frames_batch_body tokens tokens_mask pos temperature topk
                            num_frames w0 = (Raise e, w')) \/
            (exists w', generate_frames_batch_body tokens tokens_mask pos temperature topk
                          num_frames w0 = (Ok None, w'))).
  { intros w0; unfold generate_frames_batch_body; rewrite Hseq.
    repeat
      (match goal with
       | |- context [bind ?m ?k ?w] =>
           lazymatch m with
           | for_break _ _ _ => fail
           | _ => destruct (m w) as [[? | ?] ?] eqn:?;
                  [erewrite bind_ok by eassumption
                  |left; eexists; eexists; apply bind_raise; eassumption]
           end
       end).
    match goal with
    | |- context [bind (for_break _ _ (_, ?ct, ?cm, ?cp)) _ ?w] =>
        destruct (@for_break_two_turns temperature topk 0 1 xs ct cm cp w)
          as [(e & w' & E)|(st & w' & E & Hst)]
    end.
    - left; exists e, w'; now apply bind_raise.
    - right; exists w'; rewrite (@bind_ok _ _ _ _ _ _ _ E), Hst; reflexivity. }
  unfold generate_frames_batch, try_except.
  destruct (Hbody w) as [(e & w' & E)|(w' & E)]; rewrite E.
  - eexists; reflexivity.
  - eexists; reflexivity.
Qed.

(** ** The two error contracts, in full *)

Lemma load_after_new (l : nat) (o x : tobj) (hp : list tobj) :
  nth_error hp l = Some o -> nth_error (hp ++ [x]) l = Some o.
Proof.
  intros H; rewrite nth_error_app1; [exact H|].
  apply nth_error_Some; rewrite H; discriminate.
Qed.

(** The state the codebook loop of [generate_frame] starts from,
    [(curr_h, curr_sample, curr_pos)]: lines 208 to 230. *)
Definition frame_start (tokens : tensor Z) (tokens_mask : tensor bool)
    (input_pos : tensor Z) (temperature : float) (topk : Z)
  : M (tensor float * tensor Z * tensor Z) :=
  _ <- lift (Torch.size3 tokens) ;;
  assert_caches_enabled ;;
  mask <- get_backbone_causal_mask ;;
  curr_backbone_mask <- lift (_index_causal_mask mask input_pos) ;;
  embeds <- lift (_embed_tokens tokens) ;;
  h <- lift (masked_sum embeds tokens_mask) ;;
  h <- backbone_call h input_pos curr_backbone_mask ;;
  last_h <- lift (last_step h) ;;
  c0_logits <- lift (Torch.linear (codebook0_head self) last_h) ;;
  c0_sample <- sample_topk c0_logits topk temperature ;;
  c0_embed <- lift (_embed_audio 0 c0_sample) ;;
  seed <- lift (Torch.unsqueeze 1 last_h) ;;
  curr_h <- lift (Torch.cat [seed; c0_embed] 1) ;;
  let curr_sample := Torch.clone c0_sample in
  steps <- lift (Torch.size 1 curr_h) ;;
  row <- lift (Torch.unsqueeze 0 (Torch.arange steps)) ;;
  rows <- lift (Torch.size 0 curr_h) ;;
  curr_pos <- lift (Torch.repeat_rows rows row) ;;
  ret (curr_h, curr_sample, curr_pos).

(** The state of a [for] loop with [break] after the turns [xs], when
    each of them ran to its end: no [break], no exception. *)
Fixpoint next_turns {X S} (xs : list X) (body : X -> S -> M (step S)) (s : S) (w : world)
  : option (S * world) :=
  match xs with
  | [] => Some (s, w)
  | x :: xs' =>
      match body x s w with
      | (Ok (Next s'), w') => next_turns xs' body s' w'
      | _ => None
      end
  end.

Lemma bind_assoc {A B C} (m : M A) (k : A -> M B) (k' : B -> M C) (w : world) :
  bind (bind m k) k' w = bind m (fun a => bind (k a) k') w.
Proof. unfold bind; destruct (m w) as [[a|e] w1]; reflexivity. Qed.

Lemma bind_same_head {A B} (m : M A) (k k' : A -> M B) (w : world) :
  (forall a w1, m w = (Ok a, w1) -> k a w1 = k' a w1) -> bind m k w = bind m k' w.
Proof. unfold bind; destruct (m w) as [[a|e] w1]; intros H; [now apply H|reflexivity]. Qed.

(** [generate_frame] is the start of the frame, the reset of the decoder
    and the loop over the later codebooks, one after the other. *)
Lemma generate_frame_phases
    (tokens : tensor Z) (tokens_mask : tensor bool) (input_pos : tensor Z)
    (temperature : float) (topk : Z) (w : world) :
  generate_frame tokens tokens_mask input_pos temperature topk w
  = (st <- frame_start tokens tokens_mask input_pos temperature topk ;;
     decoder_reset_caches ;;
     st' <- for_each (seq 1 (audio_num_codebooks (args self) - 1))
              (decoder_step topk temperature) st ;;
     ret (snd (fst st'))) w.
Proof.
  unfold generate_frame, frame_start.
  repeat (rewrite bind_assoc; apply bind_same_head; intros ? ? _).
  reflexivity.
Qed.

Lemma for_each_app {X S} (xs ys : list X) (body : X -> S -> M S) (s : S) (w : world) :
  for_each (xs ++ ys) body s w
  = bind (for_each xs body s) (fun s' => for_each ys body s') w.
Proof.
  revert s w; induction xs as [|x xs IH]; intros s w; [reflexivity|].
  cbn [app for_each]; rewrite bind_assoc.
  apply bind_same_head; intros s' w1 _; apply IH.
Qed.

Lemma for_break_after_turns {X S} (xs ys : list X) (body : X -> S -> M (step S))
    (s s' : S) (w w' : world) :
  next_turns xs body s w = Some (s', w') ->
  for_break (xs ++ ys) body s w = for_break ys body s' w'.
Proof.
  revert s w; induction xs as [|x xs IH]; intros s w; cbn [next_turns app for_break].
  - now intros [= -> ->].
  - unfold bind; destruct (body x s w) as [[[s1|s1]|e] w1]; try discriminate.
    apply IH.
Qed.

(** A turn that raises ends the loop with its exception. *)
Lemma for_each_turn_raises {X S} (xs ys : list X) (x : X) (body : X -> S -> M S)
    (s s' : S) (w w1 w' : world) (e : exn) :
  for_each xs body s w = (Ok s', w1) -> body x s' w1 = (Raise e, w') ->
  for_each (xs ++ x :: ys) body s w = (Raise e, w').
Proof.
  intros Hxs Hx; rewrite for_each_app; erewrite bind_ok by exact Hxs; cbn [for_each].
  now apply bind_raise.
Qed.

Lemma for_break_turn_raises {X S} (xs ys : list X) (x : X) (body : X -> S -> M (step S))
    (s s' : S) (w w1 w' : world) (e : exn) :
  next_turns xs body s w = Some (s', w1) -> body x s' w1 = (Raise e, w') ->
  for_break (xs ++ x :: ys) body s w = (Raise e, w').
Proof.
  intros Hxs Hx; erewrite for_break_after_turns by exact Hxs; cbn [for_break].
  now apply bind_raise.
Qed.

Lemma seq_split (start n len : nat) :
  n < len -> seq start len = seq start n ++ (start + n) :: seq (S (start + n)) (len - S n).
Proof.
  intros H; replace len with (n + S (len - S n)) at 1 by lia.
  now rewrite seq_app.
Qed.

(** The three clones that open [generate_frames_batch], and the loop on
    them. *)
Lemma batch_body_on_clones
    (tokens_at mask_at pos_at : nat) (temperature : float) (topk num_frames : Z)
    (w : world) (t : tensor Z) (m : tensor bool) (p : tensor Z) :
  nth_error (heap w) tokens_at = Some (TLong t) ->
  nth_error (heap w) mask_at = Some (TBool m) ->
  nth_error (heap w) pos_at = Some (TLong p) ->
  generate_frames_batch_body tokens_at mask_at pos_at temperature topk num_frames w
  = (st <- for_break (seq 0 (Z.to_nat num_frames)) (batch_step temperature topk)
             ([], length (heap w), length (heap w) + 1, length (heap w) + 2) ;;
     match fst (fst (fst st)) with
     | [] => ret None
     | batch_samples => r <- lift (Torch.cat batch_samples 0) ;; ret (Some r)
     end) (set_heap (heap w ++ [TLong t; TBool m; TLong p]) w).
Proof.
  intros Ht Hm Hp.
  assert (Hm1 := @load_after_new _ _ (TLong (Torch.clone t)) _ Hm).
  assert (Hp1 := @load_after_new _ _ (TLong (Torch.clone t)) _ Hp).
  assert (Hp2 := @load_after_new _ _ (TBool (Torch.clone m)) _ Hp1).
  unfold generate_frames_batch_body.
  erewrite bind_ok by (unfold load_long; rewrite Ht; reflexivity).
  erewrite bind_ok by reflexivity.
  erewrite bind_ok by (unfold load_bool; cbn [heap set_heap]; rewrite Hm1; reflexivity).
  erewrite bind_ok by reflexivity.
  erewrite bind_ok by (unfold load_long; cbn [heap set_heap]; rewrite Hp2; reflexivity).
  erewrite bind_ok by reflexivity.
  cbn [heap set_heap]; rewrite !length_app; cbn [length].
  rewrite <- Nat.add_assoc; cbn [Nat.add].
  unfold Torch.clone; destruct w; cbn [set_heap heap backbone decoder backbone_causal_mask
    decoder_causal_mask rng trace]; rewrite <- !app_assoc; reflexivity.
Qed.

(** C2: the two generators treat a failure differently.  [generate_frame]
    hands to its caller the very exception its computation raises, with
    the state at the point of failure: that of the forward computation,
    of the sampling of codebook 0 and of its embedding, of anything else
    before the loop ([frame_start]), of any turn of the loop over the
    later codebooks, and within a turn that of the decoder stack, of the
    sampling, of the embedding and of the concatenation.
    [generate_frames_batch] returns a value on every input: whatever
    exception the body of its [try] block raises, and so whatever
    exception a turn of its loop raises, is caught, a line is printed, and
    the result is [None]. *)
Theorem generate_frame_propagates_and_batch_absorbs
    (tokens : tensor Z) (tokens_mask : tensor bool) (input_pos : tensor Z)
    (tokens_at mask_at pos_at : nat)
    (temperature : float) (topk num_frames : Z) (w : world) :
  (forall e w', rank tokens = 3 ->
     forward tokens tokens_mask input_pos w = (Raise e, w') ->
     generate_frame tokens tokens_mask input_pos temperature topk w = (Raise e, w')) /\
  (forall c0_logits w0, rank tokens = 3 ->
     forward tokens tokens_mask input_pos w = (Ok c0_logits, w0) ->
     (forall e w',
        sample_topk c0_logits topk temperature w0 = (Raise e, w') ->
        generate_frame tokens tokens_mask input_pos temperature topk w = (Raise e, w')) /\
     (forall c0_sample w1 e,
        sample_topk c0_logits topk temperature w0 = (Ok c0_sample, w1) ->
        _embed_audio 0 c0_sample = Raise e ->
        generate_frame tokens tokens_mask input_pos temperature topk w = (Raise e, w1))) /\
  (forall e w',
     frame_start tokens tokens_mask input_pos temperature topk w = (Raise e, w') ->
     generate_frame tokens tokens_mask input_pos temperature topk w = (Raise e, w')) /\
  (forall st w0 i st_i w_i e w',
     frame_start tokens tokens_mask input_pos temperature topk w = (Ok st, w0) ->
     1 <= i < audio_num_codebooks (args self) ->
     for_each (seq 1 (i - 1)) (decoder_step topk temperature) st
       (snd (decoder_reset_caches w0)) = (Ok st_i, w_i) ->
     decoder_step topk temperature i st_i w_i = (Raise e, w') ->
     generate_frame tokens tokens_mask input_pos temperature topk w = (Raise e, w')) /\
  (forall i curr_h curr_sample curr_pos w_i mask curr_decoder_mask projected r c',
     decoder_causal_mask w_i = Some mask ->
     _index_causal_mask mask curr_pos = Ok curr_decoder_mask ->
     Torch.linear (projection self) curr_h = Ok projected ->
     decoder_forward (cache (decoder w_i)) projected curr_pos curr_decoder_mask = (r, c') ->
     let turn := decoder_step topk temperature i (curr_h, curr_sample, curr_pos) w_i in
     let w_d := emit DecoderForward
                  (set_decoder {| caches_enabled := caches_enabled (decoder w_i);
                                  cache := c' |} w_i) in
     match r with
     | Raise e => turn = (Raise e, w_d)
     | Ok decoder_h =>
         forall last_d head_i ci_logits r_s w_s,
           last_step decoder_h = Ok last_d ->
           Torch.select 0 (Z.of_nat i - 1) (audio_head self) = Ok head_i ->
           Torch.mm last_d head_i = Ok ci_logits ->
           sample_topk ci_logits topk temperature w_d = (r_s, w_s) ->
           match r_s with
           | Raise e => turn = (Raise e, w_s)
           | Ok ci_sample =>
               (forall e, _embed_audio i ci_sample = Raise e -> turn = (Raise e, w_s)) /\
               (forall ci_embed e,
                  _embed_audio i ci_sample = Ok ci_embed ->
                  Torch.cat [curr_sample; ci_sample] 1 = Raise e ->
                  turn = (Raise e, w_s))
           end
     end) /\
  (exists result w',
     generate_frames_batch tokens_at mask_at pos_at temperature topk num_frames w
     = (Ok result, w')) /\
  (forall e w',
     generate_frames_batch_body tokens_at mask_at pos_at temperature topk num_frames w
     = (Raise e, w') ->
     generate_frames_batch tokens_at mask_at pos_at temperature topk num_frames w
     = (Ok None, emit (Print ("Error in generate_frames_batch: " ++ exn_msg e)) w')) /\
  (forall t m p n st w_n e w',
     nth_error (heap w) tokens_at = Some (TLong t) ->
     nth_error (heap w) mask_at = Some (TBool m) ->
     nth_error (heap w) pos_at = Some (TLong p) ->
     (Z.of_nat n < num_frames)%Z ->
     next_turns (seq 0 n) (batch_step temperature topk)
       ([], length (heap w), length (heap w) + 1, length (heap w) + 2)
       (set_heap (heap w ++ [TLong t; TBool m; TLong p]) w) = Some (st, w_n) ->
     batch_step temperature topk n st w_n = (Raise e, w') ->
     generate_frames_batch tokens_at mask_at pos_at temperature topk num_frames w
     = (Ok None, emit (Print ("Error in generate_frames_batch: " ++ exn_msg e)) w')).
Proof.
  assert (Hcatch : forall e w',
            generate_frames_batch_body tokens_at mask_at pos_at temperature topk num_frames w
            = (Raise e, w') ->
            generate_frames_batch tokens_at mask_at pos_at temperature topk num_frames w
            = (Ok None, emit (Print ("Error in generate_frames_batch: " ++ exn_msg e)) w')).
  { intros e w' H; unfold generate_frames_batch, try_except; rewrite H; reflexivity. }
  assert (Hprefix : forall c0_logits w0, rank tokens = 3 ->
            forward tokens tokens_mask input_pos w = (Ok c0_logits, w0) ->
            exists last_h,
              generate_frame tokens tokens_mask input_pos temperature topk w
              = (c0_sample <- sample_topk c0_logits topk temperature ;;
                 c0_embed <- lift (_embed_audio 0 c0_sample) ;;
                 seed <- lift (Torch.unsqueeze 1 last_h) ;;
                 curr_h <- lift (Torch.cat [seed; c0_embed] 1) ;;
                 let curr_sample := Torch.clone c0_sample in
                 steps <- lift (Torch.size 1 curr_h) ;;
                 row <- lift (Torch.unsqueeze 0 (Torch.arange steps)) ;;
                 rows <- lift (Torch.size 0 curr_h) ;;
                 curr_pos <- lift (Torch.repeat_rows rows row) ;;
                 decoder_reset_caches ;;
                 st <- for_each (seq 1 (audio_num_codebooks (args self) - 1))
                         (decoder_step topk temperature) (curr_h, curr_sample, curr_pos) ;;
                 ret (snd (fst st))) w0).
  { intros c0_logits w0 Hr H.
    destruct (size3_rank tokens Hr) as (b & s & c & Hsz).
    unfold generate_frame; rewrite (@bind_lift_ok _ _ _ _ _ _ Hsz).
    unfold forward in H.
    repeat
      (match type of H with
       | bind ?m ?k ?w0 = _ =>
           destruct (m w0) as [[? | ?] ?] eqn:E;
           [ rewrite (@bind_ok _ _ _ k _ _ _ E) in H; erewrite bind_ok by exact E
           | rewrite (@bind_raise _ _ _ k _ _ _ E) in H; discriminate H ];
           clear E
       end).
    eexists; erewrite bind_ok by exact H; reflexivity. }
  split; [|split; [|split; [|split; [|split; [|split; [|split]]]]]].
  - intros e w' Hr H.
    destruct (size3_rank tokens Hr) as (b & s & c & Hs).
    unfold generate_frame; rewrite (@bind_lift_ok _ _ _ _ _ _ Hs).
    unfold forward in H.
    repeat
      (match type of H with
       | bind ?m ?k ?w0 = _ =>
           destruct (m w0) as [[? | ?] ?] eqn:E;
           [ rewrite (@bind_ok _ _ _ k _ _ _ E) in H; erewrite bind_ok by exact E
           | rewrite (@bind_raise _ _ _ k _ _ _ E) in H;
             erewrite bind_raise by exact E; injection H as <- <-; reflexivity ];
           clear E
       end).
    apply bind_raise; exact H.
  - intros c0_logits w0 Hr Hf.
    destruct (Hprefix c0_logits w0 Hr Hf) as (last_h & ->); split.
    + intros e w' Hs; apply bind_raise; exact Hs.
    + intros c0_sample w1 e Hs He.
      erewrite bind_ok by exact Hs; now apply bind_lift_raise.
  - intros e w' H; rewrite generate_frame_phases; now apply bind_raise.
  - intros st w0 i st_i w_i e w' Hstart Hi Hloop Hturn.
    rewrite generate_frame_phases; erewrite bind_ok by exact Hstart.
    erewrite bind_ok by reflexivity.
    apply bind_raise.
    rewrite (@seq_split 1 (i - 1) (audio_num_codebooks (args self) - 1)) by lia.
    replace (1 + (i - 1)) with i by lia.
    eapply for_each_turn_raises; eassumption.
  - intros i curr_h curr_sample curr_pos w_i mask cm projected r c' Hmask Hcm Hproj Hdec.
    cbv zeta; unfold decoder_step.
    assert (Eg : get_decoder_causal_mask w_i = (Ok mask, w_i))
      by (unfold get_decoder_causal_mask; rewrite Hmask; reflexivity).
    erewrite bind_ok by exact Eg.
    rewrite (@bind_lift_ok _ _ _ _ _ _ Hcm), (@bind_lift_ok _ _ _ _ _ _ Hproj).
    destruct r as [decoder_h|e].
    + assert (Ed : decoder_call projected curr_pos cm w_i
                   = (Ok decoder_h,
                      emit DecoderForward
                        (set_decoder {| caches_enabled := caches_enabled (decoder w_i);
                                        cache := c' |} w_i)))
        by (unfold decoder_call; rewrite Hdec; reflexivity).
      erewrite bind_ok by exact Ed.
      intros last_d head_i ci_logits r_s w_s Hl Hh Hmm Hs.
      rewrite (@bind_lift_ok _ _ _ _ _ _ Hl), (@bind_lift_ok _ _ _ _ _ _ Hh),
        (@bind_lift_ok _ _ _ _ _ _ Hmm).
      destruct r_s as [ci_sample|e]; [|now apply bind_raise].
      erewrite bind_ok by exact Hs; split.
      * intros e He; now apply bind_lift_raise.
      * intros ci_embed e He Hc.
        rewrite (@bind_lift_ok _ _ _ _ _ _ He); now apply bind_lift_raise.
    + apply bind_raise; unfold decoder_call; rewrite Hdec; reflexivity.
  - unfold generate_frames_batch, try_except.
    destruct (generate_frames_batch_body _ _ _ _ _ _ w) as [[r|e] w1].
    + now exists r, w1.
    + eexists; eexists; reflexivity.
  - exact Hcatch.
  - intros t m p n st w_n e w' Ht Hm Hp Hn Hturns Hstep.
    apply Hcatch; erewrite batch_body_on_clones by eassumption.
    apply bind_raise.
    rewrite (@seq_split 0 n (Z.to_nat num_frames)) by lia.
    eapply for_break_turn_raises; eassumption.
Qed.

(** * Frames whose slot count is not [audio_num_codebooks + 1] *)

Lemma select_shape {A} (d : nat) (i : Z) (t r : tensor A) :
  Torch.select d i t = Ok r ->
  d < rank t /\ shape r = firstn d (shape t) ++ skipn (S d) (shape t).
Proof.
  unfold Torch.select; destruct (Nat.ltb_spec d (rank t)); [|discriminate].
  destruct (wrap_index _ _); [|discriminate].
  intros [= <-]; split; [assumption|reflexivity].
Qed.

Lemma slice_bounds_to_last (n : nat) :
  slice_bounds n None (Some (-1)%Z) = (0, n - 1).
Proof.
  unfold slice_bounds, clamp_slice; change (-1 <? 0)%Z with true; cbv iota.
  f_equal; lia.
Qed.

Lemma slice_bounds_from_last (n : nat) :
  slice_bounds n (Some (-1)%Z) None = (n - 1, n - (n - 1)).
Proof.
  unfold slice_bounds, clamp_slice; change (-1 <? 0)%Z with true; cbv iota.
  f_equal; [|f_equal]; lia.
Qed.

Lemma slice_to_last_shape {A} (d : nat) (t r : tensor A) :
  Torch.slice d None (Some (-1)%Z) t = Ok r ->
  shape r = firstn d (shape t) ++ (size_at d (shape t) - 1) :: skipn (S d) (shape t).
Proof.
  unfold Torch.slice; destruct (d <? rank t); [|discriminate].
  rewrite slice_bounds_to_last.
  assert (H : forall x : tensor A, Ok x = Ok r -> shape x = shape r) by now intros x [= ->].
  intros E; now rewrite <- (H _ E).
Qed.

Lemma embedding_shape (weight : tensor float) (idx : tensor Z) (r : tensor float) :
  Torch.embedding weight idx = Ok r ->
  exists num dim, shape weight = [num; dim] /\ shape r = shape idx ++ [dim].
Proof.
  unfold Torch.embedding.
  destruct (shape weight) as [|num [|dim [|]]]; try discriminate.
  destruct (rmap _ _); [|discriminate].
  intros [= <-]; now exists num, dim.
Qed.

Lemma unsqueeze_shape {A} (dim : Z) (t r : tensor A) :
  Torch.unsqueeze dim t = Ok r ->
  exists d, wrap_index (S (rank t)) dim = Some d /\
            shape r = firstn d (shape t) ++ 1 :: skipn d (shape t).
Proof.
  unfold Torch.unsqueeze; destruct (wrap_index _ _) as [d|]; [|discriminate].
  intros [= <-]; now exists d.
Qed.

Lemma broadcast_last_mismatch (lead1 lead2 : list nat) (a b : nat) :
  a <> b -> a <> 1 -> b <> 1 ->
  broadcast_shapes (lead1 ++ [a]) (lead2 ++ [b]) = None.
Proof.
  intros Hab Ha Hb; unfold broadcast_shapes.
  rewrite !rev_app_distr; cbn [rev app broadcast_rev].
  destruct (broadcast_rev _ _); [|reflexivity].
  destruct (Nat.eqb_spec a b); [contradiction|].
  destruct (Nat.eqb_spec a 1); [contradiction|].
  destruct (Nat.eqb_spec b 1); [contradiction|reflexivity].
Qed.

Lemma broadcast_last_one (lead : list nat) (a b : nat) (s : list nat) :
  broadcast_shapes (lead ++ [a]) [b] = Some s ->
  s = lead ++ [if a =? b then a else if a =? 1 then b else a].
Proof.
  unfold broadcast_shapes; rewrite rev_app_distr; cbn [rev app broadcast_rev].
  assert (E : broadcast_rev (rev lead) [] = Some (rev lead)) by now destruct (rev lead).
  rewrite E.
  destruct (a =? b); [|destruct (a =? 1); [|destruct (b =? 1); [|discriminate]]];
    cbn [option_map rev]; intros [= <-]; now rewrite rev_involutive.
Qed.

(** The shapes [Model.__init__] gives the two embedding tables: both of
    the backbone's width [dim], which is positive. *)
Definition embedding_tables (dim : nat) : Prop :=
  1 <= dim /\
  shape (text_embeddings self) = [text_vocab_size (args self); dim] /\
  shape (audio_embeddings self)
  = [audio_vocab_size (args self) * audio_num_codebooks (args self); dim].

(** [embeds * tokens_mask.unsqueeze(-1)] summed over the slots, on the
    embeddings of [tokens]: lines 215 to 219 of [generate_frame]. *)
Definition fused (tokens : tensor Z) (tokens_mask : tensor bool) : Result (tensor float) :=
  rbind (_embed_tokens tokens) (fun embeds => masked_sum embeds tokens_mask).

Lemma select_ok_nonempty {A} (d : nat) (i : Z) (t r : tensor A) :
  Torch.select d i t = Ok r -> 1 <= size_at d (shape t).
Proof.
  unfold Torch.select; destruct (d <? rank t); [|discriminate].
  destruct (wrap_index _ _) as [j|] eqn:E; [|discriminate].
  intros _; apply wrap_index_lt in E; lia.
Qed.

Lemma reshape_infer_last {A} (a b c : nat) (t r : tensor A) :
  Torch.reshape [Some a; Some b; Some c; None] t = Ok r ->
  0 < a * b * c /\
  numel (shape t) = a * b * c * (numel (shape t) / (a * b * c)) /\
  shape r = [a; b; c; numel (shape t) / (a * b * c)].
Proof.
  unfold Torch.reshape; cbn [map filter length numel fold_right].
  replace (a * (b * (c * (1 * 1)))) with (a * b * c) by lia.
  destruct (Nat.ltb_spec 0 (a * b * c)); [|discriminate].
  destruct (Nat.eqb_spec (numel (shape t) mod (a * b * c)) 0); [|discriminate].
  cbn [andb]; intros [= <-]; cbn [shape]; repeat split; try assumption.
  pose proof (Nat.div_mod_eq (numel (shape t)) (a * b * c)); lia.
Qed.

Lemma cat_pair_shape4 {A} (x y r : tensor A) (a b c1 c2 d1 d2 : nat) :
  shape x = [a; b; c1; d1] ->
  shape y = [a; b; c2; d2] ->
  Torch.cat [x; y] (-2) = Ok r ->
  d1 = d2 /\ shape r = [a; b; c1 + c2; d1].
Proof.
  destruct x as [sx dx], y as [sy dy]; cbn [shape]; intros -> ->.
  unfold Torch.cat, rank, Torch.cat_compatible.
  cbn [filter shape shape_eqb]; rewrite !andb_false_r.
  cbn [negb shape length forallb].
  change (wrap_index 4 (-2)) with (Some 2).
  cbn [firstn skipn shape_eqb Nat.eqb].
  rewrite !Nat.eqb_refl; cbn [andb].
  destruct (Nat.eqb_spec d1 d2); [|discriminate].
  cbn [andb].
  assert (H : forall t : tensor A, Ok t = Ok r -> shape t = shape r) by now intros t [= ->].
  intros E; apply H in E; cbn [shape map list_sum size_at nth app] in E.
  split; [assumption|]; rewrite <- E.
  replace (list_sum [c1; c2]) with (c1 + c2) by (cbn [list_sum fold_right]; lia).
  reflexivity.
Qed.

Lemma broadcast_slot_mismatch (a b c1 c2 d : nat) :
  c1 <> c2 -> c1 <> 1 -> c2 <> 1 ->
  broadcast_shapes [a; b; c1; d] [a; b; c2; 1] = None.
Proof.
  intros H12 H1 H2; unfold broadcast_shapes; cbn [rev app broadcast_rev].
  rewrite !Nat.eqb_refl.
  destruct (Nat.eqb_spec c1 c2); [contradiction|].
  destruct (Nat.eqb_spec c1 1); [contradiction|].
  destruct (Nat.eqb_spec c2 1); [contradiction|reflexivity].
Qed.

(** What a successful [_embed_tokens] tells about the frame. *)
Lemma embed_tokens_inv (tokens : tensor Z) (b s k dim : nat) (embeds : tensor float) :
  embedding_tables dim ->
  shape tokens = [b; s; k] ->
  _embed_tokens tokens = Ok embeds ->
  1 <= k /\
  0 < b * s * audio_num_codebooks (args self) /\
  (k - 1 = audio_num_codebooks (args self) \/ k - 1 = 1) /\
  shape embeds = [b; s; audio_num_codebooks (args self) + 1; dim].
Proof.
  intros (Hdim & Htext & Haudio) Hshape H; unfold _embed_tokens in H.
  set (c := audio_num_codebooks (args self)) in *.
  inv_rbind H; rename E into Esel, y into text_ids.
  inv_rbind H; rename E into Etext, y into text_rows.
  inv_rbind H; rename E into Eun, y into text_embeds.
  inv_rbind H; rename E into Eslice, y into audio_slots.
  inv_rbind H; rename E into Ebc, y into audio_tokens.
  inv_rbind H; rename E into Eaudio, y into audio_rows.
  inv_rbind H; rename E into Es0, y into size0.
  inv_rbind H; rename E into Es1, y into size1.
  inv_rbind H; rename E into Ere, y into audio_embeds.
  pose proof (select_ok_nonempty _ _ _ Esel) as Hk.
  apply select_shape in Esel; destruct Esel as [_ Esel].
  rewrite Hshape in Hk, Esel; cbn in Hk, Esel.
  apply embedding_shape in Etext; destruct Etext as (n1 & d1 & E1 & Etext).
  rewrite Htext in E1; injection E1 as <- <-.
  rewrite Esel in Etext; cbn [app] in Etext.
  apply unsqueeze_shape in Eun; destruct Eun as (d & Ed & Eun).
  unfold rank in Ed; rewrite Etext in Ed, Eun.
  change (wrap_index 4 (-2)) with (Some 2) in Ed; injection Ed as <-.
  cbn [firstn skipn app] in Eun.
  apply slice_to_last_shape in Eslice; rewrite Hshape in Eslice; cbn in Eslice.
  apply broadcast2_shape in Ebc; rewrite Eslice in Ebc.
  change (shape (Torch.tmap _ (Torch.arange c))) with [c] in Ebc.
  apply (broadcast_last_one [b; s]) in Ebc; cbn [app] in Ebc.
  apply embedding_shape in Eaudio; destruct Eaudio as (n2 & d2 & E2 & Eaudio).
  rewrite Haudio in E2; injection E2 as <- <-.
  unfold Torch.flatten in Eaudio; cbn [shape app] in Eaudio.
  unfold Torch.size in Es0, Es1; unfold rank in Es0, Es1; rewrite Hshape in Es0, Es1.
  cbn in Es0, Es1; injection Es0 as <-; injection Es1 as <-.
  apply reshape_infer_last in Ere; destruct Ere as (Hpos & Hdiv & Ere).
  set (x := numel (shape audio_rows) / (b * s * c)) in *.
  destruct (cat_pair_shape4 _ _ Ere Eun H) as [Hd Hcat].
  rewrite Hd in Hdiv, Hcat; clear x Hd Ere.
  rewrite Eaudio, Ebc in Hdiv; cbn [numel fold_right] in Hdiv.
  split; [exact Hk|]; split; [exact Hpos|]; split; [|exact Hcat].
  destruct (Nat.eqb_spec (k - 1) c) as [Hkc|Hkc]; [now left|].
  destruct (Nat.eqb_spec (k - 1) 1) as [Hk1|Hk1]; [now right|].
  exfalso; apply Hkc.
  assert (E : b * s * (k - 1) * dim = b * s * c * dim) by lia.
  apply Nat.mul_cancel_r in E; [|lia].
  apply Nat.mul_cancel_l in E; [exact E|lia].
Qed.

(** C9, as the code has it: a frame whose slot count [k] is not
    [audio_num_codebooks + 1] makes [_embed_tokens] raise, except when
    [k = 2]; and it makes the whole fusion (embedding, multiplication by
    the mask, sum over the slots) raise whenever the mask has the shape of
    the frame. *)
Theorem mismatched_frame_fails
    (tokens : tensor Z) (tokens_mask : tensor bool) (b s k dim : nat) :
  embedding_tables dim ->
  shape tokens = [b; s; k] ->
  k <> audio_num_codebooks (args self) + 1 ->
  (k <> 2 -> exists e, _embed_tokens tokens = Raise e) /\
  (shape tokens_mask = shape tokens -> exists e, fused tokens tokens_mask = Raise e).
Proof.
  intros Htables Hshape Hk.
  assert (Hembed : k <> 2 -> exists e, _embed_tokens tokens = Raise e).
  { intros Hk2; destruct (_embed_tokens tokens) as [embeds|e] eqn:E; [|now exists e].
    destruct (@embed_tokens_inv tokens b s k dim embeds Htables Hshape E) as (H1 & _ & [H2|H2] & _); lia. }
  split; [exact Hembed|].
  intros Hmask; unfold fused.
  destruct (_embed_tokens tokens) as [embeds|e] eqn:E; [|now exists e].
  destruct (@embed_tokens_inv tokens b s k dim embeds Htables Hshape E) as (H1 & Hpos & H2 & Hs).
  assert (k = 2) by lia; subst k.
  assert (1 <= audio_num_codebooks (args self)) by nia.
  cbn [rbind]; unfold masked_sum.
  destruct (Torch.unsqueeze (-1) tokens_mask) as [m|e] eqn:Em; [|now exists e].
  apply unsqueeze_shape in Em; destruct Em as (d & Ed & Em).
  unfold rank in Ed; rewrite Hmask, Hshape in Ed, Em.
  change (wrap_index 4 (-1)) with (Some 3) in Ed; injection Ed as <-.
  change (shape m = [b; s; 2; 1]) in Em.
  cbn [rbind]; unfold Torch.broadcast2.
  rewrite Hs, Em, broadcast_slot_mismatch by lia.
  eexists; reflexivity.
Qed.

(** * Sampling: the index drawn lies among the top-k logits *)

(** One row of [sample_topk], in the words of its description: scale by
    the temperature, send every entry strictly below the k-th largest to
    minus infinity, take log-softmax then softmax, and return the argmax
    of the probabilities divided by the noise. *)
Definition sample_row (k : nat) (temperature : float) (row noise : list float) : nat :=
  let scaled := map (fun x => Float.div x temperature) row in
  let kth := nth (k - 1) (Torch.sort_desc scaled) NaN in
  let scores := map (fun x => if Float.ltb x kth then NInf else x) scaled in
  let probs := Torch.softmax_row (Torch.log_softmax_row scores) in
  Torch.argmax_row
    (map (fun pq => Float.div (fst pq) (snd pq)) (combine probs noise)).

Definition finite (x : float) : Prop := exists r, x = Fin r.

(** [x >= y] on finite values. *)
Definition fge (x y : float) : Prop :=
  exists a b, x = Fin a /\ y = Fin b /\ (b <= a)%R.

Lemma Rltb_true (a b : R) : (a < b)%R -> Float.Rltb a b = true.
Proof. unfold Float.Rltb; destruct (Rlt_dec a b); [reflexivity|contradiction]. Qed.

Lemma Rltb_false (a b : R) : (b <= a)%R -> Float.Rltb a b = false.
Proof. unfold Float.Rltb; destruct (Rlt_dec a b); [lra|reflexivity]. Qed.

Lemma Reqb_false (a b : R) : a <> b -> Float.Reqb a b = false.
Proof. unfold Float.Reqb; destruct (Req_dec_T a b); [contradiction|reflexivity]. Qed.

Lemma Rltb_spec (a b : R) : reflect (a < b)%R (Float.Rltb a b).
Proof. unfold Float.Rltb; destruct (Rlt_dec a b); now constructor. Qed.

Lemma huge_gt_one : (1 < Float.huge)%R.
Proof. unfold Float.huge; lra. Qed.

(** Within the range a quotient is itself; at or beyond it, an infinity. *)
Lemma of_real_in_range (r : R) :
  (- Float.huge < r < Float.huge)%R -> Float.of_real r = Fin r.
Proof. intros H; unfold Float.of_real; now rewrite !Rltb_true by lra. Qed.

Lemma of_real_above (r : R) : (Float.huge <= r)%R -> Float.of_real r = PInf.
Proof. intros H; unfold Float.of_real; now rewrite Rltb_false by lra. Qed.


Lemma div_in_range (a b : R) :
  b <> 0%R -> (- Float.huge < a / b < Float.huge)%R ->
  Float.div (Fin a) (Fin b) = Fin (a / b).
Proof. intros Hb H; cbn [Float.div]; now rewrite Reqb_false, of_real_in_range. Qed.

Lemma fge_refl x : finite x -> fge x x.
Proof. intros (a & ->); exists a, a; repeat split; lra. Qed.

Lemma fge_trans x y z : fge x y -> fge y z -> fge x z.
Proof.
  intros (a & b & -> & -> & H1) (b' & c & [= <-] & -> & H2).
  exists a, c; repeat split; lra.
Qed.

Lemma fge_antisym x y : fge x y -> fge y x -> x = y.
Proof.
  intros (a & b & -> & -> & H1) (b' & a' & [= <-] & [= <-] & H2).
  f_equal; lra.
Qed.

Lemma fge_not_ltb x y : fge x y -> Float.ltb x y = false.
Proof. intros (a & b & -> & -> & H); cbn; now apply Rltb_false. Qed.

Lemma not_ltb_fge x y : finite x -> finite y -> Float.ltb x y = false -> fge x y.
Proof.
  intros (a & ->) (b & ->); cbn; destruct (Rltb_spec a b); [discriminate|].
  intros _; exists a, b; repeat split; lra.
Qed.

Lemma insert_desc_perm x l : Permutation (Torch.insert_desc x l) (x :: l).
Proof.
  induction l as [|y l IH]; cbn; [reflexivity|].
  destruct (Torch.above y x); [|reflexivity].
  rewrite IH; apply perm_swap.
Qed.

Lemma sort_desc_perm l : Permutation (Torch.sort_desc l) l.
Proof.
  induction l as [|x l IH]; cbn; [reflexivity|].
  now rewrite insert_desc_perm, IH.
Qed.

Lemma sort_desc_length l : length (Torch.sort_desc l) = length l.
Proof. apply Permutation_length, sort_desc_perm. Qed.

Lemma insert_desc_sorted x l :
  finite x -> Forall finite l ->
  StronglySorted fge l -> StronglySorted fge (Torch.insert_desc x l).
Proof.
  intros Hx Hl Hs; induction Hs as [|y l Hs IH Hy]; cbn.
  - repeat constructor.
  - apply Forall_cons_iff in Hl; destruct Hl as [Hfy Hl].
    destruct Hx as (a & ->), Hfy as (b & ->); cbn.
    destruct (Rltb_spec a b) as [Hab|Hab].
    + constructor; [now apply IH|].
      apply (Permutation_Forall (Permutation_sym (insert_desc_perm (Fin a) l))).
      constructor; [|assumption].
      exists b, a; repeat split; lra.
    + constructor; [now constructor|].
      assert (Hge : fge (Fin a) (Fin b)) by (exists a, b; repeat split; lra).
      constructor; [assumption|].
      eapply Forall_impl; [|exact Hy]; intros z Hz; eapply fge_trans; eassumption.
Qed.

Lemma sort_desc_sorted l : Forall finite l -> StronglySorted fge (Torch.sort_desc l).
Proof.
  induction 1 as [|x l Hx Hl IH]; cbn; [constructor|].
  apply insert_desc_sorted; [assumption| |assumption].
  apply (Permutation_Forall (Permutation_sym (sort_desc_perm l))); assumption.
Qed.

Lemma sorted_nth (s : list float) (i j : nat) :
  StronglySorted fge s -> i < j < length s -> fge (nth i s NaN) (nth j s NaN).
Proof.
  intros Hs; revert i j; induction Hs as [|x s Hs IH Hx]; intros i j Hij; cbn in Hij; [lia|].
  destruct j as [|j]; [lia|]; destruct i as [|i]; cbn.
  - rewrite Forall_forall in Hx; apply Hx, nth_In; lia.
  - apply IH; lia.
Qed.

Lemma nth_in_firstn {A} (s : list A) (i k : nat) (d : A) :
  i < k -> i < length s -> In (nth i s d) (firstn k s).
Proof.
  revert i k; induction s as [|x s IH]; intros i k Hik Hi; cbn in Hi; [lia|].
  destruct k as [|k]; [lia|]; destruct i as [|i]; cbn; [now left|].
  right; apply IH; lia.
Qed.

(** An entry that is not below the k-th largest value is one of the k
    largest values. *)
Lemma in_topk (l : list float) (k : nat) (x : float) :
  Forall finite l -> 1 <= k <= length l -> In x l ->
  fge x (nth (k - 1) (Torch.sort_desc l) NaN) ->
  In x (firstn k (Torch.sort_desc l)).
Proof.
  intros Hl Hk Hx Hge.
  pose proof (sort_desc_sorted Hl) as Hs.
  pose proof (sort_desc_length l) as Hlen.
  apply (Permutation_in _ (Permutation_sym (sort_desc_perm l))) in Hx.
  destruct (In_nth _ _ NaN Hx) as (p & Hp & <-).
  destruct (Nat.lt_ge_cases p k) as [Hpk|Hpk]; [now apply nth_in_firstn|].
  assert (E : nth p (Torch.sort_desc l) NaN = nth (k - 1) (Torch.sort_desc l) NaN).
  { apply fge_antisym; [assumption|]. apply sorted_nth; [assumption|lia]. }
  rewrite E; apply nth_in_firstn; lia.
Qed.

(** The largest entry is not below the k-th largest. *)
Lemma kth_below_some (l : list float) (k : nat) :
  Forall finite l -> 1 <= k <= length l ->
  exists x, In x l /\ fge x (nth (k - 1) (Torch.sort_desc l) NaN).
Proof.
  intros Hl Hk.
  pose proof (sort_desc_sorted Hl) as Hs.
  pose proof (sort_desc_length l) as Hlen.
  exists (nth 0 (Torch.sort_desc l) NaN); split.
  - apply (Permutation_in _ (sort_desc_perm l)), nth_In; lia.
  - destruct (Nat.eq_dec (k - 1) 0) as [->|Hne].
    + apply fge_refl.
      assert (Hf : Forall finite (Torch.sort_desc l))
        by (apply (Permutation_Forall (Permutation_sym (sort_desc_perm l))); assumption).
      rewrite Forall_forall in Hf; apply Hf, nth_In; lia.
    + apply sorted_nth; [assumption|lia].
Qed.

(** ** Scores, weights and the argmax *)

(** A score is minus infinity (masked) or finite (kept). *)
Definition score (m : float) : Prop := m = NInf \/ finite m.

(** [p] weighs the score [m]: zero when masked, positive when kept. *)
Definition weighs (m : float) (p : R) : Prop :=
  (m = NInf /\ p = 0%R) \/ (finite m /\ (0 < p)%R).

(** Two rows masked at the same places. *)
Definition masked_alike (m l : float) : Prop :=
  (m = NInf /\ l = NInf) \/ (finite m /\ finite l).

Lemma fold_add_Fin (ps : list R) (a : R) :
  fold_left Float.add (map Fin ps) (Fin a) = Fin (fold_left Rplus ps a).
Proof.
  revert a; induction ps as [|p ps IH]; intros a; cbn; [reflexivity|apply IH].
Qed.

Lemma sum_Fin (ps : list R) : Float.sum (map Fin ps) = Fin (fold_left Rplus ps 0%R).
Proof. apply fold_add_Fin. Qed.

Lemma fold_Rplus_ge (ps : list R) (a : R) :
  Forall (fun p => 0 <= p)%R ps -> (a <= fold_left Rplus ps a)%R.
Proof.
  intros H; revert a; induction H as [|p ps Hp _ IH]; intros a; cbn; [lra|].
  specialize (IH (a + p)%R); lra.
Qed.

Lemma fold_Rplus_pos (ps : list R) (a : R) :
  Forall (fun p => 0 <= p)%R ps -> (0 <= a)%R -> Exists (fun p => 0 < p)%R ps ->
  (0 < fold_left Rplus ps a)%R.
Proof.
  intros H; revert a; induction H as [|p ps Hp Hps IH]; intros a Ha Hex; cbn.
  - inversion Hex.
  - inversion Hex as [? ? Hpos|? ? Hlater]; subst.
    + pose proof (fold_Rplus_ge (a + p) Hps); lra.
    + apply IH; [lra|assumption].
Qed.

Lemma fold_Rplus_shift (ps : list R) (a b : R) :
  fold_left Rplus ps (a + b)%R = (fold_left Rplus ps a + b)%R.
Proof.
  revert a; induction ps as [|p ps IH]; intros a; cbn; [reflexivity|].
  replace (a + b + p)%R with (a + p + b)%R by lra; apply IH.
Qed.

(** A term of a sum of non-negative reals is at most the sum. *)
Lemma part_le_sum (ps : list R) (p : R) :
  Forall (fun x => 0 <= x)%R ps -> In p ps -> (p <= fold_left Rplus ps 0)%R.
Proof.
  induction 1 as [|x ps Hx Hps IH]; intros Hin; [contradiction|]; cbn.
  rewrite fold_Rplus_shift.
  pose proof (fold_Rplus_ge 0 Hps).
  destruct Hin as [->|Hin]; [lra|specialize (IH Hin); lra].
Qed.

Lemma Rcomplements_div_nonneg (a b : R) : (0 <= a)%R -> (0 < b)%R -> (0 <= a / b)%R.
Proof.
  intros Ha Hb; unfold Rdiv; apply Rmult_le_pos; [assumption|].
  left; now apply Rinv_0_lt_compat.
Qed.

Lemma Rcomplements_div_le_one (a b : R) : (a <= b)%R -> (0 < b)%R -> (a / b <= 1)%R.
Proof.
  intros Hab Hb; unfold Rdiv.
  pose proof (Rinv_0_lt_compat b Hb) as Hi.
  replace 1%R with (b * / b)%R by (apply Rinv_r; lra).
  apply Rmult_le_compat_r; lra.
Qed.

Lemma weighs_nonneg (ms : list float) (ps : list R) :
  Forall2 weighs ms ps -> Forall (fun p => 0 <= p)%R ps.
Proof.
  induction 1 as [|m p ms ps [[_ ->]|[_ Hp]] _ IH]; constructor; try assumption; lra.
Qed.

Lemma weighs_some_positive (ms : list float) (ps : list R) :
  Forall2 weighs ms ps -> Exists finite ms -> Exists (fun p => 0 < p)%R ps.
Proof.
  induction 1 as [|m p ms ps Hw _ IH]; intros Hex; inversion Hex as [? ? Hf|? ? Hl]; subst.
  - destruct Hw as [[-> _]|[_ Hp]]; [destruct Hf; discriminate|now left].
  - right; auto.
Qed.

Lemma weighs_sum_pos (ms : list float) (ps : list R) :
  Forall2 weighs ms ps -> Exists finite ms -> (0 < fold_left Rplus ps 0)%R.
Proof.
  intros Hw Hex; apply fold_Rplus_pos;
    [eapply weighs_nonneg; eassumption|lra|eapply weighs_some_positive; eassumption].
Qed.

Lemma exp_weighs (ms : list float) :
  Forall score ms ->
  exists es, map Float.exp ms = map Fin es /\ Forall2 weighs ms es.
Proof.
  induction 1 as [|m ms Hm _ (es & E & Hw)].
  - exists []; split; constructor.
  - destruct Hm as [->|(a & ->)].
    + exists (0%R :: es); cbn; rewrite E; split; [reflexivity|].
      constructor; [left; now split|assumption].
    + exists (exp a :: es); cbn; rewrite E; split; [reflexivity|].
      constructor; [right; split; [now exists a|apply exp_pos]|assumption].
Qed.

Lemma masked_alike_score (ms ls : list float) :
  Forall2 masked_alike ms ls -> Forall score ls.
Proof.
  induction 1 as [|m l ms ls [[_ ->]|[_ Hl]] _ IH]; constructor; try assumption.
  - now left.
  - now right.
Qed.

Lemma masked_alike_some_finite (ms ls : list float) :
  Forall2 masked_alike ms ls -> Exists finite ms -> Exists finite ls.
Proof.
  induction 1 as [|m l ms ls Ha _ IH]; intros Hex; inversion Hex as [? ? Hf|? ? Hl]; subst.
  - destruct Ha as [[-> _]|[_ Hl]]; [destruct Hf; discriminate|now left].
  - right; auto.
Qed.

Lemma weighs_masked_alike (ms ls : list float) (ps : list R) :
  Forall2 masked_alike ms ls -> Forall2 weighs ls ps -> Forall2 weighs ms ps.
Proof.
  intros H; revert ps; induction H as [|m l ms ls Ha _ IH]; intros ps Hw;
    inversion Hw as [|? p ? ps' Hp Hps]; subst; constructor; [|now apply IH].
  destruct Ha as [[-> ->]|[Hm Hl]], Hp as [[E ->]|[Hf Hp]].
  - left; now split.
  - destruct Hf; discriminate.
  - subst; destruct Hl; discriminate.
  - right; now split.
Qed.

Lemma log_softmax_row_masked_alike (ms : list float) :
  Forall score ms -> Exists finite ms ->
  Forall2 masked_alike ms (Torch.log_softmax_row ms).
Proof.
  intros Hs Hex; unfold Torch.log_softmax_row.
  destruct (exp_weighs Hs) as (es & -> & Hw).
  rewrite sum_Fin; pose proof (weighs_sum_pos Hw Hex) as Hz.
  cbn [Float.log]; rewrite Rltb_true by assumption.
  clear Hw Hex; induction Hs as [|m ms Hm _ IH]; cbn; constructor; [|assumption].
  destruct Hm as [->|(a & ->)]; cbn.
  - left; now split.
  - right; split; eexists; reflexivity.
Qed.

Lemma softmax_row_weighs (ls : list float) :
  Forall score ls -> Exists finite ls ->
  exists ps, Torch.softmax_row ls = map Fin ps /\ Forall2 weighs ls ps.
Proof.
  intros Hs Hex; unfold Torch.softmax_row.
  destruct (exp_weighs Hs) as (es & E & Hw).
  rewrite E, sum_Fin; pose proof (weighs_sum_pos Hw Hex) as Hz.
  set (z := fold_left Rplus es 0%R) in *.
  exists (map (fun e => e / z)%R es); split.
  - rewrite <- (map_map Float.exp (fun y => Float.div y (Fin z))), E, !map_map.
    apply map_ext_in; intros e He; apply div_in_range; [lra|].
    pose proof (weighs_nonneg Hw) as Hn.
    pose proof (@part_le_sum es e Hn He) as Hle; fold z in Hle.
    rewrite Forall_forall in Hn; specialize (Hn e He).
    pose proof huge_gt_one.
    assert (0 <= e / z <= 1)%R; [|lra].
    split; [apply Rcomplements_div_nonneg; lra|].
    apply Rcomplements_div_le_one; lra.
  - clearbody z; clear E Hs Hex.
    induction Hw as [|l e ls es Hle _ IH]; cbn; constructor; [|assumption].
    destruct Hle as [[-> ->]|[Hf He]]; [left; split; [reflexivity|lra]|right; split].
    + assumption.
    + now apply Rdiv_lt_0_compat.
Qed.

Lemma divide_by_noise (ms : list float) (ps qs : list R) :
  Forall2 weighs ms ps -> Forall (fun q => 0 < q)%R qs -> length qs = length ps ->
  exists rs,
    map (fun pq => Float.div (fst pq) (snd pq)) (combine (map Fin ps) (map Fin qs))
    = map Float.of_real rs /\
    Forall2 weighs ms rs.
Proof.
  intros Hw; revert qs; induction Hw as [|m p ms ps Hmp _ IH]; intros qs Hq Hlen.
  - exists []; split; constructor.
  - destruct qs as [|q qs]; [discriminate|].
    apply Forall_cons_iff in Hq; destruct Hq as [Hq Hqs].
    destruct (IH qs Hqs) as (rs & E & Hrs); [now injection Hlen|].
    exists ((p / q)%R :: rs); split.
    + cbn [map combine fst snd Float.div]; rewrite Reqb_false by lra.
      now rewrite <- E.
    + constructor; [|assumption].
      destruct Hmp as [[-> ->]|[Hf Hp]]; [left; split; [reflexivity|lra]|right; split].
      * assumption.
      * now apply Rdiv_lt_0_compat.
Qed.

Lemma argmax_from_spec (rs : list R) (best : R) (best_i i : nat) :
  let r := Torch.argmax_from best_i (Fin best) i (map Fin rs) in
  exists v,
    (best <= v)%R /\ Forall (fun x => x <= v)%R rs /\
    ((r = best_i /\ v = best) \/
     (i <= r < i + length rs /\ v = nth (r - i) rs 0%R)).
Proof.
  cbv zeta; revert best best_i i; induction rs as [|x rs IH]; intros best best_i i.
  - exists best; cbn; repeat split; [lra|constructor|now left].
  - cbn [map Torch.argmax_from Torch.above Float.ltb length].
    destruct (Rltb_spec best x) as [Hlt|Hge].
    + destruct (IH x i (S i)) as (v & Hv & Hall & Hr).
      exists v; split; [lra|]; split; [constructor; assumption|]; right.
      destruct Hr as [[-> ->]|[Hr ->]].
      * split; [lia|]; now rewrite Nat.sub_diag.
      * split; [lia|].
        replace (Torch.argmax_from i (Fin x) (S i) (map Fin rs) - i)
          with (S (Torch.argmax_from i (Fin x) (S i) (map Fin rs) - S i)) by lia.
        reflexivity.
    + destruct (IH best best_i (S i)) as (v & Hv & Hall & Hr).
      exists v; split; [lra|]; split; [constructor; [lra|assumption]|].
      destruct Hr as [[-> ->]|[Hr ->]]; [now left|right].
      split; [lia|].
      replace (Torch.argmax_from best_i (Fin best) (S i) (map Fin rs) - i)
        with (S (Torch.argmax_from best_i (Fin best) (S i) (map Fin rs) - S i)) by lia.
      reflexivity.
Qed.

(** On a non-empty row of finite values the argmax is the index of a
    largest one. *)
Lemma argmax_row_spec (rs : list R) :
  rs <> [] ->
  let i := Torch.argmax_row (map Fin rs) in
  i < length rs /\ Forall (fun x => x <= nth i rs 0)%R rs.
Proof.
  destruct rs as [|x rs]; [congruence|]; intros _; cbv zeta.
  cbn [map Torch.argmax_row].
  destruct (argmax_from_spec rs x 0 1) as (v & Hv & Hall & Hr); cbv zeta in Hr.
  destruct Hr as [[-> ->]|[Hr ->]].
  - split; [cbn; lia|]; constructor; [cbn; lra|assumption].
  - set (r := Torch.argmax_from 0 (Fin x) 1 (map Fin rs)) in *.
    split; [cbn; lia|].
    replace (nth r (x :: rs) 0%R) with (nth (r - 1) rs 0%R)
      by (destruct r; [lia|cbn; now rewrite Nat.sub_0_r]).
    constructor; assumption.
Qed.

Lemma Forall2_nth {A B} (P : A -> B -> Prop) (l1 : list A) (l2 : list B) (i : nat) d1 d2 :
  Forall2 P l1 l2 -> i < length l1 -> P (nth i l1 d1) (nth i l2 d2).
Proof.
  intros H; revert i; induction H as [|x y l1 l2 Hxy _ IH]; intros i Hi; cbn in Hi; [lia|].
  destruct i; cbn; [assumption|apply IH; lia].
Qed.

Lemma nth_map_in {A B} (f : A -> B) (l : list A) (i : nat) (d : A) (d' : B) :
  i < length l -> nth i (map f l) d' = f (nth i l d).
Proof.
  revert i; induction l as [|x l IH]; intros i Hi; cbn in Hi; [lia|].
  destruct i; cbn; [reflexivity|apply IH; lia].
Qed.

(** Quotients that may have overflowed compare as their values cut at
    the range. *)
Lemma above_of_real (x y : R) :
  (0 <= x)%R -> (0 <= y)%R ->
  Torch.above (Float.of_real x) (Float.of_real y)
  = Torch.above (Fin (Rmin x Float.huge)) (Fin (Rmin y Float.huge)).
Proof.
  intros Hx Hy; pose proof huge_gt_one as Hh.
  destruct (Rlt_le_dec x Float.huge) as [Hx'|Hx'], (Rlt_le_dec y Float.huge) as [Hy'|Hy'].
  - now rewrite !of_real_in_range, !Rmin_left by lra.
  - rewrite (@of_real_in_range x), (of_real_above Hy'), Rmin_left, Rmin_right by lra.
    cbn; symmetry; apply Rltb_false; lra.
  - rewrite (of_real_above Hx'), (@of_real_in_range y), Rmin_right, Rmin_left by lra.
    cbn; symmetry; apply Rltb_true; lra.
  - rewrite (of_real_above Hx'), (of_real_above Hy'), !Rmin_right by lra.
    cbn; symmetry; apply Rltb_false; lra.
Qed.

Lemma argmax_from_of_real (rs : list R) (best : R) (best_i i : nat) :
  (0 <= best)%R -> Forall (fun r => 0 <= r)%R rs ->
  Torch.argmax_from best_i (Float.of_real best) i (map Float.of_real rs)
  = Torch.argmax_from best_i (Fin (Rmin best Float.huge)) i
      (map Fin (map (fun r => Rmin r Float.huge) rs)).
Proof.
  intros Hb Hrs; revert best best_i i Hb.
  induction Hrs as [|x rs Hx _ IH]; intros best best_i i Hb; [reflexivity|].
  cbn [map Torch.argmax_from]; rewrite above_of_real by assumption.
  destruct (Torch.above _ _); now apply IH.
Qed.

(** The argmax of non-negative quotients that are not all zero is the
    index of a positive one, whether or not some of them overflow. *)
Lemma argmax_of_quotients (rs : list R) :
  Forall (fun r => 0 <= r)%R rs -> Exists (fun r => 0 < r)%R rs ->
  let i := Torch.argmax_row (map Float.of_real rs) in
  i < length rs /\ (0 < nth i rs 0)%R.
Proof.
  intros Hrs Hex; cbv zeta; pose proof huge_gt_one as Hh.
  set (cut := fun r => Rmin r Float.huge).
  assert (E : Torch.argmax_row (map Float.of_real rs) = Torch.argmax_row (map Fin (map cut rs))).
  { destruct Hrs as [|x rs Hx Hrs]; [reflexivity|].
    cbn [map Torch.argmax_row]; now apply argmax_from_of_real. }
  rewrite E.
  assert (Hne : map cut rs <> []) by (destruct Hex; discriminate).
  destruct (argmax_row_spec Hne) as [Hi Hmax]; cbv zeta in Hi, Hmax.
  set (i := Torch.argmax_row (map Fin (map cut rs))) in *.
  rewrite length_map in Hi; split; [exact Hi|].
  apply Exists_exists in Hex; destruct Hex as (x & Hin & Hx).
  rewrite Forall_forall in Hmax.
  specialize (Hmax (cut x) (in_map cut rs x Hin)).
  rewrite (@nth_map_in _ _ cut rs i 0%R 0%R Hi) in Hmax; unfold cut in Hmax.
  assert (0 < Rmin x Float.huge)%R by (apply Rmin_glb_lt; lra).
  pose proof (Rmin_l (nth i rs 0%R) Float.huge); lra.
Qed.

(** A finite logit whose quotient by the temperature [t] stays within
    the range. *)
Definition scalable (t : R) (x : float) : Prop :=
  exists a, x = Fin a /\ (- Float.huge < a / t < Float.huge)%R.

Lemma Exists_finite_nth (l : list float) (x : float) :
  In x l -> finite x -> Exists finite l.
Proof. intros Hin Hf; apply Exists_exists; now exists x. Qed.

(** The row-level statement: the index drawn is in range and its scaled
    logit is one of the [k] largest scaled logits of the row. *)
Lemma sample_row_among_topk (k : nat) (t : R) (row : list float) (qs : list R) :
  Forall (scalable t) row -> (0 < t)%R -> 1 <= k <= length row ->
  Forall (fun q => 0 < q)%R qs -> length qs = length row ->
  let scaled := map (fun x => Float.div x (Fin t)) row in
  let i := sample_row k (Fin t) row (map Fin qs) in
  i < length row /\
  In (nth i scaled NaN) (firstn k (Torch.sort_desc scaled)).
Proof.
  intros Hrow Ht Hk Hq Hlen; cbv zeta; unfold sample_row.
  set (scaled := map (fun x => Float.div x (Fin t)) row).
  assert (Hscaled : Forall finite scaled).
  { unfold scaled; apply Forall_map; eapply Forall_impl; [|exact Hrow].
    intros x (a & -> & Ha); rewrite div_in_range by lra; now eexists. }
  assert (Hlen_s : length scaled = length row) by (unfold scaled; apply length_map).
  set (kth := nth (k - 1) (Torch.sort_desc scaled) NaN).
  set (scores := map (fun x => if Float.ltb x kth then NInf else x) scaled).
  assert (Hscores : Forall score scores).
  { unfold scores; apply Forall_map; eapply Forall_impl; [|exact Hscaled].
    intros x Hx; destruct (Float.ltb x kth); [now left|now right]. }
  assert (Hkept : Exists finite scores).
  { destruct (@kth_below_some scaled k Hscaled) as (x & Hin & Hge); [lia|].
    fold kth in Hge.
    apply Exists_exists; exists x; split.
    - unfold scores; apply in_map_iff; exists x; split; [|assumption].
      now rewrite (fge_not_ltb Hge).
    - rewrite Forall_forall in Hscaled; auto. }
  pose proof (log_softmax_row_masked_alike Hscores Hkept) as Hls.
  destruct (@softmax_row_weighs (Torch.log_softmax_row scores)) as (ps & Eps & Hps).
  { eapply masked_alike_score; eassumption. }
  { eapply masked_alike_some_finite; eassumption. }
  pose proof (weighs_masked_alike Hls Hps) as Hw.
  assert (Hlen_p : length ps = length row).
  { rewrite <- (Forall2_length Hw); unfold scores; now rewrite length_map. }
  destruct (@divide_by_noise scores ps qs Hw Hq) as (rs & Ers & Hrs); [lia|].
  rewrite Eps, Ers.
  assert (Hlen_r : length rs = length row).
  { rewrite <- (Forall2_length Hrs); unfold scores; now rewrite length_map. }
  (* the winner has a positive ratio, hence was not masked *)
  destruct (@argmax_of_quotients rs (weighs_nonneg Hrs) (weighs_some_positive Hrs Hkept))
    as [Hi Hpos]; cbv zeta in Hi, Hpos.
  set (i := Torch.argmax_row (map Float.of_real rs)) in *.
  split; [lia|].
  assert (Hwi : weighs (nth i scores NaN) (nth i rs 0%R)).
  { apply Forall2_nth; [assumption|]; unfold scores; rewrite length_map; lia. }
  assert (Hfin_i : finite (nth i scaled NaN)).
  { rewrite Forall_forall in Hscaled; apply Hscaled, nth_In; lia. }
  assert (Hnot : Float.ltb (nth i scaled NaN) kth = false).
  { destruct (Float.ltb (nth i scaled NaN) kth) eqn:E; [|reflexivity].
    exfalso.
    assert (Es : nth i scores NaN = NInf).
    { unfold scores.
      rewrite (@nth_map_in _ _ (fun x => if Float.ltb x kth then NInf else x) scaled i NaN NaN)
        by lia.
      now rewrite E. }
    rewrite Es in Hwi; destruct Hwi as [[_ H0]|[(a & Ha) _]]; [lra|discriminate]. }
  apply in_topk; [assumption|lia|apply nth_In; lia|].
  apply not_ltb_fge; [assumption| |assumption].
  assert (Hf : Forall finite (Torch.sort_desc scaled))
    by (apply (Permutation_Forall (Permutation_sym (sort_desc_perm scaled))); assumption).
  rewrite Forall_forall in Hf; apply Hf, nth_In; rewrite sort_desc_length; lia.
Qed.

(** ** From rows to tensors *)

Lemma numel_app (s1 s2 : list nat) : numel (s1 ++ s2) = numel s1 * numel s2.
Proof.
  induction s1 as [|a s1 IH].
  - change (numel s2 = 1 * numel s2); lia.
  - change (a * numel (s1 ++ s2) = a * numel s1 * numel s2).
    rewrite IH; apply Nat.mul_assoc.
Qed.

Lemma numel_snoc (lead : list nat) (v : nat) : numel (lead ++ [v]) = numel lead * v.
Proof. rewrite numel_app; cbn; lia. Qed.

Lemma rows_of_concat {A} (lead : list nat) (v : nat) (rows : list (list A)) :
  length rows = numel lead -> Forall (fun r => length r = v) rows ->
  Torch.rows_of (Tensor (lead ++ [v]) (concat rows)) = rows.
Proof.
  intros Hn Hv; unfold Torch.rows_of, last_dim; cbn [shape data].
  rewrite last_last, removelast_last, <- Hn; now apply chunks_concat.
Qed.

Lemma rows_of_wf {A} (t : tensor A) (lead : list nat) (v : nat) :
  shape t = lead ++ [v] -> wf t ->
  length (Torch.rows_of t) = numel lead /\
  Forall (fun r => length r = v) (Torch.rows_of t) /\
  data t = concat (Torch.rows_of t).
Proof.
  unfold wf, Torch.rows_of, last_dim; intros ->; rewrite numel_snoc, last_last, removelast_last.
  intros H; split; [apply chunks_length|]; split.
  - now apply chunks_rows_length.
  - symmetry; now apply concat_chunks.
Qed.

Lemma combine_app {A B} (xs xs' : list A) (ys ys' : list B) :
  length xs = length ys ->
  combine xs ys ++ combine xs' ys' = combine (xs ++ xs') (ys ++ ys').
Proof.
  revert ys; induction xs as [|x xs IH]; intros [|y ys] H; try discriminate; cbn;
    [reflexivity|].
  f_equal; apply IH; now injection H.
Qed.

Lemma combine_concat {A B} (xs : list (list A)) (ys : list (list B)) :
  Forall2 (fun x y => length x = length y) xs ys ->
  combine (concat xs) (concat ys)
  = concat (map (fun xy => combine (fst xy) (snd xy)) (combine xs ys)).
Proof.
  induction 1 as [|x y xs ys Hxy _ IH]; cbn; [reflexivity|].
  now rewrite <- combine_app, IH.
Qed.

Lemma Forall2_uniform {A B} (v : nat) (xs : list (list A)) (ys : list (list B)) :
  length xs = length ys ->
  Forall (fun r => length r = v) xs -> Forall (fun r => length r = v) ys ->
  Forall2 (fun x y => length x = length y) xs ys.
Proof.
  intros Hlen Hx; revert ys Hlen; induction Hx as [|x xs Hx _ IH];
    intros [|y ys] Hlen Hy; try discriminate; constructor.
  - apply Forall_cons_iff in Hy; destruct Hy as [Hy _]; congruence.
  - apply IH; [now injection Hlen|now apply Forall_cons_iff in Hy].
Qed.

Lemma map_combine_repeat {A B C} (f : A -> B -> C) (r : list A) (c : B) :
  map (fun ab => f (fst ab) (snd ab)) (combine r (repeat c (length r)))
  = map (fun a => f a c) r.
Proof. induction r as [|a r IH]; cbn; [reflexivity|now rewrite IH]. Qed.

Lemma pad_shape_same (s s' : list nat) : length s' = length s -> pad_shape (length s) s' = s'.
Proof. intros H; unfold pad_shape; now rewrite H, Nat.sub_diag. Qed.

Lemma expand_data_same {A} (s : list nat) (l : list A) :
  length l = numel s -> Torch.expand_data s s l = l.
Proof.
  revert l; induction s as [|n s IH]; intros l H; [reflexivity|].
  cbn [Torch.expand_data]; rewrite Nat.eqb_refl.
  cbn [numel fold_right] in H; fold (numel s) in H.
  rewrite <- (concat_chunks (numel s) n l) at 2 by lia.
  f_equal.
  pose proof (chunks_rows_length (numel s) n l ltac:(lia)) as Hr.
  induction Hr as [|r rs Hr _ IHr]; cbn; [reflexivity|].
  now rewrite IH, IHr.
Qed.

Lemma expand_data_column {A} (lead : list nat) (v : nat) (l : list A) :
  length l = numel lead ->
  Torch.expand_data (lead ++ [1]) (lead ++ [v]) l = flat_map (fun x => repeat x v) l.
Proof.
  revert l; induction lead as [|n lead IH]; intros l H.
  - cbn in H; destruct l as [|x [|]]; try discriminate.
    cbn [app Torch.expand_data numel fold_right chunks firstn skipn map concat flat_map].
    rewrite !app_nil_r.
    destruct (Nat.eqb_spec 1 v) as [<-|Hv]; [reflexivity|].
    clear Hv; induction v as [|v IHv]; cbn; [reflexivity|now rewrite IHv].
  - cbn [app Torch.expand_data]; rewrite Nat.eqb_refl, numel_snoc, Nat.mul_1_r.
    cbn [numel fold_right] in H; fold (numel lead) in H.
    rewrite <- (concat_chunks (numel lead) n l) at 2 by lia.
    pose proof (chunks_rows_length (numel lead) n l ltac:(lia)) as Hr.
    induction Hr as [|r rs Hr _ IHr]; cbn; [reflexivity|].
    now rewrite IH, IHr, flat_map_app.
Qed.

Lemma broadcast_shapes_column (lead : list nat) (v : nat) :
  broadcast_shapes (lead ++ [v]) (lead ++ [1]) = Some (lead ++ [v]).
Proof.
  unfold broadcast_shapes; rewrite !rev_app_distr; cbn [rev app broadcast_rev].
  rewrite broadcast_rev_same.
  destruct (v =? 1) eqn:E; cbn [option_map rev Nat.eqb]; now rewrite rev_involutive.
Qed.

Lemma broadcast2_same {A B C} (f : A -> B -> C) (x : tensor A) (y : tensor B) :
  shape y = shape x -> wf x -> wf y ->
  Torch.broadcast2 f x y
  = Ok (Tensor (shape x)
          (map (fun ab => f (fst ab) (snd ab)) (combine (data x) (data y)))).
Proof.
  unfold wf; intros Hs Hx Hy; unfold Torch.broadcast2, Torch.expand.
  rewrite Hs, broadcast_shapes_same in *; cbn [data].
  rewrite !pad_shape_same, !expand_data_same by auto; try reflexivity.
Qed.

Lemma broadcast2_column {A B C} (f : A -> B -> C) (x : tensor A) (y : tensor B)
    (lead : list nat) (v : nat) :
  shape x = lead ++ [v] -> shape y = lead ++ [1] -> wf x -> wf y ->
  Torch.broadcast2 f x y
  = Ok (Tensor (lead ++ [v])
          (map (fun ab => f (fst ab) (snd ab))
             (combine (data x) (flat_map (fun b => repeat b v) (data y))))).
Proof.
  unfold wf; intros Hx Hy Wx Wy; unfold Torch.broadcast2, Torch.expand.
  rewrite Hx, Hy in *; rewrite broadcast_shapes_column; cbn [data].
  rewrite !pad_shape_same by (rewrite !length_app; reflexivity).
  rewrite expand_data_same by assumption.
  rewrite expand_data_column by (rewrite numel_snoc in Wy; lia).
  reflexivity.
Qed.

Lemma combine_rows_column {A B} (v : nat) (rows : list (list A)) (g : list A -> B) :
  Forall (fun r => length r = v) rows ->
  combine (concat rows) (flat_map (fun b => repeat b v) (map g rows))
  = concat (map (fun r => combine r (repeat (g r) (length r))) rows).
Proof.
  induction 1 as [|r rows Hr _ IH]; cbn; [reflexivity|].
  rewrite <- combine_app by (now rewrite repeat_length).
  now rewrite IH, Hr.
Qed.

Lemma map_seq_rows {B} (f : nat -> B) (v n start : nat) :
  map f (seq start (n * v))
  = concat (map (fun r => map f (seq (start + r * v) v)) (seq 0 n)).
Proof.
  revert start; induction n as [|n IH]; intros start; [reflexivity|].
  cbn [Nat.mul]; rewrite seq_app, map_app, IH.
  cbn [seq map concat]; rewrite Nat.mul_0_l, Nat.add_0_r; f_equal.
  rewrite <- seq_shift, map_map; f_equal; apply map_ext; intros r.
  do 2 f_equal; cbn; lia.
Qed.

(** ** The steps of [sample_topk] on a tensor given by its rows *)

Lemma wrap_index_last (n : nat) : 1 <= n -> wrap_index n (-1) = Some (n - 1).
Proof.
  intros H; unfold wrap_index.
  change (0 <=? -1)%Z with false; cbn [andb].
  destruct (Z.leb_spec (- Z.of_nat n) (-1)); [|lia].
  change (-1 <? 0)%Z with true; cbn [andb]; f_equal; lia.
Qed.

Lemma wf_rows {A} (lead : list nat) (v : nat) (rows : list (list A)) :
  length rows = numel lead -> Forall (fun r => length r = v) rows ->
  wf (Tensor (lead ++ [v]) (concat rows)).
Proof.
  intros Hn Hv; unfold wf; cbn [shape data].
  now rewrite numel_snoc, (length_concat_uniform Hv), Hn.
Qed.

Lemma Forall_map_length {A B} (f : list A -> list B) (v v' : nat) (rows : list (list A)) :
  (forall r, length r = v -> length (f r) = v') ->
  Forall (fun r => length r = v) rows -> Forall (fun r => length r = v') (map f rows).
Proof.
  intros Hf H; apply Forall_map; eapply Forall_impl; [|exact H]; exact Hf.
Qed.

Lemma snoc_not_nil {A} (l : list A) (x : A) : l ++ [x] <> [].
Proof. destruct l; discriminate. Qed.

Lemma topk_values_rows (lead : list nat) (v : nat) (k : Z) (rows : list (list float)) :
  length rows = numel lead -> Forall (fun r => length r = v) rows ->
  (0 <= k <= Z.of_nat v)%Z ->
  Torch.topk_values k (Tensor (lead ++ [v]) (concat rows))
  = Ok (Tensor (lead ++ [Z.to_nat k])
          (concat (map (fun r => firstn (Z.to_nat k) (Torch.sort_desc r)) rows))).
Proof.
  intros Hn Hv Hk; unfold Torch.topk_values.
  rewrite rows_of_concat by assumption; cbn [shape]; unfold last_dim; rewrite last_last.
  destruct (Z.leb_spec 0 k); [|lia]; destruct (Z.leb_spec k (Z.of_nat v)); [|lia].
  cbn [andb]; rewrite removelast_last.
  destruct (lead ++ [v]) eqn:E; [now apply snoc_not_nil in E|reflexivity].
Qed.

Lemma firstn_one_skipn {A} (i : nat) (l : list A) (d : A) :
  i < length l -> firstn 1 (skipn i l) = [nth i l d].
Proof.
  revert i; induction l as [|x l IH]; intros i Hi; cbn in Hi; [lia|].
  destruct i; cbn; [reflexivity|apply IH; lia].
Qed.

Lemma concat_map_singleton {A B} (h : A -> B) (l : list A) :
  concat (map (fun x => [h x]) l) = map h l.
Proof. induction l as [|x l IH]; cbn; [reflexivity|now rewrite IH]. Qed.

(** [v[..., -1]] on the top-[k] values: the [k]-th largest of every row. *)
Lemma select_kth_rows (lead : list nat) (k : nat) (rows : list (list float)) :
  length rows = numel lead -> Forall (fun r => k <= length r) rows -> 1 <= k ->
  let v := Tensor (lead ++ [k])
             (concat (map (fun r => firstn k (Torch.sort_desc r)) rows)) in
  Torch.select (rank v - 1) (-1) v
  = Ok (Tensor lead (map (fun r => nth (k - 1) (Torch.sort_desc r) NaN) rows)).
Proof.
  intros Hn Hk Hk1; cbv zeta; unfold Torch.select, rank; cbn [shape data].
  rewrite length_app; cbn [length].
  replace (length lead + 1 - 1) with (length lead) by lia.
  destruct (Nat.ltb_spec (length lead) (length lead + 1)); [|lia].
  unfold size_at, inner, outer.
  rewrite app_nth2, Nat.sub_diag by lia; cbn [nth].
  rewrite skipn_all2 by (rewrite length_app; cbn; lia).
  rewrite firstn_app, Nat.sub_diag, firstn_all.
  change (firstn 0 [k]) with (@nil nat); change (numel []) with 1.
  rewrite !app_nil_r, wrap_index_last, !Nat.mul_1_r by assumption.
  rewrite <- Hn.
  assert (Hu : Forall (fun r => length r = k)
                 (map (fun r => firstn k (Torch.sort_desc r)) rows)).
  { apply Forall_map; eapply Forall_impl; [|exact Hk]; cbn; intros r Hr.
    rewrite length_firstn, sort_desc_length; lia. }
  rewrite <- (length_map (fun r => firstn k (Torch.sort_desc r)) rows).
  rewrite chunks_concat by assumption.
  rewrite map_map; do 2 f_equal.
  rewrite <- (concat_map_singleton (fun r => nth (k - 1) (Torch.sort_desc r) NaN) rows).
  f_equal; apply map_ext_in; intros r Hr.
  rewrite Forall_forall in Hk; specialize (Hk r Hr).
  rewrite (@firstn_one_skipn _ (k - 1) _ NaN)
    by (rewrite length_firstn, sort_desc_length; lia).
  rewrite nth_firstn; destruct (Nat.ltb_spec (k - 1) k); [reflexivity|lia].
Qed.

Lemma unsqueeze_last {A} (lead : list nat) (l : list A) :
  Torch.unsqueeze (-1) (Tensor lead l) = Ok (Tensor (lead ++ [1]) l).
Proof.
  unfold Torch.unsqueeze, rank; cbn [shape data].
  rewrite wrap_index_last by lia; cbn [Nat.sub].
  now rewrite Nat.sub_0_r, firstn_all, skipn_all.
Qed.

Lemma compare_with_kth_rows {C} (f : float -> float -> C) (lead : list nat) (v : nat)
    (rows : list (list float)) (g : list float -> float) :
  length rows = numel lead -> Forall (fun r => length r = v) rows ->
  Torch.broadcast2 f (Tensor (lead ++ [v]) (concat rows)) (Tensor (lead ++ [1]) (map g rows))
  = Ok (Tensor (lead ++ [v]) (concat (map (fun r => map (fun x => f x (g r)) r) rows))).
Proof.
  intros Hn Hv.
  rewrite (@broadcast2_column _ _ _ f _ _ lead v); try reflexivity.
  - cbn [data]; rewrite combine_rows_column by assumption.
    rewrite concat_map, map_map; do 3 f_equal.
    apply map_ext; intros r; apply map_combine_repeat.
  - now apply wf_rows.
  - unfold wf; cbn [shape data]; rewrite length_map, numel_snoc; lia.
Qed.

Lemma zip_rows {A B C} (f : A -> B -> C) (lead : list nat) (v : nat)
    (xs : list (list A)) (ys : list (list B)) :
  length xs = numel lead -> length ys = numel lead ->
  Forall (fun r => length r = v) xs -> Forall (fun r => length r = v) ys ->
  Torch.broadcast2 f (Tensor (lead ++ [v]) (concat xs)) (Tensor (lead ++ [v]) (concat ys))
  = Ok (Tensor (lead ++ [v])
          (concat (map (fun xy => map (fun ab => f (fst ab) (snd ab))
                                    (combine (fst xy) (snd xy)))
                     (combine xs ys)))).
Proof.
  intros Hx Hy Hvx Hvy.
  rewrite broadcast2_same; try reflexivity; try now apply wf_rows.
  cbn [shape data]; rewrite combine_concat by (eapply Forall2_uniform; eauto; congruence).
  now rewrite concat_map, map_map.
Qed.

Lemma combine_map_r {A B} (l : list A) (p : A -> B) :
  combine l (map p l) = map (fun a => (a, p a)) l.
Proof. induction l as [|a l IH]; cbn; [reflexivity|now rewrite IH]. Qed.

Lemma combine_map_self {A B} (rows : list A) (p : A -> B) :
  combine rows (map p rows) = map (fun r => (r, p r)) rows.
Proof. apply combine_map_r. Qed.

Lemma rowwise_rows {B} (f : list float -> list B) (lead : list nat) (v : nat)
    (rows : list (list float)) :
  length rows = numel lead -> Forall (fun r => length r = v) rows ->
  Torch.rowwise f (Tensor (lead ++ [v]) (concat rows))
  = Tensor (lead ++ [v]) (concat (map f rows)).
Proof.
  intros Hn Hv; unfold Torch.rowwise; now rewrite rows_of_concat.
Qed.

Lemma argmax_rows (lead : list nat) (v : nat) (rows : list (list float)) :
  length rows = numel lead -> Forall (fun r => length r = v) rows -> 1 <= v ->
  Torch.argmax (Tensor (lead ++ [v]) (concat rows))
  = Ok (Tensor (lead ++ [1]) (map (fun r => Z.of_nat (Torch.argmax_row r)) rows)).
Proof.
  intros Hn Hv H1; unfold Torch.argmax.
  rewrite rows_of_concat by assumption; cbn [shape]; unfold last_dim; rewrite last_last.
  destruct (Nat.eqb_spec v 0); [lia|]; rewrite removelast_last.
  destruct (lead ++ [v]) eqn:E; [now apply snoc_not_nil in E|reflexivity].
Qed.

Lemma masked_fill_rows (lead : list nat) (v : nat) (rows : list (list float))
    (q : list float -> float -> bool) (value : float) :
  length rows = numel lead -> Forall (fun r => length r = v) rows ->
  Torch.masked_fill (Tensor (lead ++ [v]) (concat rows))
    (Tensor (lead ++ [v]) (concat (map (fun r => map (q r) r) rows))) value
  = Ok (Tensor (lead ++ [v])
          (concat (map (fun r => map (fun x => if q r x then value else x) r) rows))).
Proof.
  intros Hn Hv; unfold Torch.masked_fill.
  rewrite zip_rows; try assumption.
  - cbn [rbind shape].
    assert (E : shape_eqb (lead ++ [v]) (lead ++ [v]) = true) by now apply shape_eqb_eq.
    rewrite E, combine_map_r, map_map; do 3 f_equal.
    apply map_ext; intros r; cbn [fst snd].
    now rewrite combine_map_r, map_map.
  - now rewrite length_map.
  - apply Forall_map; eapply Forall_impl; [|exact Hv]; cbn; intros r Hr.
    now rewrite length_map.
Qed.

Lemma tensor_of_rows {A} (t : tensor A) (lead : list nat) (v : nat) :
  shape t = lead ++ [v] -> wf t -> t = Tensor (lead ++ [v]) (concat (Torch.rows_of t)).
Proof.
  intros Hs Hw; destruct (@rows_of_wf _ t lead v Hs Hw) as (_ & _ & Hd).
  destruct t as [s d]; cbn [shape data] in *; now rewrite <- Hd, Hs.
Qed.

Lemma Forall_concat_rows {A} (P : A -> Prop) (rows : list (list A)) :
  Forall P (concat rows) -> Forall (Forall P) rows.
Proof.
  induction rows as [|r rows IH]; cbn; intros H; constructor.
  - apply Forall_app in H; exact (proj1 H).
  - apply IH; apply Forall_app in H; exact (proj2 H).
Qed.

(** What [sample_topk] computes on logits that stay finite when they are
    scaled: one index per row, the one [sample_row] describes, drawn among
    the row's [topk] largest scaled logits. *)
Lemma sample_topk_on_finite_rows
    (logits : tensor float) (lead : list nat) (v : nat) (topk : Z) (t : R) (w : world) :
  shape logits = lead ++ [v] ->
  wf logits ->
  Forall (scalable t) (data logits) ->
  (0 < t)%R ->
  (1 <= topk <= Z.of_nat v)%Z ->
  (forall i, (0 < exp_noise i)%R) ->
  exists sample,
    sample_topk logits topk (Fin t) w
    = (Ok sample, set_rng (rng w + numel lead * v) w) /\
    shape sample = lead ++ [1] /\
    length (data sample) = numel lead /\
    forall r, r < numel lead ->
      let row := nth r (Torch.rows_of logits) [] in
      let noise := map (fun i => Fin (exp_noise i)) (seq (rng w + r * v) v) in
      let scaled := map (fun x => Float.div x (Fin t)) row in
      let i := sample_row (Z.to_nat topk) (Fin t) row noise in
      nth r (data sample) 0%Z = Z.of_nat i /\
      i < v /\
      In (nth i scaled NaN) (firstn (Z.to_nat topk) (Torch.sort_desc scaled)).
Proof.
  intros Hs Hw Hfin Ht Hk Hq.
  destruct (@rows_of_wf _ logits lead v Hs Hw) as (Hn & Hv & Hd).
  rewrite Hd in Hfin; apply Forall_concat_rows in Hfin.
  pose proof (@tensor_of_rows _ logits lead v Hs Hw) as Et.
  set (rows := Torch.rows_of logits) in *; clearbody rows; clear Hs Hw Hd.
  subst logits.
  set (k := Z.to_nat topk).
  set (scale := fun x => Float.div x (Fin t)).
  set (kth := fun r : list float => nth (k - 1) (Torch.sort_desc r) NaN).
  set (mask := fun r : list float => map (fun x => if Float.ltb x (kth r) then NInf else x) r).
  set (probs := fun r : list float =>
                  Torch.softmax_row (Torch.log_softmax_row (mask (map scale r)))).
  set (noise := fun r => map (fun i => Fin (exp_noise i)) (seq (rng w + r * v) v)).
  set (ratio := fun pq : list float * list float =>
                  map (fun ab => Float.div (fst ab) (snd ab)) (combine (fst pq) (snd pq))).
  set (picks := map (fun r => Z.of_nat (Torch.argmax_row r))
                  (map ratio (combine (map probs rows) (map noise (seq 0 (numel lead)))))).
  exists (Tensor (lead ++ [1]) picks).
  assert (Hlen_picks : length picks = numel lead).
  { unfold picks; rewrite !length_map, length_combine, !length_map, length_seq; lia. }
  split; [|split; [reflexivity|split; [exact Hlen_picks|]]].
  - unfold sample_topk; cbv zeta.
    assert (E0 : Torch.tmap scale (Tensor (lead ++ [v]) (concat rows))
                 = Tensor (lead ++ [v]) (concat (map (map scale) rows))).
    { unfold Torch.tmap; cbn [shape data]; now rewrite concat_map. }
    fold scale; rewrite E0.
    assert (Hn1 : length (map (map scale) rows) = numel lead) by now rewrite length_map.
    assert (Hv1 : Forall (fun r => length r = v) (map (map scale) rows)).
    { apply Forall_map_length with (v := v); [|assumption].
      intros r Hr; now rewrite length_map. }
    erewrite bind_lift_ok by (apply topk_values_rows; [assumption|assumption|lia]).
    fold k.
    erewrite bind_lift_ok.
    2:{ apply select_kth_rows; [assumption| |lia].
        eapply Forall_impl; [|exact Hv1]; cbn; intros r ->; lia. }
    erewrite bind_lift_ok by apply unsqueeze_last.
    erewrite bind_lift_ok by (apply compare_with_kth_rows; assumption).
    erewrite bind_lift_ok
      by (apply (@masked_fill_rows lead v _ (fun r x => Float.ltb x (kth r))); assumption).
    fold kth.
    change (map (fun r => map (fun x => if Float.ltb x (kth r) then NInf else x) r)
              (map (map scale) rows)) with (map mask (map (map scale) rows)).
    unfold Torch.log_softmax, Torch.softmax.
    rewrite rowwise_rows; [|now rewrite length_map|].
    2:{ apply Forall_map_length with (v := v); [|assumption].
        intros r Hr; unfold mask; now rewrite length_map. }
    rewrite rowwise_rows; [|now rewrite !length_map|].
    2:{ apply Forall_map_length with (v := v).
        - intros r Hr; unfold Torch.log_softmax_row; now rewrite length_map.
        - apply Forall_map_length with (v := v); [|assumption].
          intros r Hr; unfold mask; now rewrite length_map. }
    rewrite !map_map.
    change (map (fun x => Torch.softmax_row (Torch.log_softmax_row (mask (map scale x)))) rows)
      with (map probs rows).
    assert (Hvp : Forall (fun r => length r = v) (map probs rows)).
    { apply Forall_map_length with (v := v); [|assumption].
      intros r Hr; unfold probs, Torch.softmax_row, Torch.log_softmax_row, mask.
      now rewrite !length_map. }
    unfold _multinomial_sample_one_no_sync, bind at 1, exponential_like.
    cbn [shape data].
    rewrite (length_concat_uniform Hvp), length_map, Hn, map_seq_rows.
    fold noise.
    change (map (fun r => map (fun i => Fin (exp_noise i)) (seq (rng w + r * v) v)))
      with (map noise).
    erewrite bind_lift_ok.
    2:{ apply zip_rows; try assumption.
        - now rewrite length_map.
        - now rewrite length_map, length_seq.
        - apply Forall_map, Forall_forall; intros r _; unfold noise.
          now rewrite length_map, length_seq. }
    fold ratio.
    unfold lift; rewrite argmax_rows; [reflexivity| | |lia].
    + rewrite length_map, length_combine, !length_map, length_seq; lia.
    + apply Forall_map, Forall_forall; intros [p q] Hin; unfold ratio; cbn [fst snd].
      rewrite length_map, length_combine.
      apply in_combine_l in Hin as Hp; apply in_combine_r in Hin as Hq'.
      rewrite Forall_forall in Hvp; rewrite (Hvp p Hp).
      apply in_map_iff in Hq'; destruct Hq' as (r & <- & _); unfold noise.
      rewrite length_map, length_seq; lia.
  - intros r Hr; cbv zeta.
    assert (Hrow : Forall (scalable t) (nth r rows [])).
    { rewrite Forall_forall in Hfin; apply Hfin, nth_In; lia. }
    assert (Hlen : length (nth r rows []) = v).
    { rewrite Forall_forall in Hv; apply Hv, nth_In; lia. }
    assert (Enoise : noise r = map Fin (map exp_noise (seq (rng w + r * v) v)))
      by (unfold noise; now rewrite map_map).
    fold (noise r); fold k; fold scale.
    destruct (@sample_row_among_topk k t (nth r rows [])
                (map exp_noise (seq (rng w + r * v) v))) as [Hi Hin]; try assumption.
    + subst k; lia.
    + apply Forall_map, Forall_forall; intros i _; apply Hq.
    + now rewrite length_map, length_seq.
    + cbv zeta in Hi, Hin; rewrite <- Enoise in Hi, Hin.
      split; [|split; [lia|exact Hin]].
      cbn [data]; unfold picks.
      rewrite (@nth_map_in _ _ (fun r => Z.of_nat (Torch.argmax_row r)) _ r [] 0%Z)
        by (rewrite length_map, length_combine, !length_map, length_seq; lia).
      rewrite (@nth_map_in _ _ ratio _ r ([], []) [])
        by (rewrite length_combine, !length_map, length_seq; lia).
      rewrite combine_nth by (now rewrite !length_map, length_seq).
      rewrite (@nth_map_in _ _ probs rows r [] []) by lia.
      rewrite (@nth_map_in _ _ noise (seq 0 (numel lead)) r 0 []) by (rewrite length_seq; lia).
      rewrite seq_nth by lia; cbn [Nat.add].
      reflexivity.
Qed.


(** * What the batch loop hands to [torch.multinomial] *)

Lemma tmap_div_finite (t : R) (s : list nat) (l : list R) :
  t <> 0%R ->
  Forall (fun a => - Float.huge < a / t < Float.huge)%R l ->
  Torch.tmap (fun y => Float.div y (Fin t)) (Tensor s (map Fin l))
  = Tensor s (map (fun a => Fin (a / t)) l).
Proof.
  intros Ht Hl; unfold Torch.tmap; cbn [shape data]; f_equal.
  rewrite map_map; apply map_ext_in; intros a Ha.
  rewrite Forall_forall in Hl; now apply div_in_range, Hl.
Qed.

Lemma valid_probs_weighs (ms : list float) (ps : list R) :
  Forall2 weighs ms ps -> Exists finite ms -> valid_probs (map Fin ps) = true.
Proof.
  intros Hw Hex; unfold valid_probs; apply andb_true_intro; split.
  - apply forallb_forall; intros p Hin; apply in_map_iff in Hin as (r & <- & Hr).
    pose proof (weighs_nonneg Hw) as Hn; rewrite Forall_forall in Hn.
    now rewrite Rltb_false by (apply Hn; assumption).
  - rewrite sum_Fin; cbn [Float.ltb Float.zero]; apply Rltb_true.
    eapply weighs_sum_pos; eassumption.
Qed.

Lemma valid_probs_softmax_row (ls : list float) :
  Forall score ls -> Exists finite ls -> valid_probs (Torch.softmax_row ls) = true.
Proof.
  intros Hs Hex; destruct (softmax_row_weighs Hs Hex) as (ps & -> & Hw).
  eapply valid_probs_weighs; eassumption.
Qed.

(** On a matrix whose rows each keep a finite score, the softmax is a
    distribution in every row and [torch.multinomial] draws one index
    per row. *)
Lemma multinomial_softmax (x : tensor float) (b v : nat) (w : world) :
  shape x = [b; v] -> wf x -> 1 <= v ->
  Forall (fun row => Forall score row /\ Exists finite row) (Torch.rows_of x) ->
  multinomial (Torch.softmax x) w
  = (Ok (Tensor [b; 1] (map multinomial_pick (seq (rng w) b))), set_rng (rng w + b) w).
Proof.
  intros Hs Hw Hv Hrows.
  destruct (@rows_of_wf _ x [b] v Hs Hw) as (Hn & Hl & _).
  unfold multinomial, Torch.softmax, Torch.rowwise; cbn [shape]; rewrite Hs.
  change (last_dim [b; v]) with v.
  destruct (Nat.eqb_spec v 0) as [->|_]; [lia|].
  change [b; v] with ([b] ++ [v]).
  rewrite rows_of_concat.
  - replace (forallb valid_probs (map Torch.softmax_row (Torch.rows_of x))) with true.
    + rewrite removelast_last; cbn [numel fold_right app]; now rewrite Nat.mul_1_r.
    + symmetry; apply forallb_forall; intros p Hin.
      apply in_map_iff in Hin as (row & <- & Hin).
      rewrite Forall_forall in Hrows; destruct (Hrows _ Hin).
      now apply valid_probs_softmax_row.
  - now rewrite length_map.
  - apply Forall_map; eapply Forall_impl; [|exact Hl].
    intros row Hr; unfold Torch.softmax_row; now rewrite length_map.
Qed.

(** * Beyond the round trip: what indexing the mask gathers *)

Lemma wrap_index_mod (n : nat) (p : Z) :
  (- Z.of_nat n <= p < Z.of_nat n)%Z ->
  wrap_index n p = Some (Z.to_nat (p mod Z.of_nat n)) /\ Z.to_nat (p mod Z.of_nat n) < n.
Proof.
  intros H; unfold wrap_index.
  destruct (Z.leb_spec 0 p) as [H0|H0].
  - destruct (Z.ltb_spec p (Z.of_nat n)); [|lia]; cbn [andb].
    rewrite Z.mod_small by lia; split; [reflexivity|lia].
  - cbn [andb].
    destruct (Z.leb_spec (- Z.of_nat n) p); [|lia].
    destruct (Z.ltb_spec p 0); [|lia]; cbn [andb].
    replace (p mod Z.of_nat n)%Z with (p + Z.of_nat n)%Z; [split; [reflexivity|lia]|].
    apply Z.mod_unique with (q := (-1)%Z); lia.
Qed.

Lemma wrap_index_none (n : nat) (p : Z) :
  (p < - Z.of_nat n \/ Z.of_nat n <= p)%Z -> wrap_index n p = None.
Proof.
  intros H; unfold wrap_index.
  destruct (Z.leb_spec 0 p), (Z.ltb_spec p (Z.of_nat n)),
    (Z.leb_spec (- Z.of_nat n) p), (Z.ltb_spec p 0); cbn [andb]; try reflexivity; lia.
Qed.

(** [rmap] stops at the first element that fails. *)
Lemma rmap_raise {A B} (f : A -> Result B) (e : exn) (l : list A) :
  Forall (fun x => (exists y, f x = Ok y) \/ f x = Raise e) l ->
  Exists (fun x => f x = Raise e) l ->
  rmap f l = Raise e.
Proof.
  induction 1 as [|x l Hx _ IH]; intros Hex; [inversion Hex|].
  cbn [rmap]; destruct Hx as [(y & Ey)|Ey]; rewrite Ey; cbn [rbind]; [|reflexivity].
  inversion Hex as [? ? Hbad|? ? Htl]; subst; [congruence|].
  now rewrite IH.
Qed.

Lemma index_rows_gather {A} (t : tensor A) (n m : nat) (idx : tensor Z) :
  shape t = [n; m] ->
  Forall (fun p => (- Z.of_nat n <= p < Z.of_nat n)%Z) (data idx) ->
  Torch.index_rows t idx
  = Ok (Tensor (shape idx ++ [m])
          (concat (map (fun p => nth (Z.to_nat (p mod Z.of_nat n)) (Torch.rows_of t) [])
                     (data idx)))).
Proof.
  intros Hs Hp; unfold Torch.index_rows; rewrite Hs.
  cbn [numel fold_right]; rewrite Nat.mul_1_r.
  erewrite rmap_ok with
    (g := fun p => nth (Z.to_nat (p mod Z.of_nat n)) (Torch.rows_of t) []).
  - reflexivity.
  - intros p Hin; rewrite Forall_forall in Hp.
    destruct (@wrap_index_mod _ _ (Hp p Hin)) as [-> Hlt]; f_equal.
    unfold Torch.rows_of; rewrite Hs.
    change (last_dim [n; m]) with m.
    change (numel (removelast [n; m])) with (n * 1).
    rewrite nth_chunks by lia; reflexivity.
Qed.

(** X1: indexing a mask of [n] rows with positions that all lie in
    [-n, n) succeeds; the result has the shape of the positions followed
    by the row width, and holds for each position [p], in order, the
    mask's row number [p mod n]: a negative position counts from the
    last row, as Python indexing does. *)
Theorem index_causal_mask_gathers_rows
    (mask : tensor bool) (n m : nat) (input_pos : tensor Z) :
  shape mask = [n; m] ->
  Forall (fun p => (- Z.of_nat n <= p < Z.of_nat n)%Z) (data input_pos) ->
  _index_causal_mask mask input_pos
  = Ok (Tensor (shape input_pos ++ [m])
          (concat (map (fun p => nth (Z.to_nat (p mod Z.of_nat n)) (Torch.rows_of mask) [])
                     (data input_pos)))).
Proof. intros Hs Hp; exact (index_rows_gather mask input_pos Hs Hp). Qed.

Lemma index_rows_out_of_range {A} (t : tensor A) (n m : nat) (idx : tensor Z) :
  shape t = [n; m] ->
  Exists (fun p => (p < - Z.of_nat n \/ Z.of_nat n <= p)%Z) (data idx) ->
  Torch.index_rows t idx = Raise (Exn IndexError "index out of range").
Proof.
  intros Hs Hex; unfold Torch.index_rows; rewrite Hs.
  rewrite rmap_raise with (e := Exn IndexError "index out of range"); [reflexivity| |].
  - apply Forall_forall; intros p _.
    destruct (wrap_index n p); [left; eexists; reflexivity|now right].
  - eapply Exists_impl; [|exact Hex]; cbn; intros p Hp.
    now rewrite wrap_index_none.
Qed.

(** X2: a single position outside [-n, n) makes the lookup fail with an
    [IndexError], wherever it stands among the positions; a mask with
    fewer than two dimensions cannot be indexed at all. *)
Theorem index_causal_mask_rejects_positions_out_of_range
    (mask : tensor bool) (input_pos : tensor Z) :
  (forall n m,
     shape mask = [n; m] ->
     Exists (fun p => (p < - Z.of_nat n \/ Z.of_nat n <= p)%Z) (data input_pos) ->
     _index_causal_mask mask input_pos = Raise (Exn IndexError "index out of range")) /\
  (rank mask < 2 ->
   _index_causal_mask mask input_pos = Raise (too_many_indices (rank mask))).
Proof.
  split.
  - intros n m Hs Hex; exact (index_rows_out_of_range mask input_pos Hs Hex).
  - unfold _index_causal_mask, Torch.index_rows, rank.
    destruct (shape mask) as [|a [|b s]]; cbn; intros H; [reflexivity|reflexivity|lia].
Qed.

Lemma nth_concat_uniform {A} (size : nat) (rows : list (list A)) (i j : nat) (d : A) :
  Forall (fun r => length r = size) rows -> j < size ->
  nth (i * size + j) (concat rows) d = nth j (nth i rows []) d.
Proof.
  intros H; revert i; induction H as [|r rows Hr _ IH]; intros i Hj.
  - cbn [concat]; rewrite (nth_overflow []) by (cbn; lia).
    now destruct i, j.
  - destruct i as [|i]; cbn [concat nth].
    + cbn [Nat.mul Nat.add]; now rewrite app_nth1 by lia.
    + rewrite app_nth2 by (cbn; lia).
      replace (S i * size + j - length r) with (i * size + j) by (cbn; lia).
      now apply IH.
Qed.

(** The mask rows gathered for positions that are all within the mask. *)
Lemma causal_rows_gathered (seq_len : nat) (input_pos : tensor Z) :
  Forall (fun p => (0 <= p < Z.of_nat seq_len)%Z) (data input_pos) ->
  _index_causal_mask (Tensor [seq_len; seq_len] (concat (causal_rows seq_len))) input_pos
  = Ok (Tensor (shape input_pos ++ [seq_len])
          (concat (map (fun p => map (fun j => (Z.of_nat j <=? p)%Z) (seq 0 seq_len))
                     (data input_pos)))).
Proof.
  intros Hp; unfold _index_causal_mask.
  assert (Hr : Forall (fun p => (- Z.of_nat seq_len <= p < Z.of_nat seq_len)%Z)
                 (data input_pos))
    by (eapply Forall_impl; [|exact Hp]; cbn; lia).
  rewrite (@index_rows_gather _ (Tensor [seq_len; seq_len] (concat (causal_rows seq_len)))
             seq_len seq_len input_pos eq_refl Hr).
  cbn [shape]; do 3 f_equal.
  apply map_ext_in; intros p Hin; rewrite Forall_forall in Hp; specialize (Hp p Hin).
  change [seq_len; seq_len] with ([seq_len] ++ [seq_len]).
  rewrite rows_of_concat.
  - unfold causal_rows.
    rewrite Z.mod_small by lia.
    rewrite (@nth_map_in _ _ _ (seq 0 seq_len) (Z.to_nat p) 0 []) by (rewrite length_seq; lia).
    rewrite seq_nth by lia; cbn [Nat.add].
    apply map_ext; intros j.
    destruct (Nat.leb_spec j (Z.to_nat p)), (Z.leb_spec (Z.of_nat j) p); try reflexivity; lia.
  - rewrite causal_rows_length; cbn; lia.
  - apply causal_rows_width.
Qed.

(** X3: the mask built for [seq_len] positions and then indexed with
    positions in [0, seq_len) lets the [i]-th position [p] see exactly the
    positions [j <= p]: entry [(i, j)] of the result is [j <= p]. *)
Theorem indexed_causal_mask_sees_the_past (seq_len : nat) (input_pos : tensor Z) :
  Forall (fun p => (0 <= p < Z.of_nat seq_len)%Z) (data input_pos) ->
  exists mask r,
    _create_causal_mask seq_len = Ok mask /\
    _index_causal_mask mask input_pos = Ok r /\
    shape r = shape input_pos ++ [seq_len] /\
    forall i j, i < length (data input_pos) -> j < seq_len ->
      nth (i * seq_len + j) (data r) false
      = (Z.of_nat j <=? nth i (data input_pos) 0)%Z.
Proof.
  intros Hp; do 2 eexists.
  split; [apply create_causal_mask_rows|].
  split; [apply causal_rows_gathered; exact Hp|].
  split; [reflexivity|].
  intros i j Hi Hj; cbn [data].
  rewrite nth_concat_uniform; [|
    apply Forall_map, Forall_forall; intros p _; now rewrite length_map, length_seq|assumption].
  rewrite (@nth_map_in _ _ _ (data input_pos) i 0%Z []) by assumption.
  rewrite (@nth_map_in _ _ _ (seq 0 seq_len) j 0 false) by (rewrite length_seq; lia).
  now rewrite seq_nth by lia.
Qed.

(** * The backbone mask lookup of [forward] and [generate_frame] *)

Lemma forward_stops_at_the_mask_lookup
    (tokens : tensor Z) (tokens_mask : tensor bool) (input_pos : tensor Z)
    (temperature : float) (topk : Z) (w : world) (e : exn) :
  caches_enabled (backbone w) = true ->
  bind get_backbone_causal_mask
    (fun mask => lift (_index_causal_mask mask input_pos)) w = (Raise e, w) ->
  forward tokens tokens_mask input_pos w = (Raise e, w) /\
  (rank tokens = 3 ->
   generate_frame tokens tokens_mask input_pos temperature topk w = (Raise e, w)).
Proof.
  intros Hon Hlook.
  assert (Ha : assert_caches_enabled w = (Ok tt, w))
    by now rewrite assert_caches_enabled_spec, Hon.
  assert (Hrest : forall B (k : tensor bool -> M B),
            bind get_backbone_causal_mask
              (fun mask => bind (lift (_index_causal_mask mask input_pos)) k) w
            = (Raise e, w)).
  { intros B k; revert Hlook; unfold bind, get_backbone_causal_mask, get_buffer, lift.
    destruct (backbone_causal_mask w) as [m|]; cbn.
    - destruct (_index_causal_mask m input_pos); [discriminate|now intros [= <-]].
    - now intros [= <-]. }
  split.
  - unfold forward; rewrite (bind_ok _ _ _ Ha); apply Hrest.
  - intros Hr; destruct (size3_rank tokens Hr) as (b & s & c & Hs).
    unfold generate_frame; rewrite (@bind_lift_ok _ _ _ _ _ _ Hs).
    rewrite (bind_ok _ _ _ Ha); apply Hrest.
Qed.

(** X4: once the caches are enabled and a backbone mask of [n] rows is
    registered, an [input_pos] holding any position outside [-n, n) makes
    [forward], and [generate_frame] on a three-dimensional token tensor,
    fail with an [IndexError] before the backbone is called: the state is
    left as it was. *)
Theorem position_outside_the_mask_is_rejected
    (tokens : tensor Z) (tokens_mask : tensor bool) (input_pos : tensor Z)
    (temperature : float) (topk : Z) (w : world) (mask : tensor bool) (n m : nat) :
  caches_enabled (backbone w) = true ->
  backbone_causal_mask w = Some mask ->
  shape mask = [n; m] ->
  Exists (fun p => (p < - Z.of_nat n \/ Z.of_nat n <= p)%Z) (data input_pos) ->
  forward tokens tokens_mask input_pos w
  = (Raise (Exn IndexError "index out of range"), w) /\
  (rank tokens = 3 ->
   generate_frame tokens tokens_mask input_pos temperature topk w
   = (Raise (Exn IndexError "index out of range"), w)).
Proof.
  intros Hon Hm Hs Hex.
  apply forward_stops_at_the_mask_lookup; [assumption|].
  unfold bind, get_backbone_causal_mask, get_buffer, lift; rewrite Hm; cbn.
  unfold _index_causal_mask; now rewrite (index_rows_out_of_range mask input_pos Hs Hex).
Qed.

(** X5: with the backbone's caches enabled but no mask registered (the
    stack set up directly, without [Model.setup_caches]), the assertion
    passes and reading [self.backbone_causal_mask] fails: [forward] and
    [generate_frame] raise an [AttributeError] and leave the state as it
    was. *)
Theorem unregistered_mask_is_an_attribute_error
    (tokens : tensor Z) (tokens_mask : tensor bool) (input_pos : tensor Z)
    (temperature : float) (topk : Z) (w : world) :
  caches_enabled (backbone w) = true ->
  backbone_causal_mask w = None ->
  let missing :=
    Exn AttributeError "'Model' object has no attribute 'backbone_causal_mask'" in
  forward tokens tokens_mask input_pos w = (Raise missing, w) /\
  (rank tokens = 3 ->
   generate_frame tokens tokens_mask input_pos temperature topk w = (Raise missing, w)).
Proof.
  intros Hon Hm missing.
  apply forward_stops_at_the_mask_lookup; [assumption|].
  unfold bind, get_backbone_causal_mask, get_buffer; rewrite Hm; reflexivity.
Qed.

(** * [sample_topk] outside its domain *)

Lemma last_dim_snoc (lead : list nat) (v : nat) : last_dim (lead ++ [v]) = v.
Proof. unfold last_dim; apply last_last. Qed.

Lemma keep_lead (lead : list nat) (v k : nat) :
  match lead ++ [v] with
  | [] => []
  | _ :: _ => removelast (lead ++ [v]) ++ [k]
  end = lead ++ [k].
Proof.
  rewrite removelast_last.
  destruct (lead ++ [v]) eqn:E; [now apply snoc_not_nil in E|reflexivity].
Qed.

Lemma select_last_of_empty {A} (t : tensor A) (lead : list nat) :
  shape t = lead ++ [0] ->
  Torch.select (rank t - 1) (-1) t
  = Raise (Exn IndexError "index is out of bounds for dimension").
Proof.
  intros Hs; unfold Torch.select, rank; rewrite Hs, length_app; cbn [length].
  destruct (Nat.ltb_spec (length lead + 1 - 1) (length lead + 1)); [|lia].
  unfold size_at; rewrite app_nth2 by lia.
  replace (length lead + 1 - 1 - length lead) with 0 by lia; reflexivity.
Qed.

(** X6: on logits with a last dimension of [v] entries, a [topk] below 0
    or above [v] is refused by [torch.topk] with a [RuntimeError], and
    [topk = 0] leaves no k-th value to index, an [IndexError]; in each case
    [sample_topk] fails before any noise is drawn, whatever the
    temperature. *)
Theorem sample_topk_rejects_topk_outside_the_vocabulary
    (logits : tensor float) (lead : list nat) (v : nat) (topk : Z)
    (temperature : float) (w : world) :
  shape logits = lead ++ [v] ->
  (topk <= 0 \/ Z.of_nat v < topk)%Z ->
  exists e,
    sample_topk logits topk temperature w = (Raise e, w) /\
    exn_kind e = (if (topk =? 0)%Z then IndexError else RuntimeError).
Proof.
  intros Hs Hk; unfold sample_topk; cbv zeta.
  set (scaled := Torch.tmap (fun x => Float.div x temperature) logits).
  assert (Hss : shape scaled = lead ++ [v]) by exact Hs.
  destruct (Z.eqb_spec topk 0) as [->|Hne].
  - eexists; split.
    + erewrite bind_lift_ok.
      2:{ unfold Torch.topk_values; rewrite Hss, last_dim_snoc, keep_lead.
          destruct (Z.leb_spec 0 (Z.of_nat v)); [|lia]; cbn [Z.leb andb]; reflexivity. }
      apply bind_lift_raise.
      now apply select_last_of_empty with (lead := lead).
    + reflexivity.
  - eexists; split.
    + apply bind_lift_raise.
      unfold Torch.topk_values; rewrite Hss, last_dim_snoc.
      destruct (Z.leb_spec 0 topk), (Z.leb_spec topk (Z.of_nat v)); cbn [andb];
        try reflexivity; lia.
    + reflexivity.
Qed.

(** * Drawing from a distribution without a synchronisation *)

Definition positive (p : float) : Prop := exists r, p = Fin r /\ (0 < r)%R.





(** * Counting the calls into the stacks *)

(** A computation that adds nothing to the trace, whatever its outcome. *)
Definition silent {A} (m : M A) : Prop :=
  forall w, trace (snd (m w)) = trace w.

(** A computation that, when it returns, has added exactly [evs]. *)
Definition emits {A} (evs : list event) (m : M A) : Prop :=
  forall w a w', m w = (Ok a, w') -> trace w' = trace w ++ evs.

Lemma silent_ret {A} (a : A) : silent (ret a).
Proof. intros w; reflexivity. Qed.

Lemma silent_raise {A} (e : exn) : silent (@raise A e).
Proof. intros w; reflexivity. Qed.

Lemma silent_lift {A} (r : Result A) : silent (lift r).
Proof. intros w; reflexivity. Qed.

Lemma silent_bind {A B} (m : M A) (k : A -> M B) :
  silent m -> (forall a, silent (k a)) -> silent (bind m k).
Proof.
  intros Hm Hk w; unfold bind; pose proof (Hm w) as E.
  destruct (m w) as [[a|e] w1]; cbn [snd] in *; [|exact E].
  now rewrite Hk.
Qed.

Lemma silent_assert_caches_enabled : silent assert_caches_enabled.
Proof. intros w; now rewrite assert_caches_enabled_spec. Qed.

Lemma silent_get_backbone_causal_mask : silent get_backbone_causal_mask.
Proof.
  intros w; unfold get_backbone_causal_mask, get_buffer.
  now destruct (backbone_causal_mask w).
Qed.

Lemma silent_get_decoder_causal_mask : silent get_decoder_causal_mask.
Proof.
  intros w; unfold get_decoder_causal_mask, get_buffer.
  now destruct (decoder_causal_mask w).
Qed.

Lemma silent_load_long l : silent (load_long l).
Proof. intros w; unfold load_long; now destruct (nth_error _ _) as [[?|?|?]|]. Qed.

Lemma silent_load_bool l : silent (load_bool l).
Proof. intros w; unfold load_bool; now destruct (nth_error _ _) as [[?|?|?]|]. Qed.

Lemma silent_load_float l : silent (load_float l).
Proof. intros w; unfold load_float; now destruct (nth_error _ _) as [[?|?|?]|]. Qed.

Lemma silent_new_tensor o : silent (new_tensor o).
Proof. intros w; reflexivity. Qed.

Lemma silent_write_float l t : silent (write_float l t).
Proof. intros w; reflexivity. Qed.

Lemma silent_exponential_like t : silent (exponential_like t).
Proof. intros w; reflexivity. Qed.

Lemma silent_multinomial probs : silent (multinomial probs).
Proof.
  intros w; unfold multinomial.
  destruct (shape probs) as [|? [|? [|? ?]]]; try reflexivity;
    destruct (_ =? 0); try reflexivity; destruct (forallb _ _); reflexivity.
Qed.

Create HintDb silent.
#[local] Hint Resolve silent_ret silent_raise silent_lift silent_assert_caches_enabled
  silent_get_backbone_causal_mask silent_get_decoder_causal_mask
  silent_load_long silent_load_bool silent_load_float silent_new_tensor
  silent_write_float silent_exponential_like silent_multinomial : silent.

Ltac silent_tac :=
  repeat first
    [ progress auto with silent
    | apply silent_bind; [|intros ?]
    | progress cbv zeta
    | match goal with |- silent (if ?b then _ else _) => destruct b end ].

Lemma silent_sample_topk logits topk temperature :
  silent (sample_topk logits topk temperature).
Proof. unfold sample_topk, _multinomial_sample_one_no_sync; silent_tac. Qed.

#[local] Hint Resolve silent_sample_topk : silent.

Lemma emits_silent {A} (m : M A) : silent m -> emits [] m.
Proof.
  intros H w a w' E; rewrite app_nil_r, <- (H w), E; reflexivity.
Qed.

Lemma emits_bind {A B} (e1 e2 : list event) (m : M A) (k : A -> M B) :
  emits e1 m -> (forall a, emits e2 (k a)) -> emits (e1 ++ e2) (bind m k).
Proof.
  intros Hm Hk w b w' H; apply bind_inv_ok in H; destruct H as (a & w1 & E1 & E2).
  rewrite (Hk a _ _ _ E2), (Hm _ _ _ E1), app_assoc; reflexivity.
Qed.

Lemma emits_after_silent {A B} (evs : list event) (m : M A) (k : A -> M B) :
  silent m -> (forall a, emits evs (k a)) -> emits evs (bind m k).
Proof.
  intros Hm Hk; change evs with ([] ++ evs).
  apply emits_bind; [now apply emits_silent|exact Hk].
Qed.

Lemma emits_then_silent {A B} (evs : list event) (m : M A) (k : A -> M B) :
  emits evs m -> (forall a, silent (k a)) -> emits evs (bind m k).
Proof.
  intros Hm Hk; rewrite <- (app_nil_r evs).
  apply emits_bind; [exact Hm|intros a; now apply emits_silent].
Qed.

Lemma emits_backbone_call h pos mask : emits [BackboneForward] (backbone_call h pos mask).
Proof. intros w a w' E; exact (backbone_call_trace _ _ _ _ E). Qed.

Lemma emits_decoder_call h pos mask : emits [DecoderForward] (decoder_call h pos mask).
Proof.
  intros w a w'; unfold decoder_call.
  destruct (decoder_forward _ _ _ _); intros [= _ <-]; reflexivity.
Qed.

Lemma emits_decoder_reset_caches : emits [DecoderReset] decoder_reset_caches.
Proof. intros w a w' [= _ <-]; reflexivity. Qed.

Lemma emits_forward tokens tokens_mask input_pos :
  emits [BackboneForward] (forward tokens tokens_mask input_pos).
Proof.
  unfold forward.
  do 5 (apply emits_after_silent; [auto with silent|intros ?]).
  apply emits_then_silent; [apply emits_backbone_call|intros ?; silent_tac].
Qed.

Lemma emits_decoder_step topk temperature i st :
  emits [DecoderForward] (decoder_step topk temperature i st).
Proof.
  destruct st as [[curr_h curr_sample] curr_pos]; unfold decoder_step.
  do 3 (apply emits_after_silent; [auto with silent|intros ?]).
  apply emits_then_silent; [apply emits_decoder_call|intros ?; silent_tac].
Qed.

Lemma emits_for_each {X S} (ev : event) (xs : list X) (body : X -> S -> M S) (s : S) :
  (forall x s, emits [ev] (body x s)) ->
  emits (repeat ev (length xs)) (for_each xs body s).
Proof.
  intros Hb; revert s; induction xs as [|x xs IH]; intros s; cbn [for_each length repeat].
  - apply emits_silent, silent_ret.
  - change (ev :: repeat ev (length xs)) with ([ev] ++ repeat ev (length xs)).
    apply emits_bind; [apply Hb|intros s'; apply IH].
Qed.

(** X8: every call of [generate_frame] that returns a frame has called the
    backbone exactly once, then reset the decoder cache, then stepped the
    decoder exactly [audio_num_codebooks - 1] times, once for each codebook
    after the first, and has called nothing else. *)
Theorem generate_frame_steps_the_decoder_once_per_later_codebook
    (tokens : tensor Z) (tokens_mask : tensor bool) (input_pos : tensor Z)
    (temperature : float) (topk : Z) (w w' : world) (frame : tensor Z) :
  generate_frame tokens tokens_mask input_pos temperature topk w = (Ok frame, w') ->
  trace w'
  = trace w
    ++ [BackboneForward; DecoderReset]
    ++ repeat DecoderForward (audio_num_codebooks (args self) - 1).
Proof.
  revert w frame w'.
  change (emits ([BackboneForward; DecoderReset]
                   ++ repeat DecoderForward (audio_num_codebooks (args self) - 1))
            (generate_frame tokens tokens_mask input_pos temperature topk)).
  unfold generate_frame.
  do 6 (apply emits_after_silent; [auto with silent|intros ?]).
  change ([BackboneForward; DecoderReset] ++ ?l)
    with ([BackboneForward] ++ ([DecoderReset] ++ l)).
  apply emits_bind; [apply emits_backbone_call|intros ?].
  do 10 (apply emits_after_silent; [auto with silent|intros ?]).
  apply emits_bind; [apply emits_decoder_reset_caches|intros ?].
  apply emits_then_silent; [|intros ?; apply silent_ret].
  match goal with
  | |- emits _ (for_each ?xs ?body ?s) =>
      pose proof (@emits_for_each _ _ DecoderForward xs body s
                    (fun i st => emits_decoder_step topk temperature i st)) as H
  end.
  rewrite length_seq in H; exact H.
Qed.

(** * What the batch driver can return *)

Definition at_most_one_backbone_call (evs : list event) : Prop :=
  evs = [] \/ evs = [BackboneForward].

Lemma logs_of_silent {A} (P : list event -> Prop) (m : M A) :
  P [] -> silent m -> logs P m.
Proof. intros HP H; now apply logs_silent. Qed.

Lemma logs_after_silent {A B} (P : list event -> Prop) (m : M A) (k : A -> M B) :
  P [] -> silent m -> (forall a, logs P (k a)) -> logs P (bind m k).
Proof.
  intros HP Hm Hk.
  apply logs_bind with (P := fun evs => evs = []) (Q := P).
  - now intros e1 e2 ->.
  - now intros e1 ->.
  - now apply logs_of_silent.
  - exact Hk.
Qed.

Lemma logs_then_silent {A B} (P : list event -> Prop) (m : M A) (k : A -> M B) :
  logs P m -> (forall a, silent (k a)) -> logs P (bind m k).
Proof.
  intros Hm Hk.
  apply logs_bind with (P := P) (Q := fun evs => evs = []).
  - intros e1 e2 H ->; now rewrite app_nil_r.
  - auto.
  - exact Hm.
  - intros a; now apply logs_of_silent.
Qed.

Lemma logs_backbone_call h pos mask :
  logs at_most_one_backbone_call (backbone_call h pos mask).
Proof.
  intros w; exists [BackboneForward]; split; [|now right].
  unfold backbone_call; now destruct (backbone_forward _ _ _ _).
Qed.

Lemma logs_forward tokens tokens_mask input_pos :
  logs at_most_one_backbone_call (forward tokens tokens_mask input_pos).
Proof.
  unfold forward.
  do 5 (apply logs_after_silent; [now left|auto with silent|intros ?]).
  apply logs_then_silent; [apply logs_backbone_call|intros ?; silent_tac].
Qed.

Lemma logs_batch_step temperature topk i st :
  logs at_most_one_backbone_call (batch_step temperature topk i st).
Proof.
  destruct st as [[[batch_samples curr_tokens] curr_tokens_mask] curr_pos].
  unfold batch_step.
  do 3 (apply logs_after_silent; [now left|auto with silent|intros ?]).
  apply logs_then_silent; [apply logs_forward|intros ?; silent_tac].
Qed.

Lemma emits_batch_step temperature topk i st :
  emits [BackboneForward] (batch_step temperature topk i st).
Proof.
  destruct st as [[[batch_samples curr_tokens] curr_tokens_mask] curr_pos].
  unfold batch_step.
  do 3 (apply emits_after_silent; [auto with silent|intros ?]).
  apply emits_then_silent; [apply emits_forward|intros ?; silent_tac].
Qed.

(** On a matrix [forward] fails before it reaches the backbone. *)
Lemma forward_stops_on_matrix tokens tokens_mask input_pos (w : world) :
  rank tokens < 3 ->
  exists e, forward tokens tokens_mask input_pos w = (Raise e, w).
Proof.
  intros Hr; unfold forward, bind.
  rewrite assert_caches_enabled_spec.
  destruct (caches_enabled (backbone w)); [|eexists; reflexivity].
  unfold get_backbone_causal_mask, get_buffer.
  destruct (backbone_causal_mask w); cbn; [|eexists; reflexivity].
  unfold lift; destruct (_index_causal_mask _ _); [|eexists; reflexivity].
  rewrite embed_tokens_needs_three_dims by assumption; eexists; reflexivity.
Qed.

Lemma batch_step_stops_on_matrix temperature topk i batch_samples
    curr_tokens curr_tokens_mask curr_pos t w :
  holds curr_tokens (TLong t) w ->
  rank t < 3 ->
  exists e,
    batch_step temperature topk i (batch_samples, curr_tokens, curr_tokens_mask, curr_pos) w
    = (Raise e, w).
Proof.
  intros Hh Hr; unfold batch_step.
  rewrite (@bind_ok _ _ _ _ _ _ _ (load_long_holds Hh)).
  unfold bind at 1, load_bool.
  destruct (nth_error (heap w) curr_tokens_mask) as [[?|mk|?]|]; try (eexists; reflexivity).
  unfold bind at 1, load_long.
  destruct (nth_error (heap w) curr_pos) as [[ps|?|?]|]; try (eexists; reflexivity).
  destruct (@forward_stops_on_matrix t mk ps w Hr) as (e & E).
  exists e; now apply bind_raise.
Qed.

Lemma multinomial_ok (probs : tensor float) (sample : tensor Z) (w w' : world) :
  multinomial probs w = (Ok sample, w') ->
  sample = Tensor (removelast (shape probs) ++ [1])
             (map multinomial_pick (seq (rng w) (numel (removelast (shape probs))))).
Proof.
  unfold multinomial; intros H.
  destruct (shape probs) as [|a [|b [|c s]]]; try discriminate H;
    destruct (_ =? 0); try discriminate H;
    destruct (forallb _ _); try discriminate H;
    now injection H as <- _.
Qed.

Lemma wrap_index_one (n d : nat) : wrap_index n 1 = Some d -> d = 1 /\ 2 <= n.
Proof.
  unfold wrap_index.
  destruct (Z.leb_spec 0 1); [|lia]; destruct (Z.ltb_spec 1 (Z.of_nat n)); cbn [andb].
  - intros [= <-]; split; [reflexivity|lia].
  - destruct (Z.leb_spec (- Z.of_nat n) 1); cbn; discriminate.
Qed.

(** What [torch.cat([s, torch.zeros(1, 1)], dim=1)] asks of [s]. *)
Lemma cat_with_one_by_one (s r : tensor Z) :
  Torch.cat [s; Torch.zeros_long [1; 1]] 1 = Ok r ->
  shape s <> [0] ->
  exists c, shape s = [1; c].
Proof.
  intros H Hs; unfold Torch.cat in H; cbn [filter Torch.zeros_long shape] in H.
  assert (Es : shape_eqb (shape s) [0] = false).
  { destruct (shape_eqb (shape s) [0]) eqn:E; [|reflexivity].
    apply shape_eqb_eq in E; contradiction. }
  rewrite Es in H; cbn [negb shape_eqb Nat.eqb andb] in H.
  destruct (wrap_index (rank s) 1) as [d|] eqn:Ed.
  - apply wrap_index_one in Ed; destruct Ed as [-> Hr].
    cbn [forallb] in H; rewrite andb_true_r in H.
    change (shape (Torch.zeros_long [1; 1])) with [1; 1] in H.
    destruct (Torch.cat_compatible 1 (shape s) [1; 1]) eqn:Ec; [|discriminate H].
    unfold Torch.cat_compatible in Ec.
    apply andb_true_iff in Ec; destruct Ec as [Ec E3].
    apply andb_true_iff in Ec; destruct Ec as [E1 E2].
    apply Nat.eqb_eq in E1; apply shape_eqb_eq in E2.
    destruct (shape s) as [|a [|c [|? ?]]]; try discriminate.
    cbn in E2; injection E2 as ->; now exists c.
  - destruct (rank s =? 0); discriminate.
Qed.

(** A turn of the loop that goes on has appended one [1 x 1] sample that
    is not zero, and has left a matrix as the next [curr_tokens]. *)
Lemma batch_step_next temperature topk i batch_samples curr_tokens curr_tokens_mask curr_pos
    (w w' : world) st' :
  batch_step temperature topk i (batch_samples, curr_tokens, curr_tokens_mask, curr_pos) w
  = (Ok (Next st'), w') ->
  exists x l1 l2 l3 t,
    x <> 0%Z /\
    st' = (batch_samples ++ [Tensor [1; 1] [x]], l1, l2, l3) /\
    holds l1 (TLong t) w' /\ rank t = 2.
Proof.
  intros H.
  pose proof (@batch_step_hands_over temperature topk i _ w _ w' I H) as Hh.
  unfold batch_step in H.
  do 9 inv_bind H.
  destruct (Torch.all_zero x7) eqn:Hz; [discriminate H|].
  apply multinomial_ok in E7.
  inv_bind H.
  apply cat_with_one_by_one in E8.
  2:{ rewrite E7; cbn [shape]; intros Hbad.
      destruct (removelast _) as [|a [|b l]]; discriminate Hbad. }
  destruct E8 as (c & Hc).
  assert (Hlead : removelast (shape (Torch.softmax x6)) = [1] /\ c = 1).
  { rewrite E7 in Hc; cbn [shape] in Hc.
    destruct (removelast (shape (Torch.softmax x6))) as [|a [|b l]]; cbn in Hc;
      try discriminate; [now injection Hc as -> <-|].
    destruct l; discriminate. }
  destruct Hlead as [Hlead ->].
  rewrite Hlead in E7; cbn in E7.
  do 5 inv_bind H.
  injection H as Hst Hw'; subst st'; cbn [handed_over] in Hh.
  destruct Hh as (t & Ht & Hr).
  exists (multinomial_pick (rng w6)), x9, x11, x13, t.
  rewrite E7 in *.
  split; [|split; [reflexivity|split; assumption]].
  cbn in Hz; intros Hx; rewrite Hx in Hz; discriminate.
Qed.

Lemma batch_step_break temperature topk i st (w w' : world) st' :
  batch_step temperature topk i st w = (Ok (Break st'), w') -> st' = st.
Proof.
  intros H; exact (@batch_step_hands_over temperature topk i st w _ w' I H).
Qed.

Lemma batch_loop_outcome temperature topk (n : nat) batch_samples
    curr_tokens curr_tokens_mask curr_pos (w : world) :
  let run := for_break (seq 0 n) (batch_step temperature topk)
               (batch_samples, curr_tokens, curr_tokens_mask, curr_pos) w in
  (exists evs, trace (snd run) = trace w ++ evs /\ at_most_one_backbone_call evs) /\
  (forall st w', run = (Ok st, w') ->
     fst (fst (fst st)) = batch_samples \/
     (n = 1 /\ trace w' = trace w ++ [BackboneForward] /\
      exists x, x <> 0%Z /\ fst (fst (fst st)) = batch_samples ++ [Tensor [1; 1] [x]])).
Proof.
  cbv zeta.
  set (st := (batch_samples, curr_tokens, curr_tokens_mask, curr_pos)).
  destruct n as [|[|n]]; cbn [seq for_break].
  - split; [exists []; split; [now rewrite app_nil_r|now left]|].
    intros st' w' [= <- <-]; now left.
  - destruct (logs_batch_step temperature topk 0 st w) as (evs & Et & Hevs).
    destruct (batch_step temperature topk 0 st w) as [[[s'|s']|e] w1] eqn:E;
      cbn [snd] in Et.
    + rewrite (bind_ok _ _ _ E); cbn [ret snd]; split; [now exists evs|].
      intros st' w' [= <- <-]; right; split; [reflexivity|].
      split; [exact (@emits_batch_step temperature topk 0 st _ _ _ E)|].
      destruct (@batch_step_next _ _ _ _ _ _ _ _ _ _ E) as (x & l1 & l2 & l3 & t & Hx & -> & _).
      now exists x.
    + rewrite (bind_ok _ _ _ E); cbn [ret snd]; split; [now exists evs|].
      intros st' w' [= <- <-]; left.
      now rewrite (@batch_step_break _ _ _ _ _ _ _ E).
    + rewrite (bind_raise _ _ _ E); cbn [snd]; split; [now exists evs|discriminate].
  - destruct (logs_batch_step temperature topk 0 st w) as (evs & Et & Hevs).
    destruct (batch_step temperature topk 0 st w) as [[[s'|s']|e] w1] eqn:E;
      cbn [snd] in Et.
    + rewrite (bind_ok _ _ _ E).
      destruct (@batch_step_next _ _ _ _ _ _ _ _ _ _ E) as (x & l1 & l2 & l3 & t & _ & -> & Hh & Hr).
      destruct (@batch_step_stops_on_matrix temperature topk 1
                  (batch_samples ++ [Tensor [1; 1] [x]]) l1 l2 l3 t w1 Hh) as (e & E2);
        [lia|].
      rewrite (bind_raise _ _ _ E2); cbn [snd]; split; [now exists evs|discriminate].
    + rewrite (bind_ok _ _ _ E); cbn [ret snd]; split; [now exists evs|].
      intros st' w' [= <- <-]; left.
      now rewrite (@batch_step_break _ _ _ _ _ _ _ E).
    + rewrite (bind_raise _ _ _ E); cbn [snd]; split; [now exists evs|discriminate].
Qed.

Lemma cat_single_token (x : Z) : Torch.cat [Tensor [1; 1] [x]] 0 = Ok (Tensor [1; 1] [x]).
Proof. reflexivity. Qed.

Lemma body_outcome (tokens tokens_mask pos : nat) (temperature : float)
    (topk num_frames : Z) (w : world) :
  let run := generate_frames_batch_body tokens tokens_mask pos temperature topk num_frames w in
  (exists evs, trace (snd run) = trace w ++ evs /\ at_most_one_backbone_call evs) /\
  (forall res w', run = (Ok res, w') ->
     res = None \/
     (num_frames = 1%Z /\ trace w' = trace w ++ [BackboneForward] /\
      exists x, x <> 0%Z /\ res = Some (Tensor [1; 1] [x]))).
Proof.
  cbv zeta; unfold generate_frames_batch_body.
  assert (Hloop := fun ct cm cp w0 =>
            @batch_loop_outcome temperature topk (Z.to_nat num_frames) [] ct cm cp w0).
  cbv zeta in Hloop.
  repeat
    (match goal with
     | |- context [bind ?m ?k ?w0] =>
         lazymatch m with
         | for_break _ _ _ => fail
         | _ =>
             let Hs := fresh "Hs" in
             assert (Hs : trace (snd (m w0)) = trace w0)
               by (generalize w0; change (silent m); auto with silent);
             destruct (m w0) as [[? | ?] ?] eqn:?; cbn [snd] in Hs;
             [erewrite bind_ok by eassumption
             |erewrite bind_raise by eassumption;
              split; [exists []; cbn [snd]; split; [rewrite app_nil_r; congruence|now left]
                     |discriminate]]
         end
     end).
  match goal with
  | |- context [bind (for_break _ _ (_, ?ct, ?cm, ?cp)) _ ?w0] =>
      destruct (Hloop ct cm cp w0) as [(evs & Et & Hevs) Hres];
      destruct (for_break (seq 0 (Z.to_nat num_frames)) (batch_step temperature topk)
                  ([], ct, cm, cp) w0) as [[st | e] wl] eqn:El; cbn [snd] in Et
  end.
  - rewrite (bind_ok _ _ _ El).
    assert (Etr : trace wl = trace w ++ evs) by congruence.
    destruct (Hres st wl eq_refl) as [Hnil|(Hn & Ht & x & Hx & Hst)].
    + rewrite Hnil; cbn [ret snd]; split; [now exists evs|].
      intros res w' [= <- <-]; now left.
    + rewrite Hst; cbn [app].
      unfold bind at 1, lift; rewrite cat_single_token; cbn [ret snd].
      split; [now exists evs|].
      intros res w' [= <- <-]; right; split; [lia|]; split; [congruence|now exists x].
  - rewrite (bind_raise _ _ _ El); cbn [snd]; split; [|discriminate].
    exists evs; split; [congruence|assumption].
Qed.

(** X9: whatever it is asked, [generate_frames_batch] calls the backbone
    at most once, never touches the decoder or resets a cache, and prints
    at most one line, the error it caught.  It returns a tensor only when
    exactly one frame was asked for: the tensor is then the single
    [1 x 1] token sampled in the only turn of the loop, a token that is
    not zero, and nothing was printed.  In every other case it returns
    [None]. *)
Theorem generate_frames_batch_returns_at_most_one_token
    (tokens tokens_mask pos : nat) (temperature : float) (topk num_frames : Z)
    (w : world) :
  (exists evs,
     trace (snd (generate_frames_batch tokens tokens_mask pos temperature topk num_frames w))
     = trace w ++ evs /\
     (evs = [] \/ evs = [BackboneForward] \/
      exists line, evs = [Print line] \/ evs = [BackboneForward; Print line])) /\
  (forall r w',
     generate_frames_batch tokens tokens_mask pos temperature topk num_frames w
     = (Ok (Some r), w') ->
     num_frames = 1%Z /\
     (exists x, x <> 0%Z /\ r = Tensor [1; 1] [x]) /\
     trace w' = trace w ++ [BackboneForward]).
Proof.
  destruct (body_outcome tokens tokens_mask pos temperature topk num_frames w)
    as [(evs & Et & Hevs) Hres]; cbv zeta in *.
  unfold generate_frames_batch, try_except.
  destruct (generate_frames_batch_body tokens tokens_mask pos temperature topk num_frames w)
    as [[res|e] w1] eqn:E; cbn [snd] in Et.
  - split.
    + exists evs; cbn [snd]; split; [assumption|].
      destruct Hevs as [->| ->]; auto.
    + intros r w' [= -> <-].
      destruct (Hres _ _ eq_refl) as [Hn|(Hn & Ht & x & Hx & [= ->])]; [discriminate|].
      split; [assumption|]; split; [now exists x|assumption].
  - split.
    + exists (evs ++ [Print ("Error in generate_frames_batch: " ++ exn_msg e)]).
      cbn; rewrite Et, app_assoc; split; [reflexivity|].
      right; right; eexists.
      destruct Hevs as [->| ->]; [left|right]; reflexivity.
    + cbn; discriminate.
Qed.

(** * The shape of a frame *)

Lemma broadcast_slots (a b c1 c2 d : nat) (s : list nat) :
  broadcast_shapes [a; b; c1; d] [a; b; c2; 1] = Some s ->
  (c1 = c2 \/ c1 = 1 \/ c2 = 1) /\
  s = [a; b; if c1 =? c2 then c1 else if c1 =? 1 then c2 else c1; d].
Proof.
  unfold broadcast_shapes; cbn [rev app broadcast_rev].
  rewrite !Nat.eqb_refl.
  destruct (Nat.eqb_spec c1 c2) as [->|H12].
  - destruct (d =? 1); [|destruct (d =? 1)]; cbn; intros [= <-]; split; auto.
  - destruct (Nat.eqb_spec c1 1) as [->|H1].
    + destruct (d =? 1); [|destruct (d =? 1)]; cbn; intros [= <-]; split; auto.
    + destruct (Nat.eqb_spec c2 1) as [->|H2]; [|discriminate].
      destruct (d =? 1); [|destruct (d =? 1)]; cbn; intros [= <-]; split; auto.
Qed.

Lemma sum_dim_shape (d : nat) (t r : tensor float) :
  Torch.sum_dim d t = Ok r -> shape r = firstn d (shape t) ++ skipn (S d) (shape t).
Proof.
  unfold Torch.sum_dim; destruct (d <? rank t); [|discriminate]; now intros [= <-].
Qed.

Lemma linear_shape (weight x r : tensor float) :
  Torch.linear weight x = Ok r ->
  exists n_out, shape r = removelast (shape x) ++ [n_out].
Proof.
  unfold Torch.linear.
  destruct (shape weight) as [|n_out [|n_in [|? ?]]]; try discriminate;
    try (destruct (rev (shape x)); discriminate).
  destruct (rev (shape x)) as [|k lead] eqn:E; [discriminate|].
  destruct (k =? n_in); [|discriminate].
  intros [= <-]; exists n_out; cbn [shape].
  apply (f_equal (@rev nat)) in E; rewrite rev_involutive in E; cbn [rev] in E.
  now rewrite E, removelast_last.
Qed.

Lemma mm_shape (a b r : tensor float) :
  Torch.mm a b = Ok r -> exists n m, shape r = [n; m].
Proof.
  unfold Torch.mm.
  destruct (shape a) as [|n [|k [|? ?]]]; try discriminate;
    destruct (shape b) as [|k' [|m [|? ?]]]; try discriminate.
  destruct (k =? k'); [|discriminate].
  intros [= <-]; now exists n, m.
Qed.

Lemma cat_columns {A} (x y r : tensor A) (b j n : nat) :
  shape x = [b; j] -> shape y = [n; 1] ->
  Torch.cat [x; y] 1 = Ok r -> shape r = [b; j + 1].
Proof.
  destruct x as [sx dx], y as [sy dy]; cbn [shape]; intros -> ->.
  unfold Torch.cat, rank, Torch.cat_compatible.
  cbn [filter shape shape_eqb]; rewrite !andb_false_r.
  cbn [negb shape length forallb].
  change (wrap_index 2 1) with (Some 1).
  cbn [firstn skipn shape_eqb Nat.eqb andb].
  rewrite !andb_true_r.
  destruct (b =? n); [|discriminate].
  intros [= <-]; cbn [shape map list_sum size_at nth app fold_right].
  do 2 f_equal; lia.
Qed.

Lemma decoder_step_shape topk temperature i
    (curr_h : tensor float) (curr_sample curr_pos : tensor Z)
    (st' : tensor float * tensor Z * tensor Z) (w w' : world) (b j : nat) :
  decoder_step topk temperature i (curr_h, curr_sample, curr_pos) w = (Ok st', w') ->
  shape curr_sample = [b; j] ->
  shape (snd (fst st')) = [b; j + 1].
Proof.
  intros H Hs; unfold decoder_step in H.
  do 11 inv_bind H.
  apply ret_inv in H; destruct H as [H _]; injection H as H; subst st'; cbn [fst snd].
  apply mm_shape in E5; destruct E5 as (n & m & Hl).
  apply sample_topk_ok in E6; destruct E6 as [Hc _].
  rewrite Hl in Hc; cbn in Hc.
  exact (@cat_columns _ curr_sample x6 x8 b j n Hs Hc E8).
Qed.

Lemma decoder_loop_shape topk temperature (xs : list nat)
    (st st' : tensor float * tensor Z * tensor Z) (w w' : world) (b j : nat) :
  for_each xs (decoder_step topk temperature) st w = (Ok st', w') ->
  shape (snd (fst st)) = [b; j] ->
  shape (snd (fst st')) = [b; j + length xs].
Proof.
  revert st w j; induction xs as [|i xs IH]; intros st w j H Hs; cbn [for_each length] in *.
  - apply ret_inv in H; destruct H as [H _]; injection H as H; subst st'.
    now rewrite Nat.add_0_r.
  - apply bind_inv_ok in H; destruct H as (st1 & w1 & E1 & H).
    destruct st as [[curr_h curr_sample] curr_pos]; cbn [fst snd] in Hs.
    pose proof (@decoder_step_shape _ _ _ _ _ _ _ _ _ b j E1 Hs) as H1.
    rewrite (IH st1 w1 (j + 1) H H1); do 2 f_equal; lia.
Qed.

(** A stack that returns hidden states of the shape it is given. *)
Definition keeps_shape
    (stack : Cache -> tensor float -> tensor Z -> tensor bool
             -> Result (tensor float) * Cache) : Prop :=
  forall c h pos mask r c', stack c h pos mask = (Ok r, c') -> shape r = shape h.

(** X10: with embedding tables of one width, a backbone that keeps the
    shape of its input, and [tokens] and [tokens_mask] of the same shape
    [(b, s, k)], a call of [generate_frame] that returns has been given
    frames of exactly [audio_num_codebooks + 1] slots over at least one
    position, and what it returns has the shape
    [(b, audio_num_codebooks)]: one token per codebook and batch row. *)
Theorem generate_frame_returns_one_token_per_codebook
    (tokens : tensor Z) (tokens_mask : tensor bool) (input_pos : tensor Z)
    (temperature : float) (topk : Z) (w w' : world) (frame : tensor Z)
    (b s k dim : nat) :
  embedding_tables dim ->
  keeps_shape backbone_forward ->
  shape tokens = [b; s; k] ->
  shape tokens_mask = [b; s; k] ->
  generate_frame tokens tokens_mask input_pos temperature topk w = (Ok frame, w') ->
  k = audio_num_codebooks (args self) + 1 /\
  1 <= s /\
  shape frame = [b; audio_num_codebooks (args self)].
Proof.
  intros Htab Hkeep Ht Hm H; unfold generate_frame in H.
  set (c := audio_num_codebooks (args self)) in *.
  do 19 inv_bind H.
  apply ret_inv in H; destruct H as [H _]; injection H as H; subst frame.
  rename E3 into Eembed, E4 into Esum, E5 into Ecall, E6 into Elast, E7 into Ehead,
    E8 into Esample, E17 into Eloop.
  (* the fused embedding *)
  destruct (@embed_tokens_inv tokens b s k dim _ Htab Ht Eembed) as (Hk & Hpos & Hkc & He).
  fold c in Hpos, Hkc, He.
  unfold masked_sum in Esum.
  inv_rbind Esum; rename E3 into Eun, y into m.
  inv_rbind Esum; rename E3 into Ebc, y into masked.
  apply unsqueeze_shape in Eun; destruct Eun as (d & Ed & Eun).
  unfold rank in Ed; rewrite Hm in Ed, Eun.
  change (wrap_index 4 (-1)) with (Some 3) in Ed; injection Ed as <-.
  change (shape m = [b; s; k; 1]) in Eun.
  apply broadcast2_shape in Ebc; rewrite He, Eun in Ebc.
  apply broadcast_slots in Ebc; destruct Ebc as [Hslots Hbc].
  assert (Hkc' : k = c + 1) by nia.
  replace (if c + 1 =? k then c + 1 else if c + 1 =? 1 then k else c + 1) with (c + 1) in Hbc
    by (destruct (Nat.eqb_spec (c + 1) k); [reflexivity|lia]).
  apply sum_dim_shape in Esum; rewrite Hbc in Esum; cbn in Esum.
  (* the backbone and the codebook-0 head *)
  unfold backbone_call in Ecall.
  destruct (backbone_forward _ _ _ _) as [r c'] eqn:Eb.
  injection Ecall as -> _.
  pose proof (Hkeep _ _ _ _ _ _ Eb) as Hh; rewrite Esum in Hh.
  unfold last_step in Elast; inv_rbind Elast.
  pose proof (select_ok_nonempty _ _ _ Elast) as Hs1.
  apply select_shape in Elast; destruct Elast as [_ Elast]; rewrite Hh in Elast, Hs1.
  cbn in Elast, Hs1.
  apply linear_shape in Ehead; destruct Ehead as (n_out & Ehead).
  rewrite Elast in Ehead; cbn in Ehead.
  apply sample_topk_ok in Esample; destruct Esample as [Esample _].
  rewrite Ehead in Esample; cbn in Esample.
  (* the loop over the later codebooks *)
  pose proof (@decoder_loop_shape _ _ _ _ _ _ _ b 1 Eloop Esample) as Hf.
  rewrite length_seq in Hf.
  split; [exact Hkc'|]; split; [exact Hs1|].
  rewrite Hf; do 2 f_equal; nia.
Qed.

(** * Setting the caches up *)

(** X11: [setup_caches] always succeeds.  It enables and clears the
    caches of both stacks, registers a backbone mask of
    [backbone.max_seq_len] rows and a decoder mask of
    [audio_num_codebooks] rows, each with entry [(i, j)] true exactly when
    [j <= i], and changes nothing else but the trace. *)
Theorem setup_caches_registers_both_masks (max_batch_size : nat) (w : world) :
  exists bm dm w',
    setup_caches max_batch_size w = (Ok tt, w') /\
    backbone w' = {| caches_enabled := true; cache := empty_cache |} /\
    decoder w' = {| caches_enabled := true; cache := empty_cache |} /\
    backbone_causal_mask w' = Some bm /\
    decoder_causal_mask w' = Some dm /\
    shape bm = [backbone_max_seq_len; backbone_max_seq_len] /\
    shape dm = [audio_num_codebooks (args self); audio_num_codebooks (args self)] /\
    (forall i j, i < backbone_max_seq_len -> j < backbone_max_seq_len ->
       nth (i * backbone_max_seq_len + j) (data bm) false = (j <=? i)) /\
    (forall i j, i < audio_num_codebooks (args self) -> j < audio_num_codebooks (args self) ->
       nth (i * audio_num_codebooks (args self) + j) (data dm) false = (j <=? i)) /\
    heap w' = heap w /\ rng w' = rng w /\
    trace w' = trace w ++ [BackboneSetup; DecoderSetup].
Proof.
  assert (Hentry : forall n i j, i < n -> j < n ->
            nth (i * n + j) (concat (causal_rows n)) false = (j <=? i)).
  { intros n i j Hi Hj.
    rewrite nth_concat_uniform by (try apply causal_rows_width; assumption).
    unfold causal_rows.
    rewrite (@nth_map_in _ _ _ (seq 0 n) i 0 []) by (rewrite length_seq; lia).
    rewrite (@nth_map_in _ _ _ (seq 0 n) j 0 false) by (rewrite length_seq; lia).
    now rewrite !seq_nth by lia. }
  do 3 eexists; split.
  - unfold setup_caches, bind, backbone_setup_caches, decoder_setup_caches, lift.
    rewrite !create_causal_mask_rows; reflexivity.
  - cbn; repeat split; try reflexivity; try (intros i j; apply Hentry).
    now rewrite <- app_assoc.
Qed.

(** * Embedding audio tokens of one codebook *)

Lemma rmap_inv_ok {A B} (f : A -> Result B) (l : list A) (ys : list B) :
  rmap f l = Ok ys -> Forall (fun x => exists y, f x = Ok y) l.
Proof.
  revert ys; induction l as [|x l IH]; intros ys H; [constructor|].
  cbn [rmap] in H; destruct (f x) as [y|e] eqn:E; [|discriminate].
  cbn [rbind] in H; destruct (rmap f l) as [ys'|e] eqn:El; [|discriminate].
  constructor; [now exists y|eapply IH; reflexivity].
Qed.

(** The row of an embedding table that an index selects. *)
Definition table_row (weight : tensor float) (p : Z) : list float :=
  firstn (nth 1 (shape weight) 0)
    (skipn (Z.to_nat p * nth 1 (shape weight) 0) (data weight)).

Lemma embedding_rows (weight : tensor float) (num dim : nat) (idx : tensor Z) :
  shape weight = [num; dim] ->
  Forall (fun p => (0 <= p < Z.of_nat num)%Z) (data idx) ->
  Torch.embedding weight idx
  = Ok (Tensor (shape idx ++ [dim]) (concat (map (table_row weight) (data idx)))).
Proof.
  intros Hs Hp; unfold Torch.embedding; rewrite Hs.
  erewrite rmap_ok with (g := table_row weight); [reflexivity|].
  intros p Hin; rewrite Forall_forall in Hp; specialize (Hp p Hin).
  destruct (Z.leb_spec 0 p); [|lia]; destruct (Z.ltb_spec p (Z.of_nat num)); [|lia].
  cbn [andb]; unfold table_row; now rewrite Hs.
Qed.

Lemma embedding_ok_in_range (weight : tensor float) (num dim : nat) (idx : tensor Z)
    (r : tensor float) :
  shape weight = [num; dim] ->
  Torch.embedding weight idx = Ok r ->
  Forall (fun p => (0 <= p < Z.of_nat num)%Z) (data idx).
Proof.
  intros Hs; unfold Torch.embedding; rewrite Hs.
  destruct (rmap _ _) as [rows|e] eqn:E; [|discriminate]; intros _.
  apply rmap_inv_ok in E; eapply Forall_impl; [|exact E]; cbn.
  intros p (y & Hy).
  destruct (Z.leb_spec 0 p), (Z.ltb_spec p (Z.of_nat num)); cbn [andb] in Hy;
    try discriminate; lia.
Qed.

(** X12: [_embed_audio] looks every token up at its index shifted by
    [codebook * audio_vocab_size] in the one table of all codebooks, and
    the only check is that of the table: the call succeeds exactly when
    every shifted index lies in [0, audio_vocab_size * audio_num_codebooks),
    so that a token beyond the vocabulary of its codebook reads a row of a
    later codebook instead of failing.  On success the result has the
    shape of the tokens followed by the width, and holds the rows of the
    shifted indices in order. *)
Theorem embed_audio_checks_the_shifted_index_only
    (codebook : nat) (tokens : tensor Z) (dim : nat) :
  shape (audio_embeddings self)
  = [audio_vocab_size (args self) * audio_num_codebooks (args self); dim] ->
  let shifted := fun t => (t + Z.of_nat codebook * Z.of_nat (audio_vocab_size (args self)))%Z in
  let in_table := fun p =>
    (0 <= p < Z.of_nat (audio_vocab_size (args self) * audio_num_codebooks (args self)))%Z in
  ((exists r, _embed_audio codebook tokens = Ok r)
   <-> Forall (fun t => in_table (shifted t)) (data tokens)) /\
  (forall r, _embed_audio codebook tokens = Ok r ->
     r = Tensor (shape tokens ++ [dim])
           (concat (map (fun t => table_row (audio_embeddings self) (shifted t))
                      (data tokens)))).
Proof.
  intros Hs shifted in_table; unfold _embed_audio; fold shifted.
  assert (Hin : Forall (fun t => in_table (shifted t)) (data tokens) ->
            Torch.embedding (audio_embeddings self) (Torch.tmap shifted tokens)
            = Ok (Tensor (shape tokens ++ [dim])
                    (concat (map (fun t => table_row (audio_embeddings self) (shifted t))
                               (data tokens))))).
  { intros H; rewrite (@embedding_rows _ _ dim (Torch.tmap shifted tokens) Hs).
    - unfold Torch.tmap; cbn [shape data]; now rewrite map_map.
    - unfold Torch.tmap; cbn [data]; now apply Forall_map. }
  assert (Hout : forall r,
            Torch.embedding (audio_embeddings self) (Torch.tmap shifted tokens) = Ok r ->
            Forall (fun t => in_table (shifted t)) (data tokens)).
  { intros r E; apply (@embedding_ok_in_range _ _ _ _ _ Hs) in E.
    unfold Torch.tmap in E; cbn [data] in E; now apply Forall_map in E. }
  split; [split|].
  - intros (r & E); exact (Hout r E).
  - intros H; eexists; exact (Hin H).
  - intros r E; rewrite (Hin (Hout r E)) in E; now injection E as <-.
Qed.

(** * What [_embed_tokens] computes, frame by frame *)

Section Frames.

Variables (b s k : nat) (frames : list (list Z)).
Hypothesis frames_count : length frames = b * s.
Hypothesis frames_width : Forall (fun f => length f = k) frames.

Lemma positions_count : b * (s * 1) = length frames.
Proof using frames_count. rewrite frames_count; lia. Qed.

(** [tokens[:, :, -1]]. *)
Lemma select_last_slot :
  1 <= k ->
  Torch.select 2 (-1) (Tensor [b; s; k] (concat frames))
  = Ok (Tensor [b; s] (map (fun f => nth (k - 1) f 0%Z) frames)).
Proof using frames_count frames_width.
  intros Hk; unfold Torch.select, rank, size_at, inner, outer.
  cbn [shape data length Nat.ltb Nat.leb nth skipn firstn numel fold_right app].
  rewrite wrap_index_last by assumption.
  rewrite positions_count, !Nat.mul_1_r, chunks_concat by assumption.
  do 2 f_equal.
  rewrite <- (concat_map_singleton (fun f => nth (k - 1) f 0%Z) frames).
  f_equal; apply map_ext_in; intros f Hf.
  rewrite Forall_forall in frames_width.
  apply firstn_one_skipn; rewrite (frames_width f Hf); lia.
Qed.

(** [tokens[:, :, :-1]]. *)
Lemma slice_audio_slots :
  Torch.slice 2 None (Some (-1)%Z) (Tensor [b; s; k] (concat frames))
  = Ok (Tensor [b; s; k - 1] (concat (map (firstn (k - 1)) frames))).
Proof using frames_count frames_width.
  unfold Torch.slice, rank, size_at, inner, outer.
  cbn [shape data length Nat.ltb Nat.leb nth skipn firstn numel fold_right app].
  rewrite slice_bounds_to_last.
  rewrite positions_count, !Nat.mul_1_r, chunks_concat by assumption.
  reflexivity.
Qed.

End Frames.

Lemma concat_repeat_repeat {A} (l : list A) (a m : nat) :
  concat (repeat (concat (repeat l a)) m) = concat (repeat l (m * a)).
Proof.
  induction m as [|m IH]; [reflexivity|].
  cbn [repeat concat Nat.mul]; rewrite IH, repeat_app, concat_app; reflexivity.
Qed.

Lemma numel_ones (n : nat) : numel (repeat 1 n) = 1.
Proof.
  induction n as [|n IH]; [reflexivity|].
  cbn [repeat]; change (numel (1 :: repeat 1 n)) with (1 * numel (repeat 1 n)).
  now rewrite IH.
Qed.

(** A row broadcast over leading dimensions is repeated once per
    position. *)
Lemma expand_data_row {A} (lead : list nat) (v : nat) (l : list A) :
  length l = v ->
  Torch.expand_data (repeat 1 (length lead) ++ [v]) (lead ++ [v]) l
  = concat (repeat l (numel lead)).
Proof.
  intros Hl; induction lead as [|m lead IH].
  - cbn [length repeat app].
    rewrite expand_data_same by (cbn [numel fold_right]; lia).
    cbn [numel fold_right repeat concat]; now rewrite app_nil_r.
  - cbn [length repeat app Torch.expand_data].
    assert (Hn : numel (repeat 1 (length lead) ++ [v]) = v).
    { rewrite numel_snoc.
      rewrite numel_ones; lia. }
    rewrite Hn, chunks_one by assumption.
    cbn [map concat]; rewrite IH, app_nil_r.
    change (numel (m :: lead)) with (m * numel lead).
    destruct (Nat.eqb_spec 1 m) as [<-|_].
    + now rewrite Nat.mul_1_l.
    + apply concat_repeat_repeat.
Qed.

Lemma combine_concat_repeat {A B} (rows : list (list A)) (l : list B) :
  Forall (fun r => length r = length l) rows ->
  combine (concat rows) (concat (repeat l (length rows)))
  = concat (map (fun r => combine r l) rows).
Proof.
  induction 1 as [|r rows Hr _ IH]; [reflexivity|].
  cbn [length repeat concat map].
  now rewrite <- combine_app, IH by assumption.
Qed.

(** [slots + offsets], the offsets broadcast over batch and position. *)
Lemma add_offsets (b s c : nat) (rows : list (list Z)) (offsets : list Z) :
  length rows = b * s -> Forall (fun r => length r = c) rows -> length offsets = c ->
  Torch.broadcast2 Z.add (Tensor [b; s; c] (concat rows)) (Tensor [c] offsets)
  = Ok (Tensor [b; s; c]
          (concat (map (fun r => map (fun ab => (fst ab + snd ab)%Z) (combine r offsets))
                     rows))).
Proof.
  intros Hn Hw Ho; unfold Torch.broadcast2, Torch.expand, broadcast_shapes.
  cbn [shape data rev app broadcast_rev]; rewrite Nat.eqb_refl.
  cbn [option_map rev app length pad_shape Nat.sub repeat].
  rewrite expand_data_same.
  2:{ rewrite (length_concat_uniform Hw), Hn; cbn [numel fold_right]; lia. }
  change [1; 1; c] with (repeat 1 (length [b; s]) ++ [c]).
  change [b; s; c] with ([b; s] ++ [c]) at 2.
  rewrite expand_data_row by assumption.
  change (numel [b; s]) with (b * (s * 1)).
  replace (b * (s * 1)) with (length rows) by lia.
  rewrite combine_concat_repeat by (eapply Forall_impl; [|exact Hw]; cbn; congruence).
  now rewrite concat_map, map_map.
Qed.

Lemma reshape_slots {A} (b s c n dim : nat) (l : list A) :
  0 < b * s * c -> n = b * s * c ->
  Torch.reshape [Some b; Some s; Some c; None] (Tensor [n; dim] l)
  = Ok (Tensor [b; s; c; dim] l).
Proof.
  intros Hpos ->; unfold Torch.reshape.
  cbn [map filter length numel fold_right shape data].
  replace (b * (s * (c * (1 * 1)))) with (b * s * c) by lia.
  replace (b * s * c * (dim * 1)) with (dim * (b * s * c)) by lia.
  destruct (Nat.ltb_spec 0 (b * s * c)); [|lia].
  rewrite Nat.Div0.mod_mul, Nat.div_mul by lia.
  reflexivity.
Qed.

Lemma reshape_empty_batch {A} (b s c : nat) (t : tensor A) :
  b * s * c = 0 ->
  Torch.reshape [Some b; Some s; Some c; None] t
  = Raise (Exn RuntimeError "shape is invalid for input size").
Proof.
  intros H0; unfold Torch.reshape.
  cbn [map filter length numel fold_right].
  replace (b * (s * (c * (1 * 1)))) with 0 by lia.
  reflexivity.
Qed.

Lemma map_seq_combine {A B C} (f : A -> B -> C) (xs : list A) (ys : list B) (dx : A) (dy : B) :
  length xs = length ys ->
  map (fun k => f (nth k xs dx) (nth k ys dy)) (seq 0 (length xs))
  = map (fun xy => f (fst xy) (snd xy)) (combine xs ys).
Proof.
  revert ys; induction xs as [|x xs IH]; intros [|y ys] H; try discriminate; [reflexivity|].
  cbn [length seq map combine nth fst snd]; f_equal.
  rewrite <- seq_shift, map_map; apply IH; now injection H.
Qed.

(** [torch.cat([audio, text], dim=-2)]: the text row follows the audio
    rows of its position. *)
Lemma cat_slots (b s c dim : nat) (audio text : list (list float)) :
  length audio = b * s -> length text = b * s ->
  Forall (fun r => length r = c * dim) audio -> Forall (fun r => length r = dim) text ->
  Torch.cat [Tensor [b; s; c; dim] (concat audio); Tensor [b; s; 1; dim] (concat text)] (-2)
  = Ok (Tensor [b; s; c + 1; dim]
          (concat (map (fun at_ => fst at_ ++ snd at_) (combine audio text)))).
Proof.
  intros Ha Ht Hwa Hwt; unfold Torch.cat, rank, Torch.cat_compatible, size_at, inner, outer.
  cbn [filter shape shape_eqb]; rewrite !andb_false_r.
  cbn [negb shape length forallb].
  change (wrap_index 4 (-2)) with (Some 2).
  cbn [firstn skipn shape_eqb Nat.eqb nth map list_sum fold_right numel data app].
  rewrite !Nat.eqb_refl; cbn [andb].
  replace (c + (1 + 0)) with (c + 1) by lia.
  rewrite !Nat.mul_1_r; cbn [shape nth]; rewrite Nat.mul_1_l.
  assert (Ea : chunks (c * dim) (b * s) (concat audio) = audio)
    by (rewrite <- Ha; now apply chunks_concat).
  assert (Et : chunks dim (b * s) (concat text) = text)
    by (rewrite <- Ht; now apply chunks_concat).
  rewrite Ea, Et, <- Ha.
  do 3 f_equal.
  rewrite <- (@map_seq_combine _ _ _ (fun x y => x ++ y) audio text [] []) by lia.
  apply map_ext; intros i; cbn [map concat]; now rewrite app_nil_r.
Qed.

Lemma table_row_length (weight : tensor float) (num dim : nat) (p : Z) :
  shape weight = [num; dim] -> wf weight -> (0 <= p < Z.of_nat num)%Z ->
  length (table_row weight p) = dim.
Proof.
  unfold wf, table_row; intros -> Hw Hp; cbn [nth numel fold_right] in *.
  rewrite length_firstn, length_skipn, Hw.
  assert (Z.to_nat p < num) by lia; nia.
Qed.

Lemma concat_map_concat {A B} (g : A -> list B) (L : list (list A)) :
  concat (map g (concat L)) = concat (map (fun l => concat (map g l)) L).
Proof.
  induction L as [|l L IH]; [reflexivity|].
  cbn [concat map]; now rewrite map_app, concat_app, IH.
Qed.

Lemma combine_map_both {A B C} (g1 : A -> B) (g2 : A -> C) (l : list A) :
  combine (map g1 l) (map g2 l) = map (fun x => (g1 x, g2 x)) l.
Proof. induction l as [|x l IH]; cbn; [reflexivity|now rewrite IH]. Qed.

Lemma combine_map_snd {A B C} (g : B -> C) (l : list A) (l' : list B) :
  combine l (map g l') = map (fun ab => (fst ab, g (snd ab))) (combine l l').
Proof.
  revert l'; induction l as [|x l IH]; intros [|y l']; cbn; try reflexivity.
  now rewrite IH.
Qed.

(** The indices a frame reads in the audio table: the token of slot [i]
    shifted by [i] vocabularies. *)
Definition frame_indices (frame : list Z) : list Z :=
  map (fun ti => (fst ti + Z.of_nat (audio_vocab_size (args self)) * Z.of_nat (snd ti))%Z)
    (combine (firstn (audio_num_codebooks (args self)) frame)
       (seq 0 (audio_num_codebooks (args self)))).

(** The embedding of a frame: one audio row per codebook, then the row of
    the text token, which is the last slot. *)
Definition frame_embedding (frame : list Z) : list float :=
  concat (map (table_row (audio_embeddings self)) (frame_indices frame))
  ++ table_row (text_embeddings self) (nth (audio_num_codebooks (args self)) frame 0%Z).

Definition valid_frame (frame : list Z) : Prop :=
  length frame = audio_num_codebooks (args self) + 1 /\
  Forall (fun p => (0 <= p < Z.of_nat (audio_vocab_size (args self)
                                       * audio_num_codebooks (args self)))%Z)
    (frame_indices frame) /\
  (0 <= nth (audio_num_codebooks (args self)) frame 0 <
   Z.of_nat (text_vocab_size (args self)))%Z.

Lemma frame_indices_as_sum (frame : list Z) :
  map (fun ab => (fst ab + snd ab)%Z)
    (combine (firstn (audio_num_codebooks (args self)) frame)
       (data (Torch.tmap (fun k => (Z.of_nat (audio_vocab_size (args self)) * k)%Z)
                (Torch.arange (audio_num_codebooks (args self))))))
  = frame_indices frame.
Proof.
  unfold frame_indices, Torch.tmap, Torch.arange; cbn [data].
  rewrite map_map, combine_map_snd, map_map; reflexivity.
Qed.

Lemma frame_indices_length (frame : list Z) :
  length frame = audio_num_codebooks (args self) + 1 ->
  length (frame_indices frame) = audio_num_codebooks (args self).
Proof.
  intros H; unfold frame_indices.
  rewrite length_map, length_combine, length_firstn, length_seq; lia.
Qed.

(** [_embed_tokens] on frames that are all within the tables. *)
Lemma embed_tokens_on_valid_frames (b s dim : nat) (frames : list (list Z)) :
  embedding_tables dim ->
  wf (text_embeddings self) -> wf (audio_embeddings self) ->
  1 <= audio_num_codebooks (args self) ->
  length frames = b * s -> 1 <= b * s ->
  Forall valid_frame frames ->
  _embed_tokens (Tensor [b; s; audio_num_codebooks (args self) + 1] (concat frames))
  = Ok (Tensor [b; s; audio_num_codebooks (args self) + 1; dim]
          (concat (map frame_embedding frames))).
Proof.
  intros (Hdim & Htext & Haudio) Wt Wa Hc Hn Hpos Hvalid.
  set (c := audio_num_codebooks (args self)) in *.
  assert (Hw : Forall (fun f => length f = c + 1) frames)
    by (eapply Forall_impl; [|exact Hvalid]; now intros f (H & _)).
  rewrite Forall_forall in Hvalid.
  unfold _embed_tokens; fold c.
  (* the text token *)
  rewrite (select_last_slot b s Hn Hw) by lia; cbn [rbind].
  replace (c + 1 - 1) with c by lia.
  rewrite (@embedding_rows _ _ dim _ Htext).
  2:{ cbn [data]; apply Forall_map, Forall_forall; intros f Hf.
      now destruct (Hvalid f Hf) as (_ & _ & H). }
  cbn [rbind shape data app].
  change (Torch.unsqueeze (-2) (Tensor [b; s; dim] ?l)) with (Ok (Tensor [b; s; 1; dim] l)).
  cbn [rbind].
  (* the audio tokens *)
  rewrite (slice_audio_slots b s Hn Hw); cbn [rbind].
  replace (c + 1 - 1) with c by lia.
  change (Torch.tmap ?f (Torch.arange c)) with (Tensor [c] (data (Torch.tmap f (Torch.arange c)))).
  rewrite add_offsets.
  2:{ rewrite length_map; exact Hn. }
  2:{ apply Forall_map; eapply Forall_impl; [|exact Hw]; cbn; intros f Hf.
      rewrite length_firstn; lia. }
  2:{ unfold Torch.tmap, Torch.arange; cbn [data]; now rewrite !length_map, length_seq. }
  cbn [rbind]; rewrite map_map.
  erewrite map_ext by (intros f; apply frame_indices_as_sum).
  unfold Torch.flatten; cbn [shape data].
  rewrite (@embedding_rows _ _ dim _ Haudio).
  2:{ cbn [data]; apply Forall_concat, Forall_map, Forall_forall; intros f Hf.
      now destruct (Hvalid f Hf) as (_ & H & _). }
  cbn [rbind shape data app].
  change (Torch.size 0 (Tensor [b; s; c + 1] ?l)) with (@Ok nat b).
  change (Torch.size 1 (Tensor [b; s; c + 1] ?l)) with (@Ok nat s).
  cbn [rbind].
  rewrite reshape_slots; [|nia|cbn [numel fold_right]; lia].
  cbn [rbind].
  (* one block per frame *)
  rewrite concat_map_concat, map_map.
  rewrite (map_map (fun f => nth c f 0%Z) (table_row (text_embeddings self))).
  rewrite cat_slots.
  - rewrite combine_map_both, map_map; reflexivity.
  - now rewrite length_map.
  - now rewrite length_map.
  - apply Forall_map, Forall_forall; intros f Hf.
    destruct (Hvalid f Hf) as (Hl & Hin & _).
    rewrite (@length_concat_uniform _ dim).
    + now rewrite length_map, frame_indices_length.
    + apply Forall_map; eapply Forall_impl; [|exact Hin]; cbn; intros p Hp.
      now apply table_row_length with (num := audio_vocab_size (args self) * c).
  - apply Forall_map, Forall_forall; intros f Hf.
    destruct (Hvalid f Hf) as (_ & _ & Ht).
    now apply table_row_length with (num := text_vocab_size (args self)).
Qed.

(** X13: on a batch of [b * s >= 1] frames of [audio_num_codebooks + 1]
    slots whose tokens are all within the tables, [_embed_tokens] returns
    for every frame, in order, one row of the audio table per codebook (the
    token of slot [i] looked up at [token + i * audio_vocab_size]) followed
    by the row of the text table for the last slot: a tensor of shape
    [(b, s, audio_num_codebooks + 1, dim)]. *)
Theorem embed_tokens_embeds_each_frame (b s dim : nat) (frames : list (list Z)) :
  embedding_tables dim ->
  wf (text_embeddings self) -> wf (audio_embeddings self) ->
  1 <= audio_num_codebooks (args self) ->
  length frames = b * s -> 1 <= b * s ->
  Forall valid_frame frames ->
  _embed_tokens (Tensor [b; s; audio_num_codebooks (args self) + 1] (concat frames))
  = Ok (Tensor [b; s; audio_num_codebooks (args self) + 1; dim]
          (concat (map frame_embedding frames))).
Proof.
  intros Htab Wt Wa Hc Hn Hpos Hvalid.
  exact (@embed_tokens_on_valid_frames b s dim frames Htab Wt Wa Hc Hn Hpos Hvalid).
Qed.

(** X14: an empty batch is not embedded.  When [tokens] has the shape
    [(b, s, k)] with [b * s * audio_num_codebooks = 0] (no batch row, no
    position, or a model without codebooks) [_embed_tokens] fails, whatever
    the tables hold. *)
Theorem embed_tokens_rejects_an_empty_batch
    (tokens : tensor Z) (b s k : nat) :
  shape tokens = [b; s; k] ->
  b * s * audio_num_codebooks (args self) = 0 ->
  exists e, _embed_tokens tokens = Raise e.
Proof.
  intros Hs H0; unfold _embed_tokens.
  repeat
    (match goal with
     | |- exists e, rbind ?r ?k0 = Raise e =>
         lazymatch r with
         | Torch.reshape _ _ => fail
         | Torch.size _ _ => fail
         | _ => destruct r as [?|?]; cbn [rbind]; [|eexists; reflexivity]
         end
     end).
  unfold Torch.size, rank; rewrite Hs; cbn [length Nat.ltb Nat.leb size_at nth rbind].
  rewrite reshape_empty_batch by assumption; cbn [rbind].
  eexists; reflexivity.
Qed.

(** * Fusing the slots of a frame under the mask *)

Definition add_rows (acc row : list float) : list float :=
  map (fun xy => Float.add (fst xy) (snd xy)) (combine acc row).

Definition mask_row (rb : list float * bool) : list float :=
  map (fun x => Float.mul x (Float.of_bool (snd rb))) (fst rb).

Lemma combine_rows_bits {A B} (v : nat) (rows : list (list A)) (bs : list B) :
  Forall (fun r => length r = v) rows -> length rows = length bs ->
  combine (concat rows) (flat_map (fun b => repeat b v) bs)
  = concat (map (fun rb => combine (fst rb) (repeat (snd rb) v)) (combine rows bs)).
Proof.
  intros H; revert bs; induction H as [|r rows Hr _ IH]; intros [|x bs] Hl;
    try discriminate; [reflexivity|].
  cbn [concat flat_map combine map fst snd].
  rewrite <- combine_app by (now rewrite repeat_length).
  rewrite IH by (now injection Hl); reflexivity.
Qed.

Lemma concat_map_concat_id {A} (L : list (list (list A))) :
  concat (map (@concat A) L) = concat (concat L).
Proof. induction L as [|l L IH]; cbn; [reflexivity|now rewrite concat_app, IH]. Qed.

(** [embeds * tokens_mask.unsqueeze(-1)] summed over the slots, on
    embeddings given position by position as the rows of their slots. *)
Lemma masked_sum_rows (b s n dim : nat) (rows : list (list (list float)))
    (bits : list (list bool)) :
  length rows = b * s -> length bits = b * s ->
  Forall (fun pr => length pr = n /\ Forall (fun r => length r = dim) pr) rows ->
  Forall (fun pb => length pb = n) bits ->
  masked_sum (Tensor [b; s; n; dim] (concat (map (@concat float) rows)))
    (Tensor [b; s; n] (concat bits))
  = Ok (Tensor [b; s; dim]
          (concat (map (fun rb => fold_left add_rows
                                    (map mask_row (combine (fst rb) (snd rb)))
                                    (repeat Float.zero dim))
                     (combine rows bits)))).
Proof.
  intros Hr Hb Hrows Hbits; unfold masked_sum.
  rewrite (unsqueeze_last [b; s; n]); cbn [rbind app].
  assert (Hn : Forall (fun pr => length pr = n) rows)
    by (eapply Forall_impl; [|exact Hrows]; now intros pr [H _]).
  assert (Hslots : Forall (fun r => length r = dim) (concat rows)).
  { apply Forall_concat; eapply Forall_impl; [|exact Hrows]; now intros pr [_ H]. }
  assert (Hcount : length (concat rows) = length (concat bits)).
  { rewrite (length_concat_uniform Hn), (length_concat_uniform Hbits); congruence. }
  rewrite (@broadcast2_column _ _ _ _ _ _ [b; s; n] dim); try reflexivity.
  2:{ unfold wf; cbn [shape data numel fold_right].
      rewrite concat_map_concat_id, (length_concat_uniform Hslots),
        (length_concat_uniform Hn), Hr; lia. }
  2:{ unfold wf; cbn [shape data numel fold_right app].
      rewrite (length_concat_uniform Hbits), Hb; lia. }
  cbn [rbind data app].
  rewrite concat_map_concat_id, (combine_rows_bits _ Hslots Hcount).
  rewrite concat_map, map_map.
  rewrite (@map_ext_in _ _ _ mask_row).
  2:{ intros [r bit] Hin; unfold mask_row; cbn [fst snd].
      apply in_combine_l in Hin.
      pose proof (proj1 (Forall_forall _ _) Hslots r Hin) as Hlen.
      rewrite <- Hlen.
      exact (map_combine_repeat (fun x (m : bool) => Float.mul x (Float.of_bool m)) r bit). }
  rewrite combine_concat by (eapply Forall2_uniform; eauto; congruence).
  rewrite concat_map, map_map, <- concat_map_concat_id, map_map.
  (* the sum over the slots *)
  unfold Torch.sum_dim, rank, size_at, inner, outer.
  cbn [shape data length Nat.ltb Nat.leb nth skipn firstn numel fold_right app].
  rewrite !Nat.mul_1_r.
  set (masked := fun rb : list (list float) * list bool =>
                   map mask_row (combine (fst rb) (snd rb))).
  assert (Hm : Forall (fun rb => length (masked rb) = n
                                 /\ Forall (fun r => length r = dim) (masked rb))
                 (combine rows bits)).
  { apply Forall_forall; intros [pr pb] Hin; unfold masked; cbn [fst snd].
    apply in_combine_l in Hin as Hpr; apply in_combine_r in Hin as Hpb.
    rewrite Forall_forall in Hrows, Hbits.
    destruct (Hrows pr Hpr) as [Hl Hw]; pose proof (Hbits pb Hpb) as Hlb.
    split; [rewrite length_map, length_combine; lia|].
    apply Forall_map, Forall_forall; intros [r bit] Hrb; unfold mask_row; cbn [fst snd].
    apply in_combine_l in Hrb; rewrite Forall_forall in Hw.
    now rewrite length_map, Hw. }
  assert (Eblocks : chunks (n * dim) (b * s)
                      (concat (map (fun x => concat (masked x)) (combine rows bits)))
                    = map (fun x => concat (masked x)) (combine rows bits)).
  { replace (b * s) with (length (map (fun x => concat (masked x)) (combine rows bits)))
      by (rewrite length_map, length_combine; lia).
    apply chunks_concat, Forall_map.
    eapply Forall_impl; [|exact Hm]; cbn; intros rb [Hl Hw].
    now rewrite (length_concat_uniform Hw), Hl. }
  subst masked; cbv beta in Eblocks, Hm.
  rewrite Eblocks, map_map.
  do 3 f_equal; apply map_ext_in; intros rb Hin.
  rewrite Forall_forall in Hm; destruct (Hm rb Hin) as [Hl Hw].
  now rewrite <- Hl, chunks_concat.
Qed.

Lemma combine_map_fst {A B C} (g : A -> C) (l : list A) (l' : list B) :
  combine (map g l) l' = map (fun ab => (g (fst ab), snd ab)) (combine l l').
Proof.
  revert l'; induction l as [|x l IH]; intros [|y l']; cbn; try reflexivity.
  now rewrite IH.
Qed.

(** The rows of the slots of a frame, audio codebooks first. *)
Definition slot_rows (frame : list Z) : list (list float) :=
  map (table_row (audio_embeddings self)) (frame_indices frame)
  ++ [table_row (text_embeddings self) (nth (audio_num_codebooks (args self)) frame 0%Z)].

(** What a position contributes to the backbone input: the sum of the
    rows of its slots, each multiplied by its mask bit. *)
Definition fuse_frame (dim : nat) (frame : list Z) (bits : list bool) : list float :=
  fold_left add_rows (map mask_row (combine (slot_rows frame) bits))
    (repeat Float.zero dim).

Lemma frame_embedding_slots (frame : list Z) :
  frame_embedding frame = concat (slot_rows frame).
Proof.
  unfold frame_embedding, slot_rows.
  rewrite concat_app; cbn [concat]; now rewrite app_nil_r.
Qed.

Lemma slot_rows_shape (dim : nat) (frame : list Z) :
  embedding_tables dim -> wf (text_embeddings self) -> wf (audio_embeddings self) ->
  valid_frame frame ->
  length (slot_rows frame) = audio_num_codebooks (args self) + 1 /\
  Forall (fun r => length r = dim) (slot_rows frame).
Proof.
  intros (Hdim & Htext & Haudio) Wt Wa (Hl & Hin & Ht); unfold slot_rows; split.
  - rewrite length_app, length_map, frame_indices_length by assumption; reflexivity.
  - apply Forall_app; split.
    + apply Forall_map; eapply Forall_impl; [|exact Hin]; cbn; intros p Hp.
      now apply table_row_length
        with (num := audio_vocab_size (args self) * audio_num_codebooks (args self)).
    + constructor; [|constructor].
      now apply table_row_length with (num := text_vocab_size (args self)).
Qed.

(** The fusion on frames that are all within the tables. *)
Lemma fused_on_valid_frames
    (b s dim : nat) (frames : list (list Z)) (bits : list (list bool)) :
  embedding_tables dim ->
  wf (text_embeddings self) -> wf (audio_embeddings self) ->
  1 <= audio_num_codebooks (args self) ->
  length frames = b * s -> 1 <= b * s ->
  Forall valid_frame frames ->
  length bits = b * s ->
  Forall (fun pb => length pb = audio_num_codebooks (args self) + 1) bits ->
  fused (Tensor [b; s; audio_num_codebooks (args self) + 1] (concat frames))
    (Tensor [b; s; audio_num_codebooks (args self) + 1] (concat bits))
  = Ok (Tensor [b; s; dim]
          (concat (map (fun fb => fuse_frame dim (fst fb) (snd fb)) (combine frames bits)))).
Proof.
  intros Htab Wt Wa Hc Hn Hpos Hvalid Hb Hbits; unfold fused.
  rewrite (@embed_tokens_on_valid_frames b s dim frames Htab Wt Wa Hc Hn Hpos Hvalid).
  cbn [rbind].
  erewrite map_ext by apply frame_embedding_slots.
  rewrite <- (map_map slot_rows (@concat float)).
  rewrite masked_sum_rows; try assumption.
  - rewrite combine_map_fst, map_map; reflexivity.
  - now rewrite length_map.
  - apply Forall_map; eapply Forall_impl; [|exact Hvalid]; cbn; intros f Hf.
    now apply slot_rows_shape.
Qed.

(** X15: on frames that [_embed_tokens] accepts and a mask of the same
    shape, the input handed to the backbone holds for every position the
    sum over the slots of that position of the slot's embedding row
    multiplied by the slot's mask bit: a tensor of shape [(b, s, dim)]. *)
Theorem fused_input_sums_the_masked_slots
    (b s dim : nat) (frames : list (list Z)) (bits : list (list bool)) :
  embedding_tables dim ->
  wf (text_embeddings self) -> wf (audio_embeddings self) ->
  1 <= audio_num_codebooks (args self) ->
  length frames = b * s -> 1 <= b * s ->
  Forall valid_frame frames ->
  length bits = b * s ->
  Forall (fun pb => length pb = audio_num_codebooks (args self) + 1) bits ->
  fused (Tensor [b; s; audio_num_codebooks (args self) + 1] (concat frames))
    (Tensor [b; s; audio_num_codebooks (args self) + 1] (concat bits))
  = Ok (Tensor [b; s; dim]
          (concat (map (fun fb => fuse_frame dim (fst fb) (snd fb)) (combine frames bits)))).
Proof.
  intros Htab Wt Wa Hc Hn Hpos Hvalid Hb Hbits.
  exact (@fused_on_valid_frames b s dim frames bits Htab Wt Wa Hc Hn Hpos Hvalid Hb Hbits).
Qed.


Lemma Forall_table_row (P : float -> Prop) (weight : tensor float) (p : Z) :
  Forall P (data weight) -> Forall P (table_row weight p).
Proof.
  intros H; unfold table_row.
  set (l := data weight) in *; set (k := Z.to_nat p * _).
  rewrite <- (firstn_skipn k l) in H; apply Forall_app in H; destruct H as [_ H].
  set (l' := skipn k l) in *; set (d := nth 1 (shape weight) 0).
  rewrite <- (firstn_skipn d l') in H; apply Forall_app in H; exact (proj1 H).
Qed.

Lemma nth_frame_indices (frame : list Z) (i : nat) :
  length frame = audio_num_codebooks (args self) + 1 ->
  i < audio_num_codebooks (args self) ->
  nth i (frame_indices frame) 0%Z
  = (nth i frame 0 + Z.of_nat (audio_vocab_size (args self)) * Z.of_nat i)%Z.
Proof.
  intros Hl Hi; unfold frame_indices.
  rewrite (@nth_map_in _ _ _ _ i (0%Z, 0) 0%Z)
    by (rewrite length_combine, length_firstn, length_seq; lia).
  rewrite combine_nth by (rewrite length_firstn, length_seq; lia).
  cbn [fst snd]; rewrite nth_firstn, seq_nth by lia.
  destruct (Nat.ltb_spec i (audio_num_codebooks (args self))); [reflexivity|lia].
Qed.

Lemma nth_slot_rows (frame : list Z) (i : nat) :
  length frame = audio_num_codebooks (args self) + 1 ->
  i <= audio_num_codebooks (args self) ->
  nth i (slot_rows frame) []
  = if i <? audio_num_codebooks (args self)
    then table_row (audio_embeddings self)
           (nth i frame 0 + Z.of_nat (audio_vocab_size (args self)) * Z.of_nat i)%Z
    else table_row (text_embeddings self) (nth i frame 0%Z).
Proof.
  intros Hl Hi; unfold slot_rows.
  pose proof (frame_indices_length frame Hl) as Hn.
  destruct (Nat.ltb_spec i (audio_num_codebooks (args self))) as [Hlt|Hge].
  - rewrite app_nth1 by (now rewrite length_map, Hn).
    rewrite (@nth_map_in _ _ _ _ i 0%Z []) by lia.
    now rewrite nth_frame_indices.
  - rewrite app_nth2 by (rewrite length_map, Hn; lia).
    rewrite length_map, Hn.
    replace i with (audio_num_codebooks (args self)) by lia.
    now rewrite Nat.sub_diag.
Qed.

Lemma mask_row_off (r : list float) :
  Forall finite r -> mask_row (r, false) = repeat Float.zero (length r).
Proof.
  unfold mask_row; cbn [fst snd Float.of_bool].
  induction 1 as [|x r (a & ->) _ IH]; [reflexivity|].
  cbn [map length repeat Float.mul Float.zero]; rewrite IH, Rmult_0_r; reflexivity.
Qed.

(** Two frames that agree wherever the mask is set fuse to the same
    vector. *)
Lemma fuse_frame_agree (dim : nat) (f f' : list Z) (bits : list bool) :
  embedding_tables dim -> wf (text_embeddings self) -> wf (audio_embeddings self) ->
  Forall finite (data (text_embeddings self)) ->
  Forall finite (data (audio_embeddings self)) ->
  valid_frame f -> valid_frame f' ->
  length bits = audio_num_codebooks (args self) + 1 ->
  (forall i, nth i bits false = true -> nth i f 0%Z = nth i f' 0%Z) ->
  fuse_frame dim f bits = fuse_frame dim f' bits.
Proof.
  intros Htab Wt Wa Ft Fa Hf Hf' Hb Hagree; unfold fuse_frame; f_equal.
  destruct (slot_rows_shape Htab Wt Wa Hf) as [Hl Hw].
  destruct (slot_rows_shape Htab Wt Wa Hf') as [Hl' Hw'].
  apply nth_ext with (d := mask_row ([], false)) (d' := mask_row ([], false)).
  { rewrite !length_map, !length_combine; lia. }
  intros i Hi; rewrite length_map, length_combine, Hl, Hb, Nat.min_id in Hi.
  rewrite !map_nth, !combine_nth by lia.
  assert (Hfin : forall g, valid_frame g -> Forall finite (nth i (slot_rows g) [])).
  { intros g (Hg & _); rewrite nth_slot_rows by (try assumption; lia).
    destruct (i <? _); now apply Forall_table_row. }
  destruct (nth i bits false) eqn:Ebit.
  - destruct Hf as (Hlf & _), Hf' as (Hlf' & _).
    rewrite !nth_slot_rows by (try assumption; lia).
    now rewrite (Hagree i Ebit).
  - rewrite !mask_row_off by auto.
    rewrite Forall_forall in Hw, Hw'.
    rewrite (Hw (nth i (slot_rows f) [])), (Hw' (nth i (slot_rows f') []));
      [reflexivity|apply nth_In; lia|apply nth_In; lia].
Qed.

(** X16: with tables of finite values, the token of a slot whose mask
    bit is off does not reach the backbone: two batches of accepted
    frames that agree on every slot whose mask bit is on are fused into
    the same input.  (The token of such a slot must still be within its
    table, for it is looked up before it is masked.) *)
Theorem masked_out_tokens_do_not_reach_the_backbone
    (b s dim : nat) (frames frames' : list (list Z)) (bits : list (list bool)) :
  embedding_tables dim ->
  wf (text_embeddings self) -> wf (audio_embeddings self) ->
  Forall finite (data (text_embeddings self)) ->
  Forall finite (data (audio_embeddings self)) ->
  1 <= audio_num_codebooks (args self) ->
  length frames = b * s -> length frames' = b * s -> 1 <= b * s ->
  Forall valid_frame frames -> Forall valid_frame frames' ->
  length bits = b * s ->
  Forall (fun pb => length pb = audio_num_codebooks (args self) + 1) bits ->
  (forall p i, nth i (nth p bits []) false = true ->
     nth i (nth p frames []) 0%Z = nth i (nth p frames' []) 0%Z) ->
  exists h,
    fused (Tensor [b; s; audio_num_codebooks (args self) + 1] (concat frames))
      (Tensor [b; s; audio_num_codebooks (args self) + 1] (concat bits)) = Ok h /\
    fused (Tensor [b; s; audio_num_codebooks (args self) + 1] (concat frames'))
      (Tensor [b; s; audio_num_codebooks (args self) + 1] (concat bits)) = Ok h /\
    shape h = [b; s; dim].
Proof.
  intros Htab Wt Wa Ft Fa Hc Hn Hn' Hpos Hv Hv' Hb Hbits Hagree.
  eexists; split; [|split].
  - apply fused_on_valid_frames; eassumption.
  - rewrite (@fused_on_valid_frames b s dim frames' bits) by assumption.
    do 3 f_equal.
    apply nth_ext with (d := fuse_frame dim [] []) (d' := fuse_frame dim [] []).
    { rewrite !length_map, !length_combine; lia. }
    intros p Hp; rewrite length_map, length_combine, Hn', Hb, Nat.min_id in Hp.
    rewrite (@nth_map_in _ _ _ _ p ([], []) _) by (rewrite length_combine; lia).
    rewrite (@nth_map_in _ _ _ _ p ([], []) _) by (rewrite length_combine; lia).
    rewrite !combine_nth by lia; cbn [fst snd].
    rewrite Forall_forall in Hv, Hv', Hbits.
    symmetry; apply fuse_frame_agree; try assumption.
    + apply Hv, nth_In; lia.
    + apply Hv', nth_In; lia.
    + apply Hbits, nth_In; lia.
    + intros i; apply Hagree.
  - reflexivity.
Qed.

(** * Asking the batch driver for no frame *)

(** X17: asked for no frame ([num_frames <= 0]), [generate_frames_batch]
    returns [None] after cloning its three inputs and nothing else: the
    model is not called, nothing is printed, and the call does not fail
    even when the caches have not been set up. *)
Theorem no_frame_asked_returns_none_silently
    (tokens tokens_mask pos : nat) (temperature : float) (topk num_frames : Z)
    (w : world) (t : tensor Z) (m : tensor bool) (p : tensor Z) :
  (num_frames <= 0)%Z ->
  nth_error (heap w) tokens = Some (TLong t) ->
  nth_error (heap w) tokens_mask = Some (TBool m) ->
  nth_error (heap w) pos = Some (TLong p) ->
  generate_frames_batch tokens tokens_mask pos temperature topk num_frames w
  = (Ok None, set_heap (heap w ++ [TLong t; TBool m; TLong p]) w).
Proof.
  intros Hn Ht Hm Hp.
  assert (Hm1 := @load_after_new _ _ (TLong (Torch.clone t)) _ Hm).
  assert (Hp1 := @load_after_new _ _ (TLong (Torch.clone t)) _ Hp).
  assert (Hp2 := @load_after_new _ _ (TBool (Torch.clone m)) _ Hp1).
  unfold generate_frames_batch, try_except, generate_frames_batch_body.
  replace (Z.to_nat num_frames) with 0 by lia.
  unfold bind, load_long, load_bool, new_tensor; cbn [heap set_heap].
  rewrite Ht; cbn [heap set_heap]; rewrite Hm1; cbn [heap set_heap]; rewrite Hp2.
  cbn; unfold Torch.clone; destruct w; cbn; rewrite <- !app_assoc; reflexivity.
Qed.


End Generation.


(** * A small configuration *)

(** A stack that returns its input and counts the positions it has seen. *)
Definition echo_stack (c : nat) (h : tensor float) (input_pos : tensor Z) (mask : tensor bool)
  : Result (tensor float) * nat :=
  (Ok h, c + length (data input_pos)).

(** One codebook, two audio tokens, two text tokens, width 1. *)
Definition single_codebook_model : Model :=
  {| args := {| text_vocab_size := 2; audio_vocab_size := 2; audio_num_codebooks := 1 |};
     text_embeddings := Tensor [2; 1] [Fin 0; Fin 1];
     audio_embeddings := Tensor [2; 1] [Fin 0; Fin 1];
     projection := Tensor [1; 1] [Fin 1];
     codebook0_head := Tensor [2; 1] [Fin 0; Fin 1];
     audio_head := Tensor [0; 1; 2] [] |}.

(** Two codebooks of two audio tokens each. *)
Definition two_codebook_model : Model :=
  {| args := {| text_vocab_size := 2; audio_vocab_size := 2; audio_num_codebooks := 2 |};
     text_embeddings := Tensor [2; 1] [Fin 0; Fin 1];
     audio_embeddings := Tensor [4; 1] [Fin 0; Fin 1; Fin 2; Fin 3];
     projection := Tensor [1; 1] [Fin 1];
     codebook0_head := Tensor [2; 1] [Fin 0; Fin 1];
     audio_head := Tensor [1; 1; 2] [Fin 0; Fin 1] |}.

Definition unit_noise (i : nat) : R := 1%R.

(** The indices a run draws: two non-zero samples, then the sentinel. *)
Definition two_then_zero (i : nat) : Z :=
  match i with
  | 0 | 1 => 1%Z
  | _ => 0%Z
  end.

Definition fresh_world : world nat :=
  {| backbone := {| caches_enabled := false; cache := 0 |};
     decoder := {| caches_enabled := false; cache := 0 |};
     backbone_causal_mask := None;
     decoder_causal_mask := None;
     heap := [];
     rng := 0;
     trace := [] |}.

Definition ready_world : world nat :=
  snd (setup_caches 0 4 single_codebook_model 1 fresh_world).

(** A text-only frame: audio slot 0 masked out, text token 1. *)
Definition text_frame : tensor Z := Tensor [1; 1; 2] [0; 1]%Z.
Definition text_frame_mask : tensor bool := Tensor [1; 1; 2] [false; true].
Definition first_position : tensor Z := Tensor [1; 1] [0%Z].

(** The same call with the three inputs held as tensor objects. *)
Definition batch_world : world nat :=
  set_heap [TLong text_frame; TBool text_frame_mask; TLong first_position] ready_world.

(** ** Calling before the caches are set up *)

Lemma caches_not_enabled_witness :
  caches_enabled (backbone fresh_world) = false /\
  forward echo_stack single_codebook_model text_frame text_frame_mask first_position
    fresh_world
  = (Raise caches_not_enabled, fresh_world) /\
  generate_frame 0 echo_stack echo_stack unit_noise single_codebook_model
    text_frame text_frame_mask first_position (Fin 1) 1 fresh_world
  = (Raise caches_not_enabled, fresh_world).
Proof.
  assert (H : caches_enabled (backbone fresh_world) = false) by reflexivity.
  destruct (caches_not_enabled_is_a_precondition_error 0 echo_stack echo_stack 4 unit_noise
              single_codebook_model text_frame text_frame_mask first_position (Fin 1) 1
              fresh_world H) as (Hf & Hg & _).
  split; [exact H|]; split; [exact Hf|]; apply Hg; reflexivity.
Defined.

(** ** One failure, seen through both generators *)

(** The three inputs held as tensor objects, before [setup_caches]. *)
Definition unready_world : world nat :=
  set_heap [TLong text_frame; TBool text_frame_mask; TLong first_position] fresh_world.

(** ** Sampling among two logits *)

Definition two_logits : tensor float := Tensor [1; 2] [Fin 0; Fin 1].


(** ** Frames of the wrong width *)

(** A frame of four slots for a model that expects three. *)
Definition wide_frame : tensor Z := Tensor [1; 1; 4] [0; 1; 0; 1]%Z.
Definition wide_frame_mask : tensor bool := Tensor [1; 1; 4] [true; true; true; true].

Lemma mismatched_frame_witness :
  (exists e, _embed_tokens two_codebook_model wide_frame = Raise e) /\
  (exists e, fused two_codebook_model wide_frame wide_frame_mask = Raise e).
Proof.
  assert (Ht : embedding_tables two_codebook_model 1)
    by (repeat split; apply Nat.le_refl).
  assert (Hs : shape wide_frame = [1; 1; 4]) by reflexivity.
  assert (Hk : 4 <> audio_num_codebooks (args two_codebook_model) + 1)
    by (cbn; lia).
  destruct (mismatched_frame_fails wide_frame wide_frame_mask Ht Hs Hk) as (He & Hf).
  split; [apply He; lia|apply Hf; reflexivity].
Defined.

(** A frame of two slots for the same model: the single audio slot is
    read for both codebooks, and with a mask of the expected three slots
    the fusion goes through. *)
Definition narrow_frame : tensor Z := Tensor [1; 1; 2] [1; 1]%Z.
Definition three_slot_mask : tensor bool := Tensor [1; 1; 3] [true; true; true].

Lemma two_slot_frame_is_embedded :
  shape narrow_frame = [1; 1; 2] /\
  audio_num_codebooks (args two_codebook_model) + 1 = 3 /\
  _embed_tokens two_codebook_model narrow_frame
  = Ok (Tensor [1; 1; 3; 1] [Fin 1; Fin 3; Fin 1]) /\
  (exists h, fused two_codebook_model narrow_frame three_slot_mask = Ok h /\
             shape h = [1; 1; 1]).
Proof.
  split; [reflexivity|]; split; [reflexivity|]; split; [reflexivity|].
  eexists; split; reflexivity.
Defined.

(** ** A frame of the single-codebook model *)

(** With [topk = 1] the draw is the larger of two logits, whatever the
    noise. *)
Lemma top1_of_two (a b : R) (w : world nat) :
  (a < b)%R -> (- Float.huge < a)%R -> (b < Float.huge)%R ->
  sample_topk unit_noise (Tensor [1; 2] [Fin a; Fin b]) 1 (Fin 1) w
  = (Ok (Tensor [1; 1] [1%Z]), set_rng (rng w + 2) w).
Proof.
  intros Hab Ha Hb.
  assert (Hf : Forall (scalable 1) [Fin a; Fin b])
    by (repeat constructor; eexists; (split; [reflexivity|lra])).
  assert (Hq : forall i, (0 < unit_noise i)%R) by (intros i; unfold unit_noise; lra).
  destruct (sample_topk_on_finite_rows unit_noise [1] 2
              (logits := Tensor [1; 2] [Fin a; Fin b]) (topk := 1) (t := 1) w
              eq_refl eq_refl Hf Rlt_0_1 ltac:(lia) Hq)
    as (sample & E & Hs & Hl & Hrow).
  rewrite E; f_equal; f_equal.
  destruct sample as [s d]; cbn [shape data numel fold_right app] in Hs, Hl; subst s.
  destruct d as [|x [|? ?]]; try discriminate; f_equal; f_equal.
  specialize (Hrow 0 (le_n 1)); cbv zeta in Hrow; destruct Hrow as (Hx & Hi & Hin).
  cbn [nth data] in Hx; rewrite Hx; clear Hx.
  change (nth 0 (Torch.rows_of {| shape := [1; 2]; data := [Fin a; Fin b] |}) [])
    with [Fin a; Fin b] in *.
  set (i := sample_row _ _ _ _) in *; clearbody i.
  cbn [map Float.div] in Hin; rewrite !Reqb_false in Hin by lra.
  rewrite !of_real_in_range in Hin by lra.
  unfold Torch.sort_desc in Hin.
  cbn [fold_right Torch.insert_desc Torch.above Float.ltb] in Hin.
  rewrite Rltb_true in Hin by lra.
  destruct i as [|[|i]]; [|reflexivity|lia].
  cbn in Hin; destruct Hin as [Hin|[]]; injection Hin as Hin; lra.
Qed.

Ltac run_ok :=
  erewrite bind_ok by (vm_compute; reflexivity); cbv beta.

(** The state after the frame: one backbone call seen, the decoder
    cache cleared, two noise values consumed. *)
Definition world_after_frame : world nat :=
  {| backbone := {| caches_enabled := true; cache := 1 |};
     decoder := {| caches_enabled := true; cache := 0 |};
     backbone_causal_mask := backbone_causal_mask ready_world;
     decoder_causal_mask := decoder_causal_mask ready_world;
     heap := [];
     rng := 2;
     trace := [BackboneSetup; DecoderSetup; BackboneForward; DecoderReset] |}.

Lemma single_codebook_run :
  generate_frame 0 echo_stack echo_stack unit_noise single_codebook_model
    text_frame text_frame_mask first_position (Fin 1) 1 ready_world
  = (Ok (Tensor [1; 1] [1%Z]), world_after_frame).
Proof.
  unfold generate_frame.
  do 9 run_ok.
  erewrite bind_ok by (apply top1_of_two; unfold Float.huge; lra); cbv beta.
  do 8 run_ok.
  vm_compute; reflexivity.
Qed.

Lemma single_codebook_witness :
  audio_num_codebooks (args single_codebook_model) = 1 /\
  exists c0_logits w0 w1,
    forward echo_stack single_codebook_model text_frame text_frame_mask first_position
      ready_world = (Ok c0_logits, w0) /\
    sample_topk unit_noise c0_logits 1 (Fin 1) w0 = (Ok (Tensor [1; 1] [1%Z]), w1) /\
    shape (Tensor [1; 1] [1%Z]) = removelast (shape c0_logits) ++ [1] /\
    trace world_after_frame = trace ready_world ++ [BackboneForward; DecoderReset].
Proof.
  assert (Hc : audio_num_codebooks (args single_codebook_model) = 1) by reflexivity.
  split; [exact Hc|].
  exact (single_codebook_frame_is_codebook0_sample 0 echo_stack echo_stack unit_noise
           single_codebook_model text_frame text_frame_mask first_position (Fin 1) 1
           ready_world Hc single_codebook_run).
Defined.

(** ** Five frames asked of the batch driver *)

Lemma scale_two (t a b : R) (s : list nat) :
  t <> 0%R ->
  (- Float.huge < a / t < Float.huge)%R -> (- Float.huge < b / t < Float.huge)%R ->
  Torch.tmap (fun y => Float.div y (Fin t)) (Tensor s [Fin a; Fin b])
  = Tensor s [Fin (a / t); Fin (b / t)].
Proof.
  intros Ht Ha Hb; apply (@tmap_div_finite t s [a; b] Ht).
  now repeat constructor.
Qed.

Lemma top_value_of_two (a b : R) :
  (a < b)%R ->
  Torch.topk_values 1 (Tensor [1; 2] [Fin a; Fin b]) = Ok (Tensor [1; 1] [Fin b]).
Proof.
  intros Hab; unfold Torch.topk_values, Torch.rows_of, Torch.sort_desc.
  cbn -[Float.Rltb]; now rewrite Rltb_true.
Qed.

Lemma below_of_two (a b : R) :
  (a < b)%R ->
  Torch.broadcast2 Float.ltb (Tensor [1; 2] [Fin a; Fin b]) (Tensor [1; 1] [Fin b])
  = Ok (Tensor [1; 2] [true; false]).
Proof.
  intros Hab; unfold Torch.broadcast2.
  cbn -[Float.Rltb]; rewrite Rltb_true, Rltb_false by lra; reflexivity.
Qed.

(** The loop state of the first turn: the inputs and their three clones. *)
Definition cloned_world : world nat :=
  set_heap
    (heap batch_world ++ [TLong text_frame; TBool text_frame_mask; TLong first_position])
    batch_world.

Ltac score_rows :=
  repeat first
    [ split
    | apply Forall_nil
    | apply Forall_cons
    | apply Exists_cons_hd; eexists; reflexivity
    | apply Exists_cons_tl
    | left; reflexivity
    | right; eexists; reflexivity ].

(** The first turn of the loop, up to the state it leaves: the logits
    are scaled, all but the largest are overwritten with [-inf], and the
    softmax of what is left is handed to [torch.multinomial]. *)
Ltac first_turn :=
  unfold batch_step; cbv beta iota;
  do 5 run_ok;
  (* if temperature > 0: logits = logits / temperature *)
  erewrite bind_ok;
    [|change (Float.ltb Float.zero (Fin 1)) with (Float.Rltb 0 1);
      rewrite Rltb_true by lra; cbv iota;
      run_ok; rewrite scale_two by (try unfold Float.huge; lra); vm_compute; reflexivity];
  cbv beta;
  (* if topk > 0: logits[logits < kth] = -inf *)
  erewrite bind_ok;
    [|change (0 <? 1)%Z with true; cbv iota;
      run_ok;
      erewrite bind_ok by (unfold lift; rewrite top_value_of_two by lra; reflexivity);
      cbv beta;
      run_ok;
      erewrite bind_ok by (unfold lift; rewrite below_of_two by lra; reflexivity);
      cbv beta;
      vm_compute; reflexivity];
  cbv beta;
  run_ok;
  (* torch.multinomial(softmax(logits), 1) *)
  erewrite bind_ok;
    [|apply (multinomial_softmax two_then_zero (b := 1) (v := 2));
      [reflexivity|reflexivity|lia|];
      match goal with
      | |- Forall _ (Torch.rows_of ?x) =>
          let r := eval vm_compute in (Torch.rows_of x) in
          change (Torch.rows_of x) with r
      end;
      score_rows];
  cbv beta;
  vm_compute; reflexivity.

Lemma body_fails_in_second_turn :
  exists w2,
    generate_frames_batch_body echo_stack two_then_zero single_codebook_model 0 1 2
      (Fin 1) 1 5 batch_world
    = (Raise (too_many_indices 2), w2) /\
    nth_error (heap w2) 8 = Some (TLong (Tensor [1; 2] [1; 0]%Z)) /\
    rng w2 = 1 /\
    trace w2 = trace batch_world ++ [BackboneForward].
Proof.
  eexists; split.
  - unfold generate_frames_batch_body.
    do 6 run_ok.
    apply bind_raise.
    change (seq 0 (Z.to_nat 5)) with [0; 1; 2; 3; 4]; cbn [for_break].
    erewrite bind_ok; [|first_turn].
    cbv beta iota; cbn [for_break].
    apply bind_raise.
    (* the second turn: forward on a two-dimensional curr_tokens *)
    unfold batch_step; cbv beta iota.
    do 3 run_ok.
    apply bind_raise.
    vm_compute; reflexivity.
  - repeat split; reflexivity.
Qed.

(** C3: asked for five frames, with a sampler that draws two non-zero
    tokens and then the all-zero one, [generate_frames_batch] does not
    return two frames.  The first turn appends its sample and leaves a
    two-dimensional [curr_tokens]; the second turn fails on it inside
    [_embed_tokens]; the handler prints the error and the call returns
    [None], after a single draw. *)
Theorem batch_of_five_frames_returns_none :
  exists w',
    generate_frames_batch echo_stack two_then_zero single_codebook_model 0 1 2
      (Fin 1) 1 5 batch_world
    = (Ok None, w') /\
    nth_error (heap w') 8 = Some (TLong (Tensor [1; 2] [1; 0]%Z)) /\
    rng w' = 1 /\
    trace w'
    = trace batch_world
      ++ [BackboneForward;
          Print "Error in generate_frames_batch: too many indices for tensor of dimension 2"].
Proof.
  destruct body_fails_in_second_turn as (w2 & E & Hh & Hr & Ht).
  eexists; split.
  - unfold generate_frames_batch, try_except; rewrite E; reflexivity.
  - cbn; rewrite Ht, <- app_assoc; repeat split; assumption.
Qed.


(** * The further properties on the small configuration *)

(** ** Looking positions up in a mask *)

Definition lower_two : tensor bool := Tensor [2; 2] [true; false; true; true].
Definition last_then_first : tensor Z := Tensor [1; 2] [-1; 0]%Z.
Definition beyond_two : tensor Z := Tensor [1; 2] [0; 2]%Z.
Definition flat_mask : tensor bool := Tensor [2] [true; false].

Lemma gathers_rows_witness :
  _index_causal_mask lower_two last_then_first
  = Ok (Tensor [1; 2; 2] [true; true; true; false]).
Proof.
  assert (H : Forall (fun p => (- Z.of_nat 2 <= p < Z.of_nat 2)%Z) (data last_then_first))
    by (repeat constructor; cbn; lia).
  exact (@index_causal_mask_gathers_rows lower_two 2 2 last_then_first eq_refl H).
Defined.

Lemma rejects_positions_witness :
  _index_causal_mask lower_two beyond_two
  = Raise (Exn IndexError "index out of range") /\
  _index_causal_mask flat_mask beyond_two = Raise (too_many_indices 1).
Proof.
  split.
  - apply (proj1 (index_causal_mask_rejects_positions_out_of_range lower_two beyond_two)
             2 2 eq_refl).
    apply Exists_cons_tl, Exists_cons_hd; right; cbn; lia.
  - apply (proj2 (index_causal_mask_rejects_positions_out_of_range flat_mask beyond_two)).
    cbn; lia.
Defined.

Definition both_positions : tensor Z := Tensor [2] [0; 1]%Z.

Lemma sees_the_past_witness :
  exists mask r,
    _create_causal_mask 2 = Ok mask /\
    _index_causal_mask mask both_positions = Ok r /\
    shape r = [2; 2] /\
    nth 1 (data r) true = false.
Proof.
  assert (H : Forall (fun p => (0 <= p < Z.of_nat 2)%Z) (data both_positions))
    by (repeat constructor; cbn; lia).
  destruct (@indexed_causal_mask_sees_the_past 2 both_positions H)
    as (mask & r & Hm & Hr & Hs & He).
  exists mask, r; repeat split; try assumption.
  assert (Hl : length (data r) = 4).
  { unfold _create_causal_mask in Hm; injection Hm as <-.
    vm_compute in Hr; injection Hr as <-; reflexivity. }
  specialize (He 0 1 ltac:(cbn; lia) ltac:(lia)).
  cbn in He; rewrite <- He.
  apply nth_indep; lia.
Defined.

(** ** Positions and masks in the two generators *)

Definition far_position : tensor Z := Tensor [1; 1] [4%Z].

Lemma position_outside_witness :
  forward echo_stack single_codebook_model text_frame text_frame_mask far_position
    ready_world
  = (Raise (Exn IndexError "index out of range"), ready_world) /\
  generate_frame 0 echo_stack echo_stack unit_noise single_codebook_model
    text_frame text_frame_mask far_position (Fin 1) 1 ready_world
  = (Raise (Exn IndexError "index out of range"), ready_world).
Proof.
  assert (H : Exists (fun p => (p < - Z.of_nat 4)%Z \/ (Z.of_nat 4 <= p)%Z)
                (data far_position))
    by (apply Exists_cons_hd; right; cbn; lia).
  destruct (@position_outside_the_mask_is_rejected nat 0 echo_stack echo_stack unit_noise
              single_codebook_model text_frame text_frame_mask far_position (Fin 1) 1
              ready_world _ 4 4 eq_refl eq_refl eq_refl H) as (Hf & Hg).
  split; [exact Hf|apply Hg; reflexivity].
Defined.

(** The backbone's caches set up directly, without [setup_caches]. *)
Definition maskless_world : world nat :=
  set_backbone {| caches_enabled := true; cache := 0 |} fresh_world.

Lemma unregistered_mask_witness :
  forward echo_stack single_codebook_model text_frame text_frame_mask first_position
    maskless_world
  = (Raise (Exn AttributeError "'Model' object has no attribute 'backbone_causal_mask'"),
     maskless_world) /\
  generate_frame 0 echo_stack echo_stack unit_noise single_codebook_model
    text_frame text_frame_mask first_position (Fin 1) 1 maskless_world
  = (Raise (Exn AttributeError "'Model' object has no attribute 'backbone_causal_mask'"),
     maskless_world).
Proof.
  destruct (@unregistered_mask_is_an_attribute_error nat 0 echo_stack echo_stack unit_noise
              single_codebook_model text_frame text_frame_mask first_position (Fin 1) 1
              maskless_world eq_refl eq_refl) as (Hf & Hg).
  split; [exact Hf|apply Hg; reflexivity].
Defined.

(** ** Sampling *)

Lemma topk_outside_witness :
  exists e,
    sample_topk unit_noise two_logits 3 (Fin 1) fresh_world = (Raise e, fresh_world) /\
    exn_kind e = RuntimeError.
Proof.
  assert (H : (3 <= 0)%Z \/ (Z.of_nat 2 < 3)%Z) by (right; cbn; lia).
  exact (@sample_topk_rejects_topk_outside_the_vocabulary nat unit_noise two_logits [1] 2 3
           (Fin 1) fresh_world eq_refl H).
Defined.


(** ** A frame of the two-codebook model *)

(** The model after [setup_caches], and a text-only frame for it. *)
Definition two_ready_world : world nat :=
  snd (setup_caches 0 4 two_codebook_model 1 fresh_world).
Definition silent_frame : tensor Z := Tensor [1; 1; 3] [0; 0; 1]%Z.
Definition silent_frame_mask : tensor bool := Tensor [1; 1; 3] [false; false; true].

Lemma two_codebook_run :
  exists w',
    generate_frame 0 echo_stack echo_stack unit_noise two_codebook_model
      silent_frame silent_frame_mask first_position (Fin 1) 1 two_ready_world
    = (Ok (Tensor [1; 2] [1; 1]%Z), w').
Proof.
  eexists.
  unfold generate_frame.
  do 9 run_ok.
  erewrite bind_ok by (apply top1_of_two; unfold Float.huge; lra); cbv beta.
  do 8 run_ok.
  change (seq 1 (audio_num_codebooks (args two_codebook_model) - 1)) with [1].
  cbn [for_each].
  erewrite bind_ok.
  2:{ erewrite bind_ok.
      2:{ unfold decoder_step; cbv beta iota.
          do 7 run_ok.
          erewrite bind_ok by (apply top1_of_two; unfold Float.huge; lra); cbv beta.
          do 3 run_ok.
          vm_compute; reflexivity. }
      cbv beta; reflexivity. }
  cbv beta.
  vm_compute; reflexivity.
Qed.

Lemma two_codebook_tables : embedding_tables two_codebook_model 1.
Proof. repeat split; apply Nat.le_refl. Qed.

Lemma echo_stack_keeps_shape : keeps_shape echo_stack.
Proof. intros c h pos mask r c' H; injection H as <- _; reflexivity. Qed.

Lemma decoder_steps_witness :
  exists w',
    generate_frame 0 echo_stack echo_stack unit_noise two_codebook_model
      silent_frame silent_frame_mask first_position (Fin 1) 1 two_ready_world
    = (Ok (Tensor [1; 2] [1; 1]%Z), w') /\
    trace w'
    = trace two_ready_world ++ [BackboneForward; DecoderReset; DecoderForward].
Proof.
  destruct two_codebook_run as (w' & E).
  exists w'; split; [exact E|].
  exact (@generate_frame_steps_the_decoder_once_per_later_codebook nat 0 echo_stack
           echo_stack unit_noise two_codebook_model silent_frame silent_frame_mask
           first_position (Fin 1) 1 two_ready_world w' (Tensor [1; 2] [1; 1]%Z) E).
Defined.

Lemma one_token_per_codebook_witness :
  exists w',
    generate_frame 0 echo_stack echo_stack unit_noise two_codebook_model
      silent_frame silent_frame_mask first_position (Fin 1) 1 two_ready_world
    = (Ok (Tensor [1; 2] [1; 1]%Z), w') /\
    shape silent_frame = [1; 1; audio_num_codebooks (args two_codebook_model) + 1] /\
    shape (Tensor [1; 2] [1; 1]%Z) = [1; audio_num_codebooks (args two_codebook_model)].
Proof.
  destruct two_codebook_run as (w' & E).
  exists w'; split; [exact E|].
  destruct (@generate_frame_returns_one_token_per_codebook nat 0 echo_stack echo_stack
              unit_noise two_codebook_model silent_frame silent_frame_mask first_position
              (Fin 1) 1 two_ready_world w' (Tensor [1; 2] [1; 1]%Z) 1 1 3 1
              two_codebook_tables echo_stack_keeps_shape eq_refl eq_refl E)
    as (Hk & _ & Hs).
  split; [reflexivity|exact Hs].
Defined.

(** ** One frame asked of the batch driver *)

Lemma one_frame_batch_run :
  exists w',
    generate_frames_batch echo_stack two_then_zero single_codebook_model 0 1 2
      (Fin 1) 1 1 batch_world
    = (Ok (Some (Tensor [1; 1] [1%Z])), w').
Proof.
  assert (E : exists w2,
            generate_frames_batch_body echo_stack two_then_zero single_codebook_model
              0 1 2 (Fin 1) 1 1 batch_world
            = (Ok (Some (Tensor [1; 1] [1%Z])), w2)).
  { eexists; unfold generate_frames_batch_body.
    do 6 run_ok.
    change (seq 0 (Z.to_nat 1)) with [0]; cbn [for_break].
    erewrite bind_ok.
    2:{ erewrite bind_ok; [|first_turn].
        cbv beta iota; cbn [for_break]; reflexivity. }
    cbv beta.
    vm_compute; reflexivity. }
  destruct E as (w2 & E); exists w2.
  unfold generate_frames_batch, try_except; rewrite E; reflexivity.
Qed.

Lemma one_frame_batch_witness :
  exists w',
    generate_frames_batch echo_stack two_then_zero single_codebook_model 0 1 2
      (Fin 1) 1 1 batch_world
    = (Ok (Some (Tensor [1; 1] [1%Z])), w') /\
    trace w' = trace batch_world ++ [BackboneForward].
Proof.
  destruct one_frame_batch_run as (w' & E).
  exists w'; split; [exact E|].
  destruct (@generate_frames_batch_returns_at_most_one_token nat echo_stack two_then_zero
              single_codebook_model 0 1 2 (Fin 1) 1 1 batch_world) as [_ H].
  exact (proj2 (proj2 (H _ _ E))).
Defined.

(** ** Embedding and fusing frames of the two-codebook model *)

Lemma shifted_index_witness :
  _embed_audio two_codebook_model 0 (Tensor [1; 1] [3%Z])
  = Ok (Tensor [1; 1; 1] [Fin 3]).
Proof.
  destruct (@embed_audio_checks_the_shifted_index_only two_codebook_model 0
              (Tensor [1; 1] [3%Z]) 1 eq_refl) as [[_ Hok] Hval].
  destruct Hok as [r Hr]; [repeat constructor; cbn; lia|].
  rewrite Hr; f_equal; exact (Hval r Hr).
Defined.

Definition audio_frame : list Z := [1; 0; 1]%Z.
Definition other_audio_frame : list Z := [1; 1; 1]%Z.
Definition audio_frame_bits : list bool := [true; false; true].

Lemma audio_frame_valid : valid_frame two_codebook_model audio_frame.
Proof. repeat split; cbn; repeat constructor; lia. Qed.

Lemma other_audio_frame_valid : valid_frame two_codebook_model other_audio_frame.
Proof. repeat split; cbn; repeat constructor; lia. Qed.

Lemma embeds_each_frame_witness :
  _embed_tokens two_codebook_model (Tensor [1; 1; 3] audio_frame)
  = Ok (Tensor [1; 1; 3; 1] [Fin 1; Fin 2; Fin 1]).
Proof.
  assert (Hv : Forall (valid_frame two_codebook_model) [audio_frame])
    by (constructor; [exact audio_frame_valid|constructor]).
  exact (@embed_tokens_embeds_each_frame two_codebook_model 1 1 1 [audio_frame]
           two_codebook_tables eq_refl eq_refl ltac:(cbn; lia) eq_refl ltac:(lia) Hv).
Defined.

Lemma empty_batch_witness :
  exists e, _embed_tokens two_codebook_model (Tensor [0; 1; 3] []) = Raise e.
Proof.
  exact (@embed_tokens_rejects_an_empty_batch two_codebook_model (Tensor [0; 1; 3] [])
           0 1 3 eq_refl eq_refl).
Defined.

Lemma masked_slots_witness :
  fused two_codebook_model (Tensor [1; 1; 3] audio_frame) (Tensor [1; 1; 3] audio_frame_bits)
  = Ok (Tensor [1; 1; 1]
          (concat [fuse_frame two_codebook_model 1 audio_frame audio_frame_bits])).
Proof.
  assert (Hv : Forall (valid_frame two_codebook_model) [audio_frame])
    by (constructor; [exact audio_frame_valid|constructor]).
  assert (Hb : Forall (fun pb : list bool =>
                         length pb = audio_num_codebooks (args two_codebook_model) + 1)
                 [audio_frame_bits])
    by (constructor; [reflexivity|constructor]).
  exact (@fused_input_sums_the_masked_slots two_codebook_model 1 1 1 [audio_frame]
           [audio_frame_bits] two_codebook_tables eq_refl eq_refl ltac:(cbn; lia) eq_refl
           ltac:(lia) Hv eq_refl Hb).
Defined.

Lemma masked_out_tokens_witness :
  exists h,
    fused two_codebook_model (Tensor [1; 1; 3] audio_frame)
      (Tensor [1; 1; 3] audio_frame_bits) = Ok h /\
    fused two_codebook_model (Tensor [1; 1; 3] other_audio_frame)
      (Tensor [1; 1; 3] audio_frame_bits) = Ok h /\
    shape h = [1; 1; 1].
Proof.
  assert (Hv : Forall (valid_frame two_codebook_model) [audio_frame])
    by (constructor; [exact audio_frame_valid|constructor]).
  assert (Hv' : Forall (valid_frame two_codebook_model) [other_audio_frame])
    by (constructor; [exact other_audio_frame_valid|constructor]).
  assert (Hb : Forall (fun pb : list bool =>
                         length pb = audio_num_codebooks (args two_codebook_model) + 1)
                 [audio_frame_bits])
    by (constructor; [reflexivity|constructor]).
  assert (Ft : Forall finite (data (text_embeddings two_codebook_model)))
    by (repeat constructor; eexists; reflexivity).
  assert (Fa : Forall finite (data (audio_embeddings two_codebook_model)))
    by (repeat constructor; eexists; reflexivity).
  assert (Hagree : forall p i,
            nth i (nth p [audio_frame_bits] []) false = true ->
            nth i (nth p [audio_frame] []) 0%Z = nth i (nth p [other_audio_frame] []) 0%Z).
  { intros [|p] i H.
    - destruct i as [|[|[|i]]]; try reflexivity; try discriminate H.
    - destruct p; destruct i; discriminate H. }
  exact (@masked_out_tokens_do_not_reach_the_backbone two_codebook_model 1 1 1
           [audio_frame] [other_audio_frame] [audio_frame_bits] two_codebook_tables
           eq_refl eq_refl Ft Fa ltac:(cbn; lia) eq_refl eq_refl ltac:(lia) Hv Hv' eq_refl Hb
           Hagree).
Defined.


(** ** No frame asked, before the caches are set up *)

Lemma no_frame_asked_witness :
  caches_enabled (backbone unready_world) = false /\
  generate_frames_batch echo_stack two_then_zero single_codebook_model 0 1 2
    (Fin 1) 1 0 unready_world
  = (Ok None,
     set_heap (heap unready_world
               ++ [TLong text_frame; TBool text_frame_mask; TLong first_position])
       unready_world).
Proof.
  split; [reflexivity|].
  exact (@no_frame_asked_returns_none_silently nat echo_stack two_then_zero
           single_codebook_model 0 1 2 (Fin 1) 1 0 unready_world text_frame text_frame_mask
           first_position ltac:(lia) eq_refl eq_refl eq_refl).
Defined.


(** ** One failure, seen through both generators, at three places *)

(** A decoder stack that fails. *)
Definition failing_stack (c : nat) (h : tensor float) (input_pos : tensor Z)
    (mask : tensor bool) : Result (tensor float) * nat :=
  (Raise (Exn RuntimeError "decoder failed"), c).

(** The frame of the two-codebook model reaches its loop, and the first
    turn fails in the decoder. *)
Lemma first_turn_fails_in_the_decoder :
  exists st w0 w',
    frame_start echo_stack unit_noise two_codebook_model
      silent_frame silent_frame_mask first_position (Fin 1) 1 two_ready_world
    = (Ok st, w0) /\
    decoder_step failing_stack unit_noise two_codebook_model 1 (Fin 1) 1 st
      (snd (decoder_reset_caches 0 w0))
    = (Raise (Exn RuntimeError "decoder failed"), w').
Proof.
  do 3 eexists; split.
  - unfold frame_start.
    do 9 run_ok.
    erewrite bind_ok by (apply top1_of_two; unfold Float.huge; lra); cbv beta.
    do 7 run_ok.
    vm_compute; reflexivity.
  - unfold decoder_step; cbv beta iota.
    do 3 run_ok.
    apply bind_raise; vm_compute; reflexivity.
Qed.

(** The batch loop on [batch_world]: the first turn runs to its end, the
    second one raises. *)
Lemma second_turn_raises :
  exists st1 w1 w',
    next_turns (seq 0 1)
      (batch_step echo_stack two_then_zero single_codebook_model (Fin 1) 1)
      ([], length (heap batch_world), length (heap batch_world) + 1,
       length (heap batch_world) + 2)
      (set_heap (heap batch_world
                 ++ [TLong text_frame; TBool text_frame_mask; TLong first_position])
         batch_world)
    = Some (st1, w1) /\
    batch_step echo_stack two_then_zero single_codebook_model (Fin 1) 1 1 st1 w1
    = (Raise (too_many_indices 2), w').
Proof.
  assert (E : exists st1 w1,
            batch_step echo_stack two_then_zero single_codebook_model (Fin 1) 1 0
              ([], 3, 4, 5) cloned_world = (Ok (Next st1), w1) /\
            exists w',
              batch_step echo_stack two_then_zero single_codebook_model (Fin 1) 1 1 st1 w1
              = (Raise (too_many_indices 2), w')).
  { do 2 eexists; split; [first_turn|].
    eexists; unfold batch_step; cbv beta iota.
    do 3 run_ok.
    apply bind_raise; vm_compute; reflexivity. }
  destruct E as (st1 & w1 & E0 & w' & E1).
  exists st1, w1, w'; split; [|exact E1].
  change (seq 0 1) with [0]; cbn [next_turns].
  change (length (heap batch_world)) with 3; cbn [Nat.add].
  fold cloned_world; rewrite E0; reflexivity.
Qed.

Lemma propagates_and_absorbs_witness :
  generate_frame 0 echo_stack echo_stack unit_noise single_codebook_model
    text_frame text_frame_mask first_position (Fin 1) 1 unready_world
  = (Raise caches_not_enabled, unready_world) /\
  (exists w',
     generate_frame 0 echo_stack failing_stack unit_noise two_codebook_model
       silent_frame silent_frame_mask first_position (Fin 1) 1 two_ready_world
     = (Raise (Exn RuntimeError "decoder failed"), w')) /\
  (exists w',
     generate_frames_batch echo_stack two_then_zero single_codebook_model 0 1 2
       (Fin 1) 1 5 unready_world
     = (Ok None,
        emit (Print "Error in generate_frames_batch: backbone caches are not enabled") w')) /\
  (exists w',
     generate_frames_batch echo_stack two_then_zero single_codebook_model 0 1 2
       (Fin 1) 1 5 batch_world
     = (Ok None,
        emit (Print
                "Error in generate_frames_batch: too many indices for tensor of dimension 2")
          w')).
Proof.
  split; [|split; [|split]].
  - destruct (generate_frame_propagates_and_batch_absorbs 0 echo_stack echo_stack unit_noise
                two_then_zero single_codebook_model text_frame text_frame_mask
                first_position 0 1 2 (Fin 1) 1 5 unready_world) as (Hf & _).
    apply Hf; reflexivity.
  - destruct first_turn_fails_in_the_decoder as (st & w0 & w' & Hstart & Hturn).
    destruct (generate_frame_propagates_and_batch_absorbs 0 echo_stack failing_stack
                unit_noise two_then_zero two_codebook_model silent_frame silent_frame_mask
                first_position 0 1 2 (Fin 1) 1 5 two_ready_world)
      as (_ & _ & _ & Hloop & _).
    exists w'; apply (Hloop st w0 1 st (snd (decoder_reset_caches 0 w0))).
    + exact Hstart.
    + cbn; lia.
    + reflexivity.
    + exact Hturn.
  - destruct (generate_frame_propagates_and_batch_absorbs 0 echo_stack echo_stack unit_noise
                two_then_zero single_codebook_model text_frame text_frame_mask
                first_position 0 1 2 (Fin 1) 1 5 unready_world)
      as (_ & _ & _ & _ & _ & _ & Hb & _).
    eexists; apply (Hb caches_not_enabled); vm_compute; reflexivity.
  - destruct second_turn_raises as (st1 & w1 & w' & Hturns & Hturn).
    destruct (generate_frame_propagates_and_batch_absorbs 0 echo_stack echo_stack unit_noise
                two_then_zero single_codebook_model text_frame text_frame_mask
                first_position 0 1 2 (Fin 1) 1 5 batch_world)
      as (_ & _ & _ & _ & _ & _ & _ & Hb).
    exists w'.
    apply (Hb text_frame text_frame_mask first_position 1 st1 w1 (too_many_indices 2) w');
      [reflexivity|reflexivity|reflexivity|lia|exact Hturns|exact Hturn].
Defined.


(** ** Logits that overflow when they are scaled *)



